(** * ServiceState.execute (smach_ros/service_state.py)

    A shallow embedding of the service-calling state of smach_ros and the
    properties of its [execute] method: outcome labels, error handling,
    request construction and the life time of the request and of the
    condition variable that bridges the asynchronous completion.

    Python objects live in a heap and are referred to by location, so that
    [self._request = ud[key]] followed by [setattr(self._request, ...)]
    mutates the very object the userdata holds; an object carries its
    class, which decides what [setattr] accepts.  Everything the method
    does to the outside (logger, service client, condition variable) is
    recorded in an event log.  The hand-over between [execute] and the
    done callback is also followed step by step, for the two threads that
    share the state. *)

From stdpp Require Import gmap strings list fin_maps.

Open Scope string_scope.

(** ** Python values, objects and exceptions *)

Definition loc := nat.

Inductive value :=
| VNone
| VStr (s : string)
| VInt (z : Z)
| VRef (l : loc).

#[global] Instance value_eq_dec : EqDecision value.
Proof. solve_decision. Defined.

Inductive exn :=
| TypeError
| AttributeError
| AssertionError
| NameError
| UserError (name : string).

#[global] Instance exn_eq_dec : EqDecision exn.
Proof. solve_decision. Defined.

(** The type of a value, as the [isinstance] check of a setter sees it. *)
Inductive kind := KNone | KStr | KInt | KRef.

#[global] Instance kind_eq_dec : EqDecision kind.
Proof. solve_decision. Defined.

Definition kind_of (v : value) : kind :=
  match v with
  | VNone => KNone
  | VStr _ => KStr
  | VInt _ => KInt
  | VRef _ => KRef
  end.

(** What [setattr] does to an object depends on its class.  An instance
    with a [__dict__] takes any attribute.  A class with [__slots__] and
    a property for each field, as the generated message classes are
    ([service_spec.Request] among them), has its fields only, and the
    setter of a field may assert the type of the value. *)
Inductive class :=
| WithDict
| WithSlots (fields : gmap string (option kind)).

#[global] Instance class_eq_dec : EqDecision class.
Proof. solve_decision. Defined.

(** An object is its attribute values and its class. *)
Record obj := mkObj {
  o_attrs : gmap string value;
  o_class : class
}.

#[global] Instance obj_eq_dec : EqDecision obj.
Proof. solve_decision. Defined.

#[global] Instance obj_lookup : Lookup string value obj :=
  λ name o, o_attrs o !! name.
#[global] Instance obj_insert : Insert string value obj :=
  λ name v o, mkObj (<[name := v]> (o_attrs o)) (o_class o).

Abbreviation userdata := (gmap string value).
Abbreviation heap := (gmap loc obj).

(** The exception with which [setattr(o, name, v)] is refused, if it is:
    [AttributeError] for a name that is no field, the [AssertionError] of
    the setter for a value of another type than the field's. *)
Definition refuses (o : obj) (name : string) (v : value) : option exn :=
  match o_class o with
  | WithDict => None
  | WithSlots fields =>
      match fields !! name with
      | None => Some AttributeError
      | Some None => None
      | Some (Some k) =>
          if decide (kind_of v = k) then None else Some AssertionError
      end
  end.

(** A message with the given fields at their values, the setter of each
    field taking values of the type of that value. *)
Definition message (fields : gmap string value) : obj :=
  mkObj fields (WithSlots ((λ v, Some (kind_of v)) <$> fields)).

(** ** What [execute] does to the outside *)

Inductive level := Debug | Info | Warn | Error.

Inductive diagnostic :=
| PreemptingBeforeRequest (service : string)
| PreemptingWhileWaiting (service : string)
| ShuttingDownWhileWaiting (service : string)
| ConnectedToService (service : string)
| StillWaitingForService (service : string)
| TerminatedWhileWaiting (service : string)
| RequestKeyNotInUserdata (key : string) (available : gset string)
| RequestSlotNotInUserdata (key : string) (available : gset string)
| NoRequest (service : string)
| CallingService (service : string) (request : value)
| ExceptionWhenCalling (service : string) (e : exn)
| OutcomeNotRegistered (service : string) (label : value)
    (registered : list string).

Inductive event :=
| Log (lvl : level) (d : diagnostic)
| ServicePreempt
| ServiceIsReady
| WaitForService
| CallAsync (request : value) (payload : option obj)
| AddDoneCallback
| CondWait (c : nat)
| CondNotify (c : nat).

#[global] Instance level_eq_dec : EqDecision level.
Proof. solve_decision. Defined.
#[global] Instance diagnostic_eq_dec : EqDecision diagnostic.
Proof. solve_decision. Defined.
#[global] Instance event_eq_dec : EqDecision event.
Proof. solve_decision. Defined.

(** ** User callbacks

    A request or response callback receives the userdata (through a
    [smach.Remapper]), the request or response object and its extra
    arguments, which are part of the closure here.  It may write the
    userdata and the objects it reaches, and it returns a value or
    raises. *)

Inductive cb_result :=
| CbReturn (v : value) (ud : userdata) (h : heap)
| CbRaise (e : exn) (ud : userdata) (h : heap).

Definition callback := userdata → heap → value → cb_result.

(** ** The state object *)

Record ServiceState := mkServiceState {
  _service_name : string;
  _request : value;
  _request_cb : option callback;
  _request_key : option string;
  _request_slots : list string;
  _response_cb : option callback;
  _response_key : option string;
  _response_slots : list string;
  _outcomes : gset string;
  _preempt_requested : bool;
  _done_cond : nat;
  _response : option value
}.

Definition set_request (v : value) (s : ServiceState) : ServiceState :=
  mkServiceState (_service_name s) v (_request_cb s) (_request_key s)
    (_request_slots s) (_response_cb s) (_response_key s)
    (_response_slots s) (_outcomes s) (_preempt_requested s)
    (_done_cond s) (_response s).

Definition set_preempt_requested (b : bool) (s : ServiceState)
  : ServiceState :=
  mkServiceState (_service_name s) (_request s) (_request_cb s)
    (_request_key s) (_request_slots s) (_response_cb s) (_response_key s)
    (_response_slots s) (_outcomes s) b (_done_cond s) (_response s).

Definition set_response (v : value) (s : ServiceState) : ServiceState :=
  mkServiceState (_service_name s) (_request s) (_request_cb s)
    (_request_key s) (_request_slots s) (_response_cb s) (_response_key s)
    (_response_slots s) (_outcomes s) (_preempt_requested s)
    (_done_cond s) (Some v).

(** ** The world one invocation runs in *)

Record world := mkWorld {
  w_self : ServiceState;
  w_ud : userdata;
  w_heap : heap;
  w_conds : nat;          (* threading.Condition objects built so far *)
  w_log : list event
}.

Definition with_self (f : ServiceState → ServiceState) (w : world) : world :=
  mkWorld (f (w_self w)) (w_ud w) (w_heap w) (w_conds w) (w_log w).
Definition with_ud (ud : userdata) (w : world) : world :=
  mkWorld (w_self w) ud (w_heap w) (w_conds w) (w_log w).
Definition with_heap (h : heap) (w : world) : world :=
  mkWorld (w_self w) (w_ud w) h (w_conds w) (w_log w).
Definition with_event (ev : event) (w : world) : world :=
  mkWorld (w_self w) (w_ud w) (w_heap w) (w_conds w) (w_log w ++ [ev]).

(** How a call of [execute] ends: with an outcome label, with an exception
    that leaves the method, or not at all. *)
Inductive result :=
| Return (outcome : string)
| Raise (e : exn)
| Hang.

#[global] Instance result_eq_dec : EqDecision result.
Proof. solve_decision. Defined.

(** ** A monad for statements: state, [return] and [raise] *)

Inductive flow (A : Type) :=
| Next (a : A)
| Stop (r : result).
Arguments Next {A} a.
Arguments Stop {A} r.

Definition M (A : Type) : Type := world → flow A * world.

Definition ret {A} (a : A) : M A := λ w, (Next a, w).
Definition bind {A B} (m : M A) (k : A → M B) : M B :=
  λ w, match m w with
       | (Next a, w') => k a w'
       | (Stop r, w') => (Stop r, w')
       end.
Definition stop {A} (r : result) : M A := λ w, (Stop r, w).
Definition get : M world := λ w, (Next w, w).
Definition modify (f : world → world) : M unit := λ w, (Next tt, f w).
Definition emit (ev : event) : M unit := modify (with_event ev).
Definition log (lvl : level) (d : diagnostic) : M unit := emit (Log lvl d).

Declare Scope stmt_scope.
Delimit Scope stmt_scope with stmt.
Notation "x <- m ; k" := (bind m (λ x, k))
  (at level 100, m at next level, right associativity) : stmt_scope.
Notation "m ;; k" := (bind m (λ _, k))
  (at level 100, right associativity) : stmt_scope.
Open Scope stmt_scope.

(** ** The environment of one invocation *)

(** One turn of the loop [while not self._proxy.service_is_ready()]. *)
Inductive poll :=
| IsReady                                   (* service_is_ready() is True *)
| Faulted                                   (* service_is_ready() raises *)
| Pending (preempt ok : bool) (wait : option bool).
  (* not ready; what preempt_requested(), rclpy.ok() and
     wait_for_service(1.0) give; [None]: wait_for_service raises *)

(** What the client does with the call. *)
Inductive submit :=
| CallRaises (e : exn)                      (* call_async raises *)
| RegisterRaises (e : exn)                  (* add_done_callback raises *)
| Completes (fields : obj)                  (* the future gets its result,
                                               the executor runs the done
                                               callback *)
| CompletesInline (fields : obj)            (* the future has its result at
                                               once, add_done_callback runs
                                               the done callback itself *)
| NeverCompletes.

Record env := mkEnv {
  readiness : list poll;
  submission : submit
}.

(** ** Attribute access *)

Definition setattr (o : value) (name : string) (v : value) : M unit :=
  w <- get;
  match o with
  | VRef l =>
      match w_heap w !! l with
      | Some target =>
          match refuses target name v with
          | None =>
              modify (with_heap (<[l := <[name := v]> target]> (w_heap w)))
          | Some ex => stop (Raise ex)
          end
      | None => stop (Raise AttributeError)
      end
  | _ => stop (Raise AttributeError)
  end.

Definition getattr (o : value) (name : string) : M value :=
  w <- get;
  match o with
  | VRef l =>
      match w_heap w !! l with
      | Some attrs =>
          match attrs !! name with
          | Some v => ret v
          | None => stop (Raise AttributeError)
          end
      | None => stop (Raise AttributeError)
      end
  | _ => stop (Raise AttributeError)
  end.

(** The keys of the userdata, as the diagnostics of lines 150 and 159
    list them; the order of the list is not kept. *)
Definition keys (ud : userdata) : gset string := dom ud.

(** ** Preemption *)

(** Modelled from the spec: [preempt_requested] is inherited from
    [RosState], whose file is not at hand; it reads the preemption-request
    signal. *)
Definition preempt_requested : M bool :=
  w <- get; ret (_preempt_requested (w_self w)).

(** Modelled from the spec: [service_preempt], inherited from [RosState]
    as well, is the preemption-acknowledge call; it clears the signal. *)
Definition service_preempt : M unit :=
  emit ServicePreempt;;
  modify (with_self (set_preempt_requested false)).

(** ** [execute], statement by statement *)

Definition aborted {A} : M A := stop (Return "aborted").
Definition preempted {A} : M A := stop (Return "preempted").

(** Lines 117-122: check for preemption before executing. *)
Definition preempt_gate : M unit :=
  w <- get;
  p <- preempt_requested;
  if (p : bool) then
    log Info (PreemptingBeforeRequest (_service_name (w_self w)));;
    service_preempt;;
    preempted
  else ret tt.

(** Lines 124-143: make sure we are connected to the service.  The list
    holds what the turns of the loop observe; when it is used up the loop
    is still turning. *)
Fixpoint wait_until_ready (name : string) (script : list poll) : M unit :=
  match script with
  | [] => stop Hang
  | p :: script' =>
      emit ServiceIsReady;;
      match p with
      | IsReady => ret tt
      | Faulted => log Warn (TerminatedWhileWaiting name);; aborted
      | Pending preempt ok wait =>
          if (preempt : bool) then
            log Info (PreemptingWhileWaiting name);;
            service_preempt;;
            preempted
          else if negb ok then
            log Info (ShuttingDownWhileWaiting name);;
            aborted
          else
            emit WaitForService;;
            match wait with
            | None => log Warn (TerminatedWhileWaiting name);; aborted
            | Some true =>
                log Debug (ConnectedToService name);;
                wait_until_ready name script'
            | Some false =>
                log Warn (StillWaitingForService name);;
                wait_until_ready name script'
            end
      end
  end.

Definition connect_to_service (script : list poll) : M unit :=
  w <- get; wait_until_ready (_service_name (w_self w)) script.

(** Lines 145-152: grab request key if set. *)
Definition grab_request_key : M unit :=
  w <- get;
  match _request_key (w_self w) with
  | None => ret tt
  | Some key =>
      match w_ud w !! key with
      | Some v => modify (with_self (set_request v))
      | None =>
          log Error (RequestKeyNotInUserdata key (keys (w_ud w)));;
          aborted
      end
  end.

(** Lines 154-161: write request fields from userdata if set. *)
Fixpoint write_request_slots (slots : list string) : M unit :=
  match slots with
  | [] => ret tt
  | key :: slots' =>
      w <- get;
      match w_ud w !! key with
      | Some v =>
          setattr (_request (w_self w)) key v;;
          write_request_slots slots'
      | None =>
          log Error (RequestSlotNotInUserdata key (keys (w_ud w)));;
          aborted
      end
  end.

(** Lines 163-175: call the user-supplied callback, if set, to get a
    request.  Nothing guards the call. *)
Definition call_request_cb : M unit :=
  w <- get;
  match _request_cb (w_self w) with
  | None => ret tt
  | Some cb =>
      match cb (w_ud w) (w_heap w) (_request (w_self w)) with
      | CbRaise e ud h =>
          modify (with_ud ud);; modify (with_heap h);;
          stop (Raise e)
      | CbReturn request_update ud h =>
          modify (with_ud ud);; modify (with_heap h);;
          if decide (request_update = VNone) then ret tt
          else modify (with_self (set_request request_update))
      end
  end.

(** Lines 177-180. *)
Definition check_request : M unit :=
  w <- get;
  if decide (_request (w_self w) = VNone) then
    log Error (NoRequest (_service_name (w_self w)));;
    aborted
  else ret tt.

(** Line 240: [self._response = future.result()]. *)
Definition store_result (result : value) : M unit :=
  modify (with_self (set_response result)).

(** Line 241: [self._done_cond.notify()]. *)
Definition notify : M unit :=
  w <- get; emit (CondNotify (_done_cond (w_self w))).

(** Lines 232-241: the done callback stores the result and notifies. *)
Definition _done_cb (result : value) : M unit :=
  store_result result;;
  notify.

(** The client builds the response message. *)
Definition deliver (fields : obj) : M value :=
  w <- get;
  let l := fresh (dom (w_heap w)) in
  modify (with_heap (<[l := fields]> (w_heap w)));;
  ret (VRef l).

(** What is sent: the attributes of the request object at that moment. *)
Definition payload (w : world) (request : value) : option obj :=
  match request with
  | VRef l => w_heap w !! l
  | _ => None
  end.

(** Lines 192-195: only [TypeError] is handled. *)
Definition except_TypeError (e : exn) : M unit :=
  w <- get;
  if decide (e = TypeError) then
    log Error (ExceptionWhenCalling (_service_name (w_self w)) e);;
    aborted
  else stop (Raise e).

(** Lines 187-190: the debug line and [self._proxy.call_async]. *)
Definition submit_call : M unit :=
  w <- get;
  let self := w_self w in
  log Debug (CallingService (_service_name self) (_request self));;
  emit (CallAsync (_request self) (payload w (_request self))).

(** Line 191: [future.add_done_callback(self._done_cb)]. *)
Definition register : M unit := emit AddDoneCallback.

(** Line 197: [self._done_cond.wait()]. *)
Definition wait : M unit :=
  w <- get; emit (CondWait (_done_cond (w_self w))).

(** Lines 185-197: call the service and wait on the condition.  A done
    callback run by the executor's thread gets the lock once [wait()] has
    given it up, and its [notify()] releases the waiter.  A done callback
    that [add_done_callback] runs itself, on the thread of [execute],
    enters the lock a second time (the lock of [threading.Condition()] is
    re-entrant) and notifies before [wait()] is called: nothing releases
    the waiter afterwards. *)
Definition call_service (sub : submit) : M unit :=
  submit_call;;
  match sub with
  | CallRaises e => except_TypeError e
  | RegisterRaises e => register;; except_TypeError e
  | Completes fields =>
      register;;
      wait;;
      response <- deliver fields;
      _done_cb response
  | CompletesInline fields =>
      response <- deliver fields;
      register;;
      _done_cb response;;
      wait;;
      stop Hang
  | NeverCompletes =>
      register;;
      wait;;
      stop Hang
  end.

(** Lines 199-219: call the response callback if it is set.  The handler
    of the bare [except] evaluates [traceback.format_exc()], and the
    module does not import [traceback]: the handler itself raises
    [NameError]. *)
Definition except_all : M (option string) := stop (Raise NameError).

Definition call_response_cb : M (option string) :=
  w <- get;
  let self := w_self w in
  match _response_cb self with
  | None => ret None
  | Some cb =>
      match _response self with
      | None => except_all
      | Some response =>
          match cb (w_ud w) (w_heap w) response with
          | CbRaise e ud h =>
              modify (with_ud ud);; modify (with_heap h);;
              except_all
          | CbReturn response_cb_outcome ud h =>
              modify (with_ud ud);; modify (with_heap h);;
              match response_cb_outcome with
              | VNone => ret None
              | VStr label =>
                  if decide (label ∈ _outcomes self) then ret (Some label)
                  else
                    log Error (OutcomeNotRegistered (_service_name self)
                                 response_cb_outcome
                                 (elements (_outcomes self)));;
                    aborted
              | _ =>
                  log Error (OutcomeNotRegistered (_service_name self)
                               response_cb_outcome
                               (elements (_outcomes self)));;
                  aborted
              end
          end
      end
  end.

(** Lines 221-222. *)
Definition write_response_key : M unit :=
  w <- get;
  match _response_key (w_self w), _response (w_self w) with
  | None, _ => ret tt
  | Some key, Some response => modify (with_ud (<[key := response]> (w_ud w)))
  | Some key, None => stop (Raise AttributeError)
  end.

(** Lines 224-225. *)
Fixpoint write_response_slots (slots : list string) : M unit :=
  match slots with
  | [] => ret tt
  | key :: slots' =>
      w <- get;
      match _response (w_self w) with
      | None => stop (Raise AttributeError)
      | Some response =>
          v <- getattr response key;
          w' <- get;
          modify (with_ud (<[key := v]> (w_ud w')));;
          write_response_slots slots'
      end
  end.

(** Lines 227-230. *)
Definition resolve (response_cb_outcome : option string) : M string :=
  match response_cb_outcome with
  | Some label => ret label
  | None => ret "succeeded"
  end.

(** The part of [execute] up to and including the request callback. *)
Definition build_request : M unit :=
  grab_request_key;;
  (w <- get; write_request_slots (_request_slots (w_self w)));;
  call_request_cb.

(** The part of [execute] after the condition has released the waiter. *)
Definition handle_response : M string :=
  response_cb_outcome <- call_response_cb;
  write_response_key;;
  (w <- get; write_response_slots (_response_slots (w_self w)));;
  resolve response_cb_outcome.

Definition execute (e : env) : M string :=
  preempt_gate;;
  connect_to_service (readiness e);;
  build_request;;
  check_request;;
  call_service (submission e);;
  handle_response.

Definition finish {A} (r : flow A * world) (f : A → result)
  : result * world :=
  match r with
  | (Next a, w) => (f a, w)
  | (Stop r, w) => (r, w)
  end.

(** One call of [execute(ud)] by the container: the log starts empty. *)
Definition invoke (e : env) (w : world) : result * world :=
  finish (execute e (mkWorld (w_self w) (w_ud w) (w_heap w) (w_conds w) []))
         Return.

(** ** Construction (lines 17-113)

    [service_spec] stands for the fields of a fresh
    [service_spec.Request()]; [response_cb_outcomes] for the labels a
    response callback registers through smach's callback interface (none
    for a plain function).  The condition variable is built here, once. *)

Record arguments := mkArguments {
  service_name : string;
  service_spec : obj;
  request : option value;
  request_cb : option callback;
  request_key : option string;
  request_slots : list string;
  response_cb : option callback;
  response_cb_outcomes : list string;
  response_key : option string;
  response_slots : list string;
  outcomes : list string
}.

Definition base_outcomes : gset string :=
  {[ "succeeded"; "aborted"; "preempted" ]}.

Definition __init__ (a : arguments) (h : heap) (conds : nat)
  : ServiceState * heap * nat :=
  let '(req, h') :=
    match request a with
    | None => let l := fresh (dom h) in (VRef l, <[l := service_spec a]> h)
    | Some r => (r, h)
    end in
  (mkServiceState (service_name a) req (request_cb a) (request_key a)
     (request_slots a) (response_cb a) (response_key a) (response_slots a)
     (base_outcomes ∪ list_to_set (response_cb_outcomes a)
        ∪ list_to_set (outcomes a))
     false conds None,
   h', S conds).

Definition construct (a : arguments) : world :=
  let '(self, h, conds) := __init__ a ∅ 0 in
  mkWorld self ∅ h conds [].

(** ** Vocabulary of the properties *)

Definition fresh_log (w : world) : world :=
  mkWorld (w_self w) (w_ud w) (w_heap w) (w_conds w) [].

Definition is_call_async (ev : event) : bool :=
  match ev with
  | CallAsync _ _ => true
  | _ => false
  end.

(** The remote calls an invocation issued. *)
Definition calls (l : list event) : list event := List.filter is_call_async l.

(** The request of each remote call issued. *)
Definition requests_sent (l : list event) : list value :=
  omap (λ ev, match ev with
              | CallAsync request _ => Some request
              | _ => None
              end) l.

(** The events of lines 185-197 and of the done callback. *)
Definition is_dispatch_event (ev : event) : bool :=
  match ev with
  | CallAsync _ _ | AddDoneCallback | CondWait _ | CondNotify _ => true
  | _ => false
  end.

Definition dispatch_events (l : list event) : list event :=
  List.filter is_dispatch_event l.

Definition is_proxy_event (ev : event) : bool :=
  match ev with
  | ServiceIsReady | WaitForService | CallAsync _ _ | AddDoneCallback => true
  | _ => false
  end.

(** Every contact with the service client. *)
Definition contacts (l : list event) : list event :=
  List.filter is_proxy_event l.

(** The loop sees a preemption request before anything else ends it. *)
Fixpoint preempt_while_waiting (script : list poll) : bool :=
  match script with
  | Pending true _ _ :: _ => true
  | Pending false true (Some _) :: script' => preempt_while_waiting script'
  | _ => false
  end.

(** The service becomes ready with no preemption, shutdown or fault
    while the loop waits. *)
Fixpoint becomes_ready (script : list poll) : bool :=
  match script with
  | IsReady :: _ => true
  | Pending false true (Some _) :: script' => becomes_ready script'
  | _ => false
  end.

(** The loop neither leaves nor gives up within the turns observed. *)
Fixpoint still_waiting (script : list poll) : bool :=
  match script with
  | [] => true
  | Pending false true (Some _) :: script' => still_waiting script'
  | _ => false
  end.

(** One of the two checks of [execute] sees a preemption request: the
    flag is set when [execute] is entered (line 118), or a turn of the
    readiness loop finds it set (line 127). *)
Definition preemption_seen (w : world) (e : env) : bool :=
  _preempt_requested (w_self w) || preempt_while_waiting (readiness e).

(** The container requests preemption of the state. *)
Definition request_preempt (w : world) : world :=
  with_self (set_preempt_requested true) w.

(** Lines 145-230: what [execute] does once the service has been found
    ready. *)
Definition once_ready (e : env) : M string :=
  build_request;;
  check_request;;
  call_service (submission e);;
  handle_response.

(** An invocation during which the container requests preemption when
    the readiness loop has just been left: before the request is built
    and the call dispatched. *)
Definition invoke_preempted_late (e : env) (w : world) : result * world :=
  match (preempt_gate;; connect_to_service (readiness e)) (fresh_log w) with
  | (Next _, w1) => finish (once_ready e (request_preempt w1)) Return
  | (Stop r, w1) => (r, w1)
  end.

(** A statement that neither reads nor writes the preemption flag. *)
Definition ignores_preemption {A} (m : M A) : Prop :=
  ∀ flag w,
    m (with_self (set_preempt_requested flag) w) =
    ((m w).1, with_self (set_preempt_requested flag) (m w).2).

(** The request the slot copies are written to: the userdata's, when a
    request key is configured, else the one the state holds. *)
Definition request_base (w : world) : option value :=
  match _request_key (w_self w) with
  | Some key => w_ud w !! key
  | None => Some (_request (w_self w))
  end.

Definition copy_slots (ud : userdata) (slots : list string) (attrs : obj)
  : obj :=
  foldl (λ o key, match ud !! key with
                  | Some v => <[key := v]> o
                  | None => o
                  end) attrs slots.

(** The first of the slots, in the order of the loop of line 155, that
    the userdata does not hold, and the slots before it. *)
Fixpoint first_absent (ud : userdata) (slots : list string) : option string :=
  match slots with
  | [] => None
  | key :: slots' =>
      match ud !! key with
      | Some _ => first_absent ud slots'
      | None => Some key
      end
  end.

Fixpoint copied_first (ud : userdata) (slots : list string) : list string :=
  match slots with
  | [] => []
  | key :: slots' =>
      match ud !! key with
      | Some _ => key :: copied_first ud slots'
      | None => []
      end
  end.

(** The object takes the copies: [setattr] with the value the userdata
    holds is refused for none of the slots. *)
Definition takes (target : obj) (ud : userdata) (slots : list string)
  : Prop :=
  ∀ key v, key ∈ slots → ud !! key = Some v → refuses target key v = None.

(** What [setattr(o, name, v)] raises in the heap [h], if it raises. *)
Definition setattr_raises (h : heap) (o : value) (name : string) (v : value)
  : option exn :=
  match o with
  | VRef l =>
      match h !! l with
      | Some target => refuses target name v
      | None => Some AttributeError
      end
  | _ => Some AttributeError
  end.

(** [getattr(o, name)] finds no such attribute in the heap [h]. *)
Definition lacks (h : heap) (o : value) (name : string) : Prop :=
  match o with
  | VRef l =>
      match h !! l with
      | Some target => target !! name = None
      | None => True
      end
  | _ => True
  end.

(** The statements of [execute] before the call, and up to the moment the
    condition releases the waiter. *)
Definition prepare (e : env) : M unit :=
  preempt_gate;;
  connect_to_service (readiness e);;
  build_request;;
  check_request.

Definition dispatch (e : env) : M unit :=
  prepare e;;
  call_service (submission e).

(** The order of request sources in the words of the specification:
    default, slot copies, full replacement by the request key, callback. *)
Definition build_request_spec_order : M unit :=
  (w <- get; write_request_slots (_request_slots (w_self w)));;
  grab_request_key;;
  call_request_cb.

(** The settings that [execute] only reads. *)
Definition same_config (s s' : ServiceState) : Prop :=
  _service_name s' = _service_name s ∧
  _request_cb s' = _request_cb s ∧
  _request_key s' = _request_key s ∧
  _request_slots s' = _request_slots s ∧
  _response_cb s' = _response_cb s ∧
  _response_key s' = _response_key s ∧
  _response_slots s' = _response_slots s ∧
  _outcomes s' = _outcomes s ∧
  _done_cond s' = _done_cond s.

Definition frame (w w' : world) : Prop :=
  same_config (w_self w) (w_self w') ∧ w_conds w' = w_conds w.

(** The log grows, and by nothing of the call itself. *)
Definition quiet (w w' : world) : Prop :=
  ∃ evs, w_log w' = (w_log w ++ evs)%list ∧ dispatch_events evs = [].

(** The diagnostics with which [execute] reports a failure. *)
Definition reports_failure (ev : event) : bool :=
  match ev with
  | Log Error _ => true
  | Log _ (TerminatedWhileWaiting _) => true
  | Log _ (ShuttingDownWhileWaiting _) => true
  | _ => false
  end.

Definition failures (l : list event) : list event :=
  List.filter reports_failure l.

(** A statement that reports a failure ends the invocation with
    'aborted'. *)
Definition aborts_on_failure {A} (m : M A) : Prop :=
  ∀ w, ∃ evs,
    w_log (m w).2 = (w_log w ++ evs)%list ∧
    (failures evs = [] ∨ (m w).1 = Stop (Return "aborted")).

(** The request the state holds stays. *)
Definition keeps_request (w w' : world) : Prop :=
  _request (w_self w') = _request (w_self w).

(** ** The hand-over between the two threads

    Lines 185-197 run on the thread that called [execute] (the waiter).
    [_done_cb], lines 232-241, is run by the thread of the client's
    executor (the dispatcher) once the future has its result and the
    callback is registered; or, when the future has its result at once
    and no executor takes the callback, by [add_done_callback] itself, on
    the waiter's thread.  Both work under the lock of [self._done_cond],
    which [threading.Condition()] makes re-entrant: the thread that holds
    it enters again.  [wait()] gives the lock up and puts the waiter in
    the wait set in one step, [notify()] takes it out of the wait set if
    it is there, and a notified waiter takes the lock again before
    [wait()] returns.

    The threads run the statements of [call_service] and [_done_cb] on
    the one world they share.  The executor's own lock, held around
    [call_async] and [add_done_callback] (line 189), can only hold the
    dispatcher back longer and is left out. *)

Inductive thread := Waiter | Dispatcher.

Inductive waiter_pc :=
| WEnter          (* before [with self._done_cond:] *)
| WLocked         (* inside, holding the lock *)
| WSubmitted      (* [call_async] has returned the future *)
| WCallback       (* [add_done_callback] runs [_done_cb]: inside the
                     callback's own [with self._done_cond:] *)
| WStored         (* the callback's line 240 is done *)
| WNotified       (* the callback's line 241 is done *)
| WRegistered     (* [add_done_callback] has returned *)
| WWaiting        (* inside [self._done_cond.wait()] *)
| WResumed        (* [wait()] has returned, holding the lock *)
| WLeft.          (* after the [with] block *)

Inductive dispatcher_pc :=
| DIdle           (* the future has no result yet *)
| DCompleted      (* the future has its result *)
| DLocked         (* [_done_cb]: inside [with self._done_cond:] *)
| DStored         (* [self._response = future.result()] is done *)
| DNotified       (* [self._done_cond.notify()] is done *)
| DLeft.          (* after the [with] block *)

#[global] Instance thread_eq_dec : EqDecision thread.
Proof. solve_decision. Defined.
#[global] Instance waiter_pc_eq_dec : EqDecision waiter_pc.
Proof. solve_decision. Defined.
#[global] Instance dispatcher_pc_eq_dec : EqDecision dispatcher_pc.
Proof. solve_decision. Defined.

(** A re-entrant lock: who holds it, and how many times over. *)
Definition rlock := option (thread * nat).

Definition acquire (t : thread) (lock : rlock) : option rlock :=
  match lock with
  | None => Some (Some (t, 1%nat))
  | Some (owner, depth) =>
      if decide (owner = t) then Some (Some (t, S depth)) else None
  end.

Definition release (lock : rlock) : rlock :=
  match lock with
  | Some (owner, S (S depth)) => Some (owner, S depth)
  | _ => None
  end.

Definition holder (lock : rlock) : option thread :=
  match lock with
  | Some (owner, _) => Some owner
  | None => None
  end.

(** Where the waiter is with respect to [wait()]. *)
Inductive waiting :=
| Running                             (* not inside [wait()] *)
| InWaitSet (c : nat) (depth : nat)   (* in the wait set of condition [c],
                                         having held the lock [depth]
                                         times *)
| Notified (depth : nat).             (* taken out of the wait set: to
                                         take the lock again *)

#[global] Instance waiting_eq_dec : EqDecision waiting.
Proof. solve_decision. Defined.

Record bridge := mkBridge {
  b_world : world;                (* the state, the heap, the log *)
  b_waiter : waiter_pc;
  b_dispatcher : dispatcher_pc;
  b_lock : rlock;                 (* the lock of [self._done_cond] *)
  b_waiting : waiting;
  b_future : option value         (* the result of the future *)
}.

(** An invocation arrives at line 185 in the world [w]: whatever an
    earlier invocation stored in [self._response] is still there. *)
Definition bridge_init (w : world) : bridge :=
  mkBridge w WEnter DIdle None Running None.

(** The world once a statement has run, and the events it has added. *)
Definition after {A} (m : M A) (w : world) : world := (m w).2.

Definition emitted {A} (m : M A) (w : world) : list event :=
  w_log (m (fresh_log w)).2.

Definition notifies (c : nat) (ev : event) : bool :=
  match ev with
  | CondNotify c' => Nat.eqb c c'
  | _ => false
  end.

(** [notify()] on the condition the waiter waits on takes it out of the
    wait set; with nobody there it does nothing. *)
Definition wake (evs : list event) (st : waiting) : waiting :=
  match st with
  | InWaitSet c depth =>
      if existsb (notifies c) evs then Notified depth else st
  | _ => st
  end.

(** The request is out: the future exists and can get its result. *)
Definition submitted (pc : waiter_pc) : bool :=
  match pc with
  | WEnter | WLocked => false
  | _ => true
  end.

(** [add_done_callback] has returned: the callback is with the future. *)
Definition registered (pc : waiter_pc) : bool :=
  match pc with
  | WRegistered | WWaiting | WResumed | WLeft => true
  | _ => false
  end.

Definition waiter_at (pc : waiter_pc) (w : world) (b : bridge) : bridge :=
  mkBridge w pc (b_dispatcher b) (b_lock b) (b_waiting b) (b_future b).

Definition dispatcher_at (pc : dispatcher_pc) (w : world) (b : bridge)
  : bridge :=
  mkBridge w (b_waiter b) pc (b_lock b) (b_waiting b) (b_future b).

Definition with_lock (lock : rlock) (b : bridge) : bridge :=
  mkBridge (b_world b) (b_waiter b) (b_dispatcher b) lock (b_waiting b)
    (b_future b).

Definition with_waiting (st : waiting) (b : bridge) : bridge :=
  mkBridge (b_world b) (b_waiter b) (b_dispatcher b) (b_lock b) st
    (b_future b).

Definition with_future (result : value) (b : bridge) : bridge :=
  mkBridge (b_world b) (b_waiter b) (b_dispatcher b) (b_lock b) (b_waiting b)
    (Some result).

(** One step of the thread of [execute].  [inline] says that the future
    has its result at once and that [add_done_callback], finding it
    done, runs the callback itself. *)
Definition waiter_step (inline : bool) (fields : obj) (b : bridge)
  : option bridge :=
  let w := b_world b in
  match b_waiter b with
  | WEnter =>
      match acquire Waiter (b_lock b) with
      | Some lock => Some (with_lock lock (waiter_at WLocked w b))
      | None => None
      end
  | WLocked =>
      let w1 := after submit_call w in
      if inline then
        match deliver fields w1 with
        | (Next result, w2) =>
            Some (with_future result (waiter_at WSubmitted w2 b))
        | _ => None
        end
      else Some (waiter_at WSubmitted w1 b)
  | WSubmitted =>
      let w1 := after register w in
      if inline then
        match acquire Waiter (b_lock b) with
        | Some lock => Some (with_lock lock (waiter_at WCallback w1 b))
        | None => None
        end
      else Some (waiter_at WRegistered w1 b)
  | WCallback =>
      match b_future b with
      | Some result =>
          Some (waiter_at WStored (after (store_result result) w) b)
      | None => None
      end
  | WStored =>
      Some (with_waiting (wake (emitted notify w) (b_waiting b))
              (waiter_at WNotified (after notify w) b))
  | WNotified =>
      Some (with_lock (release (b_lock b)) (waiter_at WRegistered w b))
  | WRegistered =>
      match emitted wait w, b_lock b with
      | [CondWait c], Some (Waiter, depth) =>
          Some (with_waiting (InWaitSet c depth)
                  (with_lock None (waiter_at WWaiting (after wait w) b)))
      | _, _ => None
      end
  | WWaiting =>
      match b_waiting b, b_lock b with
      | Notified depth, None =>
          Some (with_waiting Running
                  (with_lock (Some (Waiter, depth)) (waiter_at WResumed w b)))
      | _, _ => None
      end
  | WResumed =>
      Some (with_lock (release (b_lock b)) (waiter_at WLeft w b))
  | WLeft => None
  end.

(** One step of the executor's thread. *)
Definition dispatcher_step (inline : bool) (fields : obj) (b : bridge)
  : option bridge :=
  let w := b_world b in
  match b_dispatcher b with
  | DIdle =>
      if negb inline && submitted (b_waiter b) then
        match deliver fields w with
        | (Next result, w1) =>
            Some (with_future result (dispatcher_at DCompleted w1 b))
        | _ => None
        end
      else None
  | DCompleted =>
      if registered (b_waiter b) then
        match acquire Dispatcher (b_lock b) with
        | Some lock => Some (with_lock lock (dispatcher_at DLocked w b))
        | None => None
        end
      else None
  | DLocked =>
      match b_future b with
      | Some result =>
          Some (dispatcher_at DStored (after (store_result result) w) b)
      | None => None
      end
  | DStored =>
      Some (with_waiting (wake (emitted notify w) (b_waiting b))
              (dispatcher_at DNotified (after notify w) b))
  | DNotified =>
      Some (with_lock (release (b_lock b)) (dispatcher_at DLeft w b))
  | DLeft => None
  end.

Definition bridge_step (inline : bool) (fields : obj) (t : thread)
    (b : bridge) : option bridge :=
  match t with
  | Waiter => waiter_step inline fields b
  | Dispatcher => dispatcher_step inline fields b
  end.

(** An interleaving: the threads in the order in which they take their
    steps. *)
Fixpoint bridge_run (inline : bool) (fields : obj) (schedule : list thread)
    (b : bridge) : option bridge :=
  match schedule with
  | [] => Some b
  | t :: schedule' =>
      match bridge_step inline fields t b with
      | Some b' => bridge_run inline fields schedule' b'
      | None => None
      end
  end.

(** *** The states the two threads reach together *)

(** The events of lines 187-190. *)
Definition call_events (w : world) : list event :=
  [Log Debug (CallingService (_service_name (w_self w)) (_request (w_self w)));
   CallAsync (_request (w_self w)) (payload w (_request (w_self w)))].

(** What the two threads have added to the log. *)
Definition events_at (inline : bool) (w : world) (wpc : waiter_pc)
    (dpc : dispatcher_pc) : list event :=
  let c := _done_cond (w_self w) in
  match wpc with
  | WEnter | WLocked => []
  | WSubmitted => call_events w
  | WCallback | WStored => call_events w ++ [AddDoneCallback]
  | WNotified => call_events w ++ [AddDoneCallback; CondNotify c]
  | WRegistered =>
      call_events w ++
      AddDoneCallback :: (if inline then [CondNotify c] else [])
  | WWaiting | WResumed | WLeft =>
      call_events w ++
      AddDoneCallback ::
      (if inline then [CondNotify c; CondWait c]
       else CondWait c ::
            match dpc with
            | DNotified | DLeft => [CondNotify c]
            | _ => []
            end)
  end%list.

(** The future has its result: the response object is in the heap. *)
Definition delivered_at (inline : bool) (wpc : waiter_pc)
    (dpc : dispatcher_pc) : bool :=
  if inline then submitted wpc
  else match dpc with
       | DIdle => false
       | _ => true
       end.

(** Line 240 of the done callback is done, on whichever thread. *)
Definition stored_at (inline : bool) (wpc : waiter_pc)
    (dpc : dispatcher_pc) : bool :=
  if inline then
    match wpc with
    | WEnter | WLocked | WSubmitted | WCallback => false
    | _ => true
    end
  else
    match dpc with
    | DStored | DNotified | DLeft => true
    | _ => false
    end.

Definition lock_at (inline : bool) (wpc : waiter_pc) (dpc : dispatcher_pc)
  : rlock :=
  match wpc with
  | WEnter | WLeft => None
  | WCallback | WStored | WNotified => Some (Waiter, 2%nat)
  | WWaiting =>
      match dpc with
      | DLocked | DStored | DNotified => Some (Dispatcher, 1%nat)
      | _ => None
      end
  | _ => Some (Waiter, 1%nat)
  end.

Definition waiting_at (w : world) (wpc : waiter_pc) (dpc : dispatcher_pc)
  : waiting :=
  match wpc with
  | WWaiting =>
      match dpc with
      | DNotified | DLeft => Notified 1
      | _ => InWaitSet (_done_cond (w_self w)) 1
      end
  | _ => Running
  end.

(** The places the two threads can be at together. *)
Definition together (inline : bool) (wpc : waiter_pc) (dpc : dispatcher_pc)
  : bool :=
  if inline then
    match wpc, dpc with
    | (WResumed | WLeft), _ => false
    | _, DIdle => true
    | _, _ => false
    end
  else
    match wpc, dpc with
    | (WEnter | WLocked), DIdle => true
    | (WSubmitted | WRegistered), (DIdle | DCompleted) => true
    | WWaiting, _ => true
    | (WResumed | WLeft), DLeft => true
    | _, _ => false
    end.

(** The world in which the two threads find themselves there, having
    entered line 185 in the world [w]. *)
Definition world_at (inline : bool) (fields : obj) (w : world)
    (wpc : waiter_pc) (dpc : dispatcher_pc) : world :=
  let l := fresh (dom (w_heap w)) in
  mkWorld
    (if stored_at inline wpc dpc then set_response (VRef l) (w_self w)
     else w_self w)
    (w_ud w)
    (if delivered_at inline wpc dpc then <[l := fields]> (w_heap w)
     else w_heap w)
    (w_conds w)
    (foldl (λ lg ev, (lg ++ [ev])%list) (w_log w)
       (events_at inline w wpc dpc)).

Definition bridge_at (inline : bool) (fields : obj) (w : world)
    (wpc : waiter_pc) (dpc : dispatcher_pc) : option bridge :=
  if together inline wpc dpc then
    Some (mkBridge (world_at inline fields w wpc dpc) wpc dpc
            (lock_at inline wpc dpc) (waiting_at w wpc dpc)
            (if delivered_at inline wpc dpc
             then Some (VRef (fresh (dom (w_heap w)))) else None))
  else None.

(** The two threads are at places they can be at together, in the world
    that belongs there. *)
Definition bridge_inv (inline : bool) (fields : obj) (w : world)
    (b : bridge) : Prop :=
  bridge_at inline fields w (b_waiter b) (b_dispatcher b) = Some b.

(** Steps taken so far. *)
Definition waiter_rank (inline : bool) (pc : waiter_pc) : nat :=
  match pc with
  | WEnter => 0 | WLocked => 1 | WSubmitted => 2 | WCallback => 3
  | WStored => 4 | WNotified => 5
  | WRegistered => if inline then 6 else 3
  | WWaiting => if inline then 7 else 4
  | WResumed => if inline then 8 else 5
  | WLeft => if inline then 9 else 6
  end.

Definition dispatcher_rank (pc : dispatcher_pc) : nat :=
  match pc with
  | DIdle => 0 | DCompleted => 1 | DLocked => 2 | DStored => 3
  | DNotified => 4 | DLeft => 5
  end.

Definition bridge_rank (inline : bool) (b : bridge) : nat :=
  (waiter_rank inline (b_waiter b) + dispatcher_rank (b_dispatcher b))%nat.

(** The future gets its result right after [call_async], before the
    callback is registered and before the waiter waits. *)
Definition early_completion : list thread :=
  [Waiter; Waiter; Dispatcher; Waiter; Waiter;
   Dispatcher; Dispatcher; Dispatcher; Dispatcher; Waiter; Waiter].

(** The future has its result at once and [add_done_callback] runs the
    callback: the waiter's thread alone, up to [wait()]. *)
Definition inline_completion : list thread :=
  [Waiter; Waiter; Waiter; Waiter; Waiter; Waiter; Waiter].

(** The waiter holds the lock of the condition. *)
Definition waiter_holds_lock (b : bridge) : bool :=
  bool_decide (holder (b_lock b) = Some Waiter).

(** The done callback run by the executor's thread is inside its
    [with self._done_cond:] block. *)
Definition dispatcher_inside (pc : dispatcher_pc) : bool :=
  match pc with
  | DLocked | DStored | DNotified => true
  | _ => false
  end.

(** [wait()] has returned. *)
Definition resumed (pc : waiter_pc) : bool :=
  match pc with
  | WResumed | WLeft => true
  | _ => false
  end.

(** A statement leaves a relation between the world before and the world
    after intact. *)
Definition preserves (R : world → world → Prop) {A} (m : M A) : Prop :=
  ∀ w, R w (m w).2.

(** ** Sample states and invocations *)

Definition sum_request : obj := message {[ "a" := VInt 0; "b" := VInt 0 ]}.
Definition sum_response : obj := message {[ "sum" := VInt 3 ]}.

(** The service is ready at once and answers. *)
Definition answered : env := mkEnv [IsReady] (Completes sum_response).

(** The service is ready at once and the call raises. *)
Definition call_fails (ex : exn) : env := mkEnv [IsReady] (CallRaises ex).

(** A state with a default request and no callback, key or slot. *)
Definition plain_args : arguments :=
  mkArguments "add_two_ints" sum_request None None None [] None [] None [] [].
Definition plain : world := construct plain_args.

Definition preempt_pending : world :=
  with_self (set_preempt_requested true) plain.

(** A request key that the (empty) userdata does not hold. *)
Definition keyed_args : arguments :=
  mkArguments "add_two_ints" sum_request None None (Some "goal") [] None []
    None [] [].
Definition keyed : world := construct keyed_args.

(** A response callback that returns a label nobody registered. *)
Definition retry_cb : callback := λ ud h _, CbReturn (VStr "retry") ud h.
Definition labelled_args : arguments :=
  mkArguments "add_two_ints" sum_request None None None [] (Some retry_cb) []
    None [] [].
Definition labelled : world := construct labelled_args.

(** A response slot that the response does not have. *)
Definition slotted_args : arguments :=
  mkArguments "add_two_ints" sum_request None None None [] None [] None
    ["total"] [].
Definition slotted : world := construct slotted_args.

(** A request key and a request slot together: the userdata holds a
    request object under 'goal' and a value for its field 'a'. *)
Definition ordered_args : arguments :=
  mkArguments "add_two_ints" sum_request None None (Some "goal") ["a"] None []
    None [] [].
Definition goal_request : obj := message {[ "a" := VInt 1; "b" := VInt 2 ]}.
Definition ordered : world :=
  let w := construct ordered_args in
  with_ud {[ "goal" := VRef 1; "a" := VInt 5 ]}
    (with_heap (<[1 := goal_request]> (w_heap w)) w).

(** Request slots 'a' and 'c': the userdata holds a value for 'a' only. *)
Definition half_filled_args : arguments :=
  mkArguments "add_two_ints" sum_request None None None ["a"; "c"] None []
    None [] [].
Definition half_filled : world :=
  with_ud {[ "a" := VInt 5 ]} (construct half_filled_args).

(** Request slots 'total' and 'b': the request has no field 'total', and
    the userdata holds no value for 'b'. *)
Definition misfiled_args : arguments :=
  mkArguments "add_two_ints" sum_request None None None ["total"; "b"] None []
    None [] [].
Definition misfiled : world :=
  with_ud {[ "total" := VInt 1 ]} (construct misfiled_args).

(** A response callback that returns a label nobody registered, and a
    response slot that the response does not have. *)
Definition labelled_slotted_args : arguments :=
  mkArguments "add_two_ints" sum_request None None None [] (Some retry_cb) []
    None ["total"] [].
Definition labelled_slotted : world := construct labelled_slotted_args.

(** The service is ready at once; the future has its result at once and
    [add_done_callback] runs the done callback. *)
Definition answered_inline : env :=
  mkEnv [IsReady] (CompletesInline sum_response).

(** The world in which an invocation arrives at line 185. *)
Definition at_call (e : env) (w : world) : world :=
  (prepare e (fresh_log w)).2.

(** The attribute [name] of the request the state holds. *)
Definition request_attr (w : world) (name : string) : option value :=
  payload w (_request (w_self w)) ≫= (.!! name).

(** A request callback that raises. *)
Definition failing_cb : callback :=
  λ ud h _, CbRaise (UserError "ValueError") ud h.
Definition failing_args : arguments :=
  mkArguments "add_two_ints" sum_request None (Some failing_cb) None [] None []
    None [] [].
Definition failing : world := construct failing_args.

(** A response callback that raises. *)
Definition failing_response_args : arguments :=
  mkArguments "add_two_ints" sum_request None None None [] (Some failing_cb) []
    None [] [].
Definition failing_response : world := construct failing_response_args.

(** A request callback that takes the request from the userdata, when
    there is one under 'goal'. *)
Definition goal_cb : callback :=
  λ ud h _, CbReturn (default VNone (ud !! "goal")) ud h.
Definition goal_args : arguments :=
  mkArguments "add_two_ints" sum_request None (Some goal_cb) None [] None []
    None [] [].
Definition with_goal : world :=
  let w := construct goal_args in
  with_ud {[ "goal" := VRef 1 ]}
    (with_heap (<[1 := goal_request]> (w_heap w)) w).

(** The next invocation of the same state, on another userdata. *)
Definition again (e : env) (ud : userdata) (w : world) : world :=
  (invoke e (with_ud ud w)).2.

(** The statements of [execute] before the request callback is called. *)
Definition before_request_cb (e : env) : M unit :=
  preempt_gate;;
  connect_to_service (readiness e);;
  grab_request_key;;
  (w <- get; write_request_slots (_request_slots (w_self w))).

(** In this invocation the request callback is called and raises [ex]. *)
Definition request_cb_raises (e : env) (w : world) (ex : exn) : Prop :=
  ∃ w1 cb ud h,
    before_request_cb e (fresh_log w) = (Next tt, w1) ∧
    _request_cb (w_self w) = Some cb ∧
    cb (w_ud w1) (w_heap w1) (_request (w_self w1)) = CbRaise ex ud h.

(** The request object of this invocation refuses, with [ex], the copy
    of a slot value the userdata holds (line 157). *)
Definition request_copy_refused (w : world) (ex : exn) : Prop :=
  ∃ base key v,
    request_base w = Some base ∧
    key ∈ _request_slots (w_self w) ∧
    w_ud w !! key = Some v ∧
    setattr_raises (w_heap w) base key v = Some ex.

(** In this invocation the call completes, the response callback (if
    any) hands over, and the response has no attribute for one of the
    response slots (line 225). *)
Definition response_slot_missing (e : env) (w : world) : Prop :=
  ∃ w1 o w2 response key,
    dispatch e (fresh_log w) = (Next tt, w1) ∧
    call_response_cb w1 = (Next o, w2) ∧
    _response (w_self w2) = Some response ∧
    key ∈ _response_slots (w_self w) ∧
    lacks (w_heap w2) response key.

(** The response callback, if this invocation calls it, returns. *)
Definition response_cb_returns (e : env) (w : world) : Prop :=
  ∀ w1 cb response,
    dispatch e (fresh_log w) = (Next tt, w1) →
    _response_cb (w_self w) = Some cb →
    _response (w_self w1) = Some response →
    ∃ label ud h, cb (w_ud w1) (w_heap w1) response = CbReturn label ud h.

(** The exceptions that [execute], as it is written, lets through: the
    one the request callback raised, the one with which a slot copy
    failed, and what call submission raised other than [TypeError]
    (line 192). *)
Definition escapes (e : env) (w : world) (ex : exn) : Prop :=
  request_cb_raises e w ex ∨
  request_copy_refused w ex ∨
  (ex = AttributeError ∧ response_slot_missing e w) ∨
  (ex ≠ TypeError ∧
   (submission e = CallRaises ex ∨ submission e = RegisterRaises ex)).

(** [execute] stays in the readiness loop for all the turns observed, or
    in [wait()]: the call never completes, or its done callback has
    notified before [wait()] was called. *)
Definition never_released (e : env) : Prop :=
  still_waiting (readiness e) = true ∨
  submission e = NeverCompletes ∨
  ∃ fields, submission e = CompletesInline fields.

(** ** Vocabulary of further properties *)

(** The wait for the service ends by shutdown or by a fault, before any
    preemption is seen. *)
Fixpoint gives_up (script : list poll) : bool :=
  match script with
  | Faulted :: _ => true
  | Pending false false _ :: _ => true
  | Pending false true None :: _ => true
  | Pending false true (Some _) :: script' => gives_up script'
  | _ => false
  end.

(** The service is ready at once, and the call gets the given answer. *)
Definition ready_with (sub : submit) : env := mkEnv [IsReady] sub.

(** The userdata once the response slots are copied from the attributes
    of the response. *)
Definition copy_response (attrs : obj) (slots : list string) (ud : userdata)
  : userdata :=
  foldl (λ u key, match attrs !! key with
                  | Some v => <[key := v]> u
                  | None => u
                  end) ud slots.

(** The userdata once the response is stored under the response key. *)
Definition store_response (key : option string) (response : value)
    (ud : userdata) : userdata :=
  match key with
  | Some k => <[k := response]> ud
  | None => ud
  end.

(** A response callback that answers with a registered label, and a
    state that also stores the response and copies its field 'sum'. *)
Definition done_cb : callback := λ ud h _, CbReturn (VStr "done") ud h.
Definition reporting_args : arguments :=
  mkArguments "add_two_ints" sum_request None None None [] (Some done_cb) []
    (Some "result") ["sum"] ["done"].
Definition reporting : world := construct reporting_args.

(** A callback that does not write the userdata. *)
Definition cb_keeps_userdata (cb : callback) : Prop :=
  ∀ ud h v, match cb ud h v with
            | CbReturn _ ud' _ | CbRaise _ ud' _ => ud' = ud
            end.

Definition callbacks_keep_userdata (s : ServiceState) : Prop :=
  (∀ cb, _request_cb s = Some cb → cb_keeps_userdata cb) ∧
  (∀ cb, _response_cb s = Some cb → cb_keeps_userdata cb).

(** The userdata keys that [execute] itself assigns (lines 221-225). *)
Definition is_output_key (s : ServiceState) (key : string) : Prop :=
  _response_key s = Some key ∨ key ∈ _response_slots s.

(** A statement that leaves the userdata as it is, the callbacks not
    writing it. *)
Definition leaves_userdata (w w' : world) : Prop :=
  callbacks_keep_userdata (w_self w) →
  frame w w' ∧ w_ud w' = w_ud w.

(** ** The constructor's checks and declarations (lines 17-113) *)

(** What can be passed for [request_cb] and [response_cb]: nothing, an
    object that cannot be called, a plain function, or a function that
    carries smach's callback interface and so registers keys and
    outcomes of its own. *)
Inductive cb_argument :=
| NoCallback
| NotCallable
| Function (f : callback)
| WithInterface (f : callback) (input_keys output_keys outcomes : list string).

Record constructor_arguments := mkConstructorArguments {
  c_service_name : string;
  c_service_spec : obj;
  c_request : option value;
  c_request_cb : cb_argument;
  c_request_key : option string;
  c_request_slots : list string;
  c_response_cb : cb_argument;
  c_response_key : option string;
  c_response_slots : list string;
  c_input_keys : list string;
  c_output_keys : list string;
  c_outcomes : list string
}.

Definition not_callable (c : cb_argument) : bool :=
  match c with
  | NotCallable => true
  | _ => false
  end.

Definition callable (c : cb_argument) : option callback :=
  match c with
  | Function f | WithInterface f _ _ _ => Some f
  | _ => None
  end.

Definition cb_input_keys (c : cb_argument) : list string :=
  match c with
  | WithInterface _ keys _ _ => keys
  | _ => []
  end.

Definition cb_output_keys (c : cb_argument) : list string :=
  match c with
  | WithInterface _ _ keys _ => keys
  | _ => []
  end.

Definition cb_outcomes (c : cb_argument) : list string :=
  match c with
  | WithInterface _ _ _ labels => labels
  | _ => []
  end.

Definition key_set (key : option string) : gset string :=
  match key with
  | Some k => {[ k ]}
  | None => ∅
  end.

(** Modelled from the spec: [register_input_keys] is a method of smach's
    [State], whose file is not at hand; it adds the keys to the declared
    input keys.  These are the calls of lines 65, 73, 76, 91 and 100. *)
Definition declared_input_keys (c : constructor_arguments) : gset string :=
  list_to_set (cb_input_keys (c_request_cb c))
  ∪ key_set (c_request_key c)
  ∪ list_to_set (c_request_slots c)
  ∪ list_to_set (cb_input_keys (c_response_cb c))
  ∪ list_to_set (c_input_keys c).

(** Modelled from the spec: [register_output_keys], likewise; the calls
    of lines 66, 92, 101, 106 and 109. *)
Definition declared_output_keys (c : constructor_arguments) : gset string :=
  list_to_set (cb_output_keys (c_request_cb c))
  ∪ list_to_set (cb_output_keys (c_response_cb c))
  ∪ list_to_set (c_output_keys c)
  ∪ key_set (c_response_key c)
  ∪ list_to_set (c_response_slots c).

(** The labels registered by lines 41, 93 and 102. *)
Definition declared_outcomes (c : constructor_arguments) : gset string :=
  base_outcomes ∪ list_to_set (cb_outcomes (c_response_cb c))
  ∪ list_to_set (c_outcomes c).

Definition to_arguments (c : constructor_arguments) : arguments :=
  mkArguments (c_service_name c) (c_service_spec c) (c_request c)
    (callable (c_request_cb c)) (c_request_key c) (c_request_slots c)
    (callable (c_response_cb c)) (cb_outcomes (c_response_cb c))
    (c_response_key c) (c_response_slots c) (c_outcomes c).

Inductive construction :=
| InvalidStateError (message : string)
| Constructed (self : ServiceState) (input_keys output_keys : gset string)
    (h : heap) (conds : nat).

(** [ServiceState(...)]: lines 54-56 and 79-81 reject what cannot be
    called; the rest of the constructor is [__init__]. *)
Definition new_ServiceState (c : constructor_arguments) (h : heap)
    (conds : nat) : construction :=
  if not_callable (c_request_cb c) then
    InvalidStateError
      "Request callback object given to ServiceState that IS NOT a function object"
  else if not_callable (c_response_cb c) then
    InvalidStateError
      "Response callback object given to ServiceState that IS NOT a function object"
  else
    let '(self, h', conds') := __init__ (to_arguments c) h conds in
    Constructed self (declared_input_keys c) (declared_output_keys c)
      h' conds'.

(** What the container does before an invocation: it hands over a
    userdata and may have requested preemption. *)
Record invocation := mkInvocation {
  i_env : env;
  i_ud : userdata;
  i_preempt : bool
}.

Definition enter (i : invocation) (w : world) : world :=
  with_self (set_preempt_requested
               (i_preempt i || _preempt_requested (w_self w)))
    (with_ud (i_ud i) w).

(** Invocations of one state, one after the other. *)
Fixpoint invocations (todo : list invocation) (w : world)
  : list result * world :=
  match todo with
  | [] => ([], w)
  | i :: todo' =>
      let '(r, w1) := invoke (i_env i) (enter i w) in
      let '(rs, w2) := invocations todo' w1 in
      (r :: rs, w2)
  end.

(** A state whose response callback registers the label 'retry' through
    its interface. *)
Definition retrying : constructor_arguments :=
  mkConstructorArguments "add_two_ints" sum_request None NoCallback None []
    (WithInterface retry_cb [] [] ["retry"]) None [] [] [] [].

Definition retrying_twice : list invocation :=
  [mkInvocation answered ∅ false; mkInvocation answered ∅ true].

(** A state with declared keys of its own, a response key and a response
    slot. *)
Definition declaring : constructor_arguments :=
  mkConstructorArguments "add_two_ints" sum_request None NoCallback None []
    (Function done_cb) (Some "result") ["sum"] ["a"] ["log"] ["done"].

(** The userdata keys that [execute] itself reads (lines 146-157). *)
Definition is_input_key (s : ServiceState) (key : string) : Prop :=
  _request_key s = Some key ∨ key ∈ _request_slots s.

(** Two worlds with the same state, without callbacks, the same heap,
    and userdata that agree on the keys [execute] reads. *)
Definition agree (w1 w2 : world) : Prop :=
  w_self w1 = w_self w2 ∧
  w_heap w1 = w_heap w2 ∧
  w_conds w1 = w_conds w2 ∧
  _request_cb (w_self w1) = None ∧
  _response_cb (w_self w1) = None ∧
  ∀ key, is_input_key (w_self w1) key → w_ud w1 !! key = w_ud w2 !! key.

(** A statement that goes the same way in two such worlds. *)
Definition uniform {A} (m : M A) : Prop :=
  ∀ w1 w2, agree w1 w2 →
           (m w1).1 = (m w2).1 ∧ agree (m w1).2 (m w2).2.

(** A state with a request key, a request slot and no callback. *)
Definition reading : constructor_arguments :=
  mkConstructorArguments "add_two_ints" sum_request None NoCallback
    (Some "goal") ["a"] NoCallback None [] [] [] [].

(** The heap stays. *)
Definition keeps_heap (w w' : world) : Prop := w_heap w' = w_heap w.

(** The stored response stays. *)
Definition keeps_response (w w' : world) : Prop :=
  _response (w_self w') = _response (w_self w).

(** A request key under which the userdata holds None. *)
Definition null_goal : world := with_ud {[ "goal" := VNone ]} keyed.

(** * Properties *)

(** ** Statements that leave a relation between worlds intact *)

Section Preservation.
Variable R : world → world → Prop.
Hypothesis R_refl : ∀ w, R w w.
Hypothesis R_trans : ∀ a b c, R a b → R b c → R a c.

Lemma preserves_ret {A} (a : A) : preserves R (ret a).
Proof. intros w. apply R_refl. Qed.

Lemma preserves_stop {A} (r : result) : preserves R (@stop A r).
Proof. intros w. apply R_refl. Qed.

Lemma preserves_get : preserves R get.
Proof. intros w. apply R_refl. Qed.

Lemma preserves_modify (f : world → world) :
  (∀ w, R w (f w)) → preserves R (modify f).
Proof. intros Hf w. apply Hf. Qed.

Lemma preserves_bind {A B} (m : M A) (k : A → M B) :
  preserves R m → (∀ a, preserves R (k a)) → preserves R (bind m k).
Proof.
  intros Hm Hk w. unfold bind.
  specialize (Hm w). destruct (m w) as [[a|r] w1]; simpl in *.
  - eapply R_trans; [exact Hm | apply Hk].
  - exact Hm.
Qed.
End Preservation.

Ltac preserve Hrefl Htrans :=
  repeat first
    [ match goal with |- ∀ _, _ => intro end
    | match goal with
      | |- preserves _ (ret _) => apply (preserves_ret _ Hrefl)
      | |- preserves _ (stop _) => apply (preserves_stop _ Hrefl)
      | |- preserves _ get => apply (preserves_get _ Hrefl)
      | |- preserves _ (bind _ _) => apply (preserves_bind _ Htrans)
      end
    | match goal with
      | |- preserves _ (match ?x with _ => _ end) => destruct x
      | |- preserves _ (if ?b then _ else _) => destruct b
      end
    | match goal with
      | |- preserves _ (modify _) => apply preserves_modify
      | |- preserves _ (emit _) => apply preserves_modify
      | |- preserves _ (log _ _) => apply preserves_modify
      | |- preserves _ aborted => apply (preserves_stop _ Hrefl)
      | |- preserves _ preempted => apply (preserves_stop _ Hrefl)
      end ].

(** ** The settings and the condition variable are only read *)

Lemma same_config_refl s : same_config s s.
Proof. repeat split. Qed.

Lemma frame_refl w : frame w w.
Proof. split; [apply same_config_refl | reflexivity]. Qed.

Lemma frame_trans a b c : frame a b → frame b c → frame a c.
Proof.
  unfold frame, same_config. intros H1 H2.
  destruct_and!. repeat split; congruence.
Qed.

Create HintDb frame discriminated.

Ltac frame_modify :=
  try match goal with
      | |- frame ?w _ =>
          destruct w; split; [repeat split | reflexivity]
      end.

Ltac frame_tac :=
  preserve frame_refl frame_trans; frame_modify; eauto with frame.

Lemma frame_preempt_gate : preserves frame preempt_gate.
Proof. unfold preempt_gate, preempt_requested, service_preempt. frame_tac. Qed.

Lemma frame_wait_until_ready name script :
  preserves frame (wait_until_ready name script).
Proof.
  induction script as [|p script IH]; simpl; unfold service_preempt;
    frame_tac.
Qed.
#[local] Hint Resolve frame_preempt_gate frame_wait_until_ready : frame.

Lemma frame_connect_to_service script :
  preserves frame (connect_to_service script).
Proof. unfold connect_to_service. frame_tac. Qed.

Lemma frame_grab_request_key : preserves frame grab_request_key.
Proof. unfold grab_request_key. frame_tac. Qed.

Lemma frame_setattr o name v : preserves frame (setattr o name v).
Proof. unfold setattr. frame_tac. Qed.

Lemma frame_getattr o name : preserves frame (getattr o name).
Proof. unfold getattr. frame_tac. Qed.
#[local] Hint Resolve frame_connect_to_service frame_grab_request_key
  frame_setattr frame_getattr : frame.

Lemma frame_write_request_slots slots :
  preserves frame (write_request_slots slots).
Proof. induction slots as [|key slots IH]; simpl; frame_tac. Qed.

Lemma frame_call_request_cb : preserves frame call_request_cb.
Proof. unfold call_request_cb. frame_tac. Qed.
#[local] Hint Resolve frame_write_request_slots frame_call_request_cb : frame.

Lemma frame_build_request : preserves frame build_request.
Proof. unfold build_request. frame_tac. Qed.

Lemma frame_check_request : preserves frame check_request.
Proof. unfold check_request. frame_tac. Qed.
#[local] Hint Resolve frame_build_request frame_check_request : frame.

Lemma frame_prepare e : preserves frame (prepare e).
Proof. unfold prepare. frame_tac. Qed.

Lemma frame_call_service sub : preserves frame (call_service sub).
Proof.
  unfold call_service, submit_call, register, wait, except_TypeError,
    deliver, _done_cb, store_result, notify. frame_tac.
Qed.
#[local] Hint Resolve frame_prepare frame_call_service : frame.

Lemma frame_dispatch e : preserves frame (dispatch e).
Proof. unfold dispatch. frame_tac. Qed.

Lemma frame_call_response_cb : preserves frame call_response_cb.
Proof. unfold call_response_cb, except_all. frame_tac. Qed.

Lemma frame_write_response_key : preserves frame write_response_key.
Proof. unfold write_response_key. frame_tac. Qed.
#[local] Hint Resolve frame_dispatch frame_call_response_cb
  frame_write_response_key : frame.

Lemma frame_write_response_slots slots :
  preserves frame (write_response_slots slots).
Proof. induction slots as [|key slots IH]; simpl; frame_tac. Qed.
#[local] Hint Resolve frame_write_response_slots : frame.

Lemma frame_handle_response : preserves frame handle_response.
Proof. unfold handle_response, resolve. frame_tac. Qed.
#[local] Hint Resolve frame_handle_response : frame.

Lemma frame_execute e : preserves frame (execute e).
Proof. unfold execute. frame_tac. Qed.

(** ** Statements that issue no remote call *)

Lemma dispatch_events_app l1 l2 :
  dispatch_events (l1 ++ l2) = (dispatch_events l1 ++ dispatch_events l2)%list.
Proof. apply List.filter_app. Qed.

Lemma dispatch_events_nil_not_elem l ev :
  dispatch_events l = [] → is_dispatch_event ev = true → ev ∉ l.
Proof.
  intros Hl Hev Hin. apply list_elem_of_In in Hin.
  assert (In ev (dispatch_events l)) as Hc
    by (apply List.filter_In; by split).
  rewrite Hl in Hc. destruct Hc.
Qed.

Lemma dispatch_events_nil_calls l : dispatch_events l = [] → calls l = [].
Proof.
  induction l as [|ev l IH]; [done|]. unfold dispatch_events, calls. simpl.
  destruct ev; simpl; try discriminate; exact IH.
Qed.

Lemma quiet_refl w : quiet w w.
Proof. exists []. split; [by rewrite app_nil_r | reflexivity]. Qed.

Lemma quiet_trans a b c : quiet a b → quiet b c → quiet a c.
Proof.
  intros (e1 & H1 & C1) (e2 & H2 & C2). exists (e1 ++ e2)%list. split.
  - rewrite H2, H1. by rewrite app_assoc.
  - rewrite dispatch_events_app, C1, C2. reflexivity.
Qed.

Create HintDb quiet discriminated.

Ltac quiet_modify :=
  try match goal with
      | |- quiet ?w (with_event ?ev ?w) =>
          exists [ev]; split; reflexivity
      | |- quiet ?w _ =>
          exists []; destruct w; split; [simpl; by rewrite app_nil_r | reflexivity]
      end.

Ltac quiet_tac :=
  preserve quiet_refl quiet_trans; quiet_modify; eauto with quiet.

Lemma quiet_preempt_gate : preserves quiet preempt_gate.
Proof. unfold preempt_gate, preempt_requested, service_preempt. quiet_tac. Qed.

Lemma quiet_wait_until_ready name script :
  preserves quiet (wait_until_ready name script).
Proof.
  induction script as [|p script IH]; simpl; unfold service_preempt;
    quiet_tac.
Qed.
#[local] Hint Resolve quiet_preempt_gate quiet_wait_until_ready : quiet.

Lemma quiet_connect_to_service script :
  preserves quiet (connect_to_service script).
Proof. unfold connect_to_service. quiet_tac. Qed.

Lemma quiet_grab_request_key : preserves quiet grab_request_key.
Proof. unfold grab_request_key. quiet_tac. Qed.

Lemma quiet_setattr o name v : preserves quiet (setattr o name v).
Proof. unfold setattr. quiet_tac. Qed.

Lemma quiet_getattr o name : preserves quiet (getattr o name).
Proof. unfold getattr. quiet_tac. Qed.
#[local] Hint Resolve quiet_connect_to_service quiet_grab_request_key
  quiet_setattr quiet_getattr : quiet.

Lemma quiet_write_request_slots slots :
  preserves quiet (write_request_slots slots).
Proof. induction slots as [|key slots IH]; simpl; quiet_tac. Qed.

Lemma quiet_call_request_cb : preserves quiet call_request_cb.
Proof. unfold call_request_cb. quiet_tac. Qed.
#[local] Hint Resolve quiet_write_request_slots quiet_call_request_cb : quiet.

Lemma quiet_build_request : preserves quiet build_request.
Proof. unfold build_request. quiet_tac. Qed.

Lemma quiet_check_request : preserves quiet check_request.
Proof. unfold check_request. quiet_tac. Qed.
#[local] Hint Resolve quiet_build_request quiet_check_request : quiet.

Lemma quiet_prepare e : preserves quiet (prepare e).
Proof. unfold prepare. quiet_tac. Qed.

Lemma quiet_call_response_cb : preserves quiet call_response_cb.
Proof. unfold call_response_cb, except_all. quiet_tac. Qed.

Lemma quiet_write_response_key : preserves quiet write_response_key.
Proof. unfold write_response_key. quiet_tac. Qed.
#[local] Hint Resolve quiet_call_response_cb quiet_write_response_key : quiet.

Lemma quiet_write_response_slots slots :
  preserves quiet (write_response_slots slots).
Proof. induction slots as [|key slots IH]; simpl; quiet_tac. Qed.
#[local] Hint Resolve quiet_write_response_slots : quiet.

Lemma quiet_handle_response : preserves quiet handle_response.
Proof. unfold handle_response, resolve. quiet_tac. Qed.

(** ** Statements that leave the stored request alone *)

Lemma keeps_request_refl w : keeps_request w w.
Proof. reflexivity. Qed.

Lemma keeps_request_trans a b c :
  keeps_request a b → keeps_request b c → keeps_request a c.
Proof. unfold keeps_request. congruence. Qed.

Create HintDb keeps discriminated.

Ltac keeps_tac :=
  preserve keeps_request_refl keeps_request_trans;
  try match goal with
      | |- keeps_request ?w _ => destruct w; reflexivity
      end;
  eauto with keeps.

Lemma keeps_getattr o name : preserves keeps_request (getattr o name).
Proof. unfold getattr. keeps_tac. Qed.

Lemma keeps_call_response_cb : preserves keeps_request call_response_cb.
Proof. unfold call_response_cb, except_all. keeps_tac. Qed.

Lemma keeps_write_response_key : preserves keeps_request write_response_key.
Proof. unfold write_response_key. keeps_tac. Qed.
#[local] Hint Resolve keeps_getattr keeps_call_response_cb
  keeps_write_response_key : keeps.

Lemma keeps_write_response_slots slots :
  preserves keeps_request (write_response_slots slots).
Proof. induction slots as [|key slots IH]; simpl; keeps_tac. Qed.
#[local] Hint Resolve keeps_write_response_slots : keeps.

Lemma keeps_handle_response : preserves keeps_request handle_response.
Proof. unfold handle_response, resolve. keeps_tac. Qed.

(** ** Running [execute] *)

Lemma elem_of_snoc {A} (l : list A) (x : A) : x ∈ (l ++ [x])%list.
Proof. apply elem_of_app. right. apply elem_of_cons. by left. Qed.

Ltac munfold :=
  unfold bind, ret, stop, get, modify, emit, log, aborted, preempted in *;
  simpl in *.

Lemma execute_prepare e w :
  execute e w =
  match prepare e w with
  | (Next _, w1) => (call_service (submission e);; handle_response) w1
  | (Stop r, w1) => (Stop r, w1)
  end.
Proof.
  unfold execute, prepare, bind.
  destruct (preempt_gate w) as [[[]|r] w1]; [|reflexivity].
  destruct (connect_to_service (readiness e) w1) as [[[]|r] w2]; [|reflexivity].
  destruct (build_request w2) as [[[]|r] w3]; [|reflexivity].
  destruct (check_request w3) as [[[]|r] w4]; reflexivity.
Qed.

Lemma execute_dispatch e w :
  execute e w =
  match dispatch e w with
  | (Next _, w1) => handle_response w1
  | (Stop r, w1) => (Stop r, w1)
  end.
Proof.
  rewrite execute_prepare. unfold dispatch, bind.
  destruct (prepare e w) as [[[]|r] w1]; [|reflexivity].
  destruct (call_service (submission e) w1) as [[[]|r] w2]; reflexivity.
Qed.

Lemma quiet_fresh_log w w' : quiet (fresh_log w) w' → calls (w_log w') = [].
Proof. intros (evs & -> & Hc). by apply dispatch_events_nil_calls. Qed.

(** ** Preemption before dispatch *)

Lemma preempt_gate_set w :
  _preempt_requested (w_self w) = true →
  preempt_gate w =
  (Stop (Return "preempted"),
   with_self (set_preempt_requested false)
     (with_event ServicePreempt
        (with_event
           (Log Info (PreemptingBeforeRequest (_service_name (w_self w))))
           w))).
Proof.
  intros H. unfold preempt_gate, preempt_requested, service_preempt.
  munfold. rewrite H. reflexivity.
Qed.

Lemma preempt_gate_clear w :
  _preempt_requested (w_self w) = false → preempt_gate w = (Next tt, w).
Proof.
  intros H. unfold preempt_gate, preempt_requested. munfold.
  rewrite H. reflexivity.
Qed.

Lemma wait_until_ready_preempted name script w :
  preempt_while_waiting script = true →
  ∃ w', wait_until_ready name script w = (Stop (Return "preempted"), w') ∧
        _preempt_requested (w_self w') = false ∧
        ServicePreempt ∈ w_log w'.
Proof.
  revert w. induction script as [|p script IH]; intros w H; [discriminate|].
  destruct p as [| |preempt ok wait]; try discriminate.
  destruct preempt.
  - simpl. unfold service_preempt. munfold. eexists. split; [reflexivity|].
    simpl. split; [reflexivity|]. set_solver.
  - destruct ok; [|discriminate]. destruct wait as [b|]; [|discriminate].
    simpl in H.
    destruct (IH (with_event
                    (Log (if b then Debug else Warn)
                       (if b then ConnectedToService name
                        else StillWaitingForService name))
                    (with_event WaitForService
                       (with_event ServiceIsReady w))) H)
      as (w' & Hrun & Hflag & Hack).
    exists w'. split; [|by split].
    simpl. munfold. destruct b; exact Hrun.
Qed.

Lemma prepare_preempted e w :
  preemption_seen w e = true →
  ∃ w', prepare e w = (Stop (Return "preempted"), w') ∧
        _preempt_requested (w_self w') = false ∧
        ServicePreempt ∈ w_log w' ∧
        (_preempt_requested (w_self w) = true →
         w_log w' =
         (w_log w ++
          [Log Info (PreemptingBeforeRequest (_service_name (w_self w)));
           ServicePreempt])%list).
Proof.
  unfold preemption_seen. intros H.
  destruct (_preempt_requested (w_self w)) eqn:Hflag.
  - eexists. unfold prepare, bind. rewrite (preempt_gate_set w Hflag).
    split; [reflexivity|]. simpl. split; [reflexivity|].
    split; [set_solver|]. intros _. by rewrite <- app_assoc.
  - simpl in H.
    destruct (wait_until_ready_preempted (_service_name (w_self w))
                (readiness e) w H) as (w' & Hrun & Hclear & Hack).
    exists w'. unfold prepare, bind. rewrite (preempt_gate_clear w Hflag).
    unfold connect_to_service, bind, get. rewrite Hrun.
    split; [reflexivity|]. split; [exact Hclear|]. split; [exact Hack|].
    intros Habs. discriminate.
Qed.

(** *** Once the service is ready the flag is not looked at *)

Lemma ignores_bind {A B} (m : M A) (k : A → M B) :
  ignores_preemption m → (∀ a, ignores_preemption (k a)) →
  ignores_preemption (bind m k).
Proof.
  intros Hm Hk flag w. unfold bind. rewrite Hm.
  destruct (m w) as [[a|r] w1]; simpl; [apply Hk | reflexivity].
Qed.

Ltac ignores_tac :=
  intros flag [[] ud h c lg]; munfold; repeat case_match; simplify_eq;
  try reflexivity.

Lemma ignores_grab_request_key : ignores_preemption grab_request_key.
Proof. unfold grab_request_key. ignores_tac. Qed.

Lemma ignores_setattr o name v : ignores_preemption (setattr o name v).
Proof. unfold setattr. ignores_tac. Qed.

Lemma bind_get {A} (k : world → M A) (w : world) : bind get k w = k w w.
Proof. reflexivity. Qed.

Lemma ignores_stop {A} (r : result) : ignores_preemption (@stop A r).
Proof. intros flag w. reflexivity. Qed.

Lemma ignores_ret {A} (a : A) : ignores_preemption (ret a).
Proof. intros flag w. reflexivity. Qed.

Lemma ignores_emit ev : ignores_preemption (emit ev).
Proof. by intros flag [[] ud h c lg]. Qed.

Lemma ignores_write_request_slots slots :
  ignores_preemption (write_request_slots slots).
Proof.
  induction slots as [|key slots IH]; [apply ignores_ret|].
  intros flag w. simpl. rewrite !bind_get.
  replace (w_ud (with_self (set_preempt_requested flag) w)) with (w_ud w)
    by (by destruct w).
  replace (_request (w_self (with_self (set_preempt_requested flag) w)))
    with (_request (w_self w)) by (by destruct w as [[] ? ? ? ?]).
  destruct (w_ud w !! key) as [v|].
  - apply (ignores_bind (setattr (_request (w_self w)) key v)
             (λ _, write_request_slots slots));
      [apply ignores_setattr | intros _; apply IH].
  - apply (ignores_bind (log Error _) (λ _, aborted));
      [apply ignores_emit | intros _; apply ignores_stop].
Qed.

Lemma ignores_call_request_cb : ignores_preemption call_request_cb.
Proof. unfold call_request_cb. ignores_tac. Qed.

Lemma ignores_check_request : ignores_preemption check_request.
Proof. unfold check_request. ignores_tac. Qed.

Lemma ignores_call_service sub : ignores_preemption (call_service sub).
Proof.
  unfold call_service, submit_call, register, wait, except_TypeError,
    deliver, _done_cb, store_result, notify.
  destruct sub; ignores_tac.
Qed.

Lemma ignores_call_response_cb : ignores_preemption call_response_cb.
Proof. unfold call_response_cb, except_all. ignores_tac. Qed.

Lemma ignores_write_response_key : ignores_preemption write_response_key.
Proof. unfold write_response_key. ignores_tac. Qed.

Lemma ignores_getattr o name : ignores_preemption (getattr o name).
Proof. unfold getattr. ignores_tac. Qed.

Lemma ignores_write_response_slots slots :
  ignores_preemption (write_response_slots slots).
Proof.
  induction slots as [|key slots IH]; [apply ignores_ret|].
  intros flag w. simpl. rewrite !bind_get.
  replace (_response (w_self (with_self (set_preempt_requested flag) w)))
    with (_response (w_self w)) by (by destruct w as [[] ? ? ? ?]).
  destruct (_response (w_self w)) as [response|]; [|apply ignores_stop].
  apply (ignores_bind (getattr response key)); [apply ignores_getattr|].
  intros v flag' w'. rewrite !bind_get.
  apply (ignores_bind (modify _) (λ _, write_response_slots slots));
    [|intros _; apply IH].
  by intros ? [[] ? ? ? ?].
Qed.

Lemma ignores_build_request : ignores_preemption build_request.
Proof.
  unfold build_request.
  apply ignores_bind; [apply ignores_grab_request_key | intros _].
  apply ignores_bind; [|intros _; apply ignores_call_request_cb].
  intros flag w. rewrite !bind_get.
  replace (_request_slots (w_self (with_self (set_preempt_requested flag) w)))
    with (_request_slots (w_self w)) by (by destruct w as [[] ? ? ? ?]).
  apply ignores_write_request_slots.
Qed.

Lemma ignores_handle_response : ignores_preemption handle_response.
Proof.
  unfold handle_response.
  apply ignores_bind; [apply ignores_call_response_cb | intros o].
  apply ignores_bind; [apply ignores_write_response_key | intros _].
  apply ignores_bind; [|intros _; unfold resolve; destruct o; apply ignores_ret].
  intros flag w. rewrite !bind_get.
  replace (_response_slots (w_self (with_self (set_preempt_requested flag) w)))
    with (_response_slots (w_self w)) by (by destruct w as [[] ? ? ? ?]).
  apply ignores_write_response_slots.
Qed.

Lemma ignores_once_ready e : ignores_preemption (once_ready e).
Proof.
  unfold once_ready.
  apply ignores_bind; [apply ignores_build_request | intros _].
  apply ignores_bind; [apply ignores_check_request | intros _].
  apply ignores_bind; [apply ignores_call_service | intros _].
  apply ignores_handle_response.
Qed.

(** C4, as the code has it.  [execute] looks for a preemption request at
    two places, on entry and in each turn of the readiness loop.  A
    request seen there is acknowledged, [execute] returns 'preempted' and
    issues no remote call; seen on entry, the client is not contacted at
    all.  From the moment the service is ready, [execute] neither reads
    nor clears the request: what it does is the same with and without
    one. *)
Theorem preemption_seen_means_preempted (e : env) (w : world) :
  (preemption_seen w e = true →
   (invoke e w).1 = Return "preempted" ∧
   _preempt_requested (w_self (invoke e w).2) = false ∧
   ServicePreempt ∈ w_log (invoke e w).2 ∧
   calls (w_log (invoke e w).2) = [] ∧
   (_preempt_requested (w_self w) = true →
    contacts (w_log (invoke e w).2) = [])) ∧
  execute e =
  (preempt_gate;; connect_to_service (readiness e);; once_ready e) ∧
  (∀ flag w1,
     once_ready e (with_self (set_preempt_requested flag) w1) =
     ((once_ready e w1).1,
      with_self (set_preempt_requested flag) (once_ready e w1).2)).
Proof.
  split; [|split; [reflexivity | intros flag w1; apply ignores_once_ready]].
  intros H.
  destruct (prepare_preempted e (fresh_log w) H) as (w' & Hrun & Hc & Ha & Hl).
  pose proof (quiet_prepare e (fresh_log w)) as Hq.
  unfold invoke. fold (fresh_log w).
  rewrite execute_prepare, Hrun. rewrite Hrun in Hq. simpl in *.
  repeat split; try done.
  - by apply quiet_fresh_log in Hq.
  - intros Hflag. rewrite (Hl Hflag). reflexivity.
Qed.

(** ** Missing request sources *)

Lemma wait_until_ready_ready name script w :
  becomes_ready script = true →
  ∃ w', wait_until_ready name script w = (Next tt, w') ∧
        w_self w' = w_self w ∧ w_ud w' = w_ud w ∧ w_heap w' = w_heap w.
Proof.
  revert w. induction script as [|p script IH]; intros w H; [discriminate|].
  destruct p as [| |preempt ok wait]; try discriminate.
  - simpl. munfold. eexists. split; [reflexivity|]. by destruct w.
  - destruct preempt; [discriminate|]. destruct ok; [|discriminate].
    destruct wait as [b|]; [|discriminate]. simpl in H.
    destruct (IH (with_event
                    (Log (if b then Debug else Warn)
                       (if b then ConnectedToService name
                        else StillWaitingForService name))
                    (with_event WaitForService
                       (with_event ServiceIsReady w))) H)
      as (w' & Hrun & Hs & Hu & Hh).
    exists w'. split; [|by destruct w].
    simpl. munfold. destruct b; exact Hrun.
Qed.

(** An invocation that is not preempted and finds the service ready
    reaches request construction with the state, the userdata and the
    heap it was entered with. *)
Lemma reaches_build_request e w :
  _preempt_requested (w_self w) = false →
  becomes_ready (readiness e) = true →
  ∃ w', (preempt_gate;; connect_to_service (readiness e)) w = (Next tt, w') ∧
        w_self w' = w_self w ∧ w_ud w' = w_ud w ∧ w_heap w' = w_heap w.
Proof.
  intros Hflag Hready. unfold bind. rewrite (preempt_gate_clear w Hflag).
  unfold connect_to_service, bind, get.
  apply wait_until_ready_ready, Hready.
Qed.

Lemma grab_request_key_missing w key :
  _request_key (w_self w) = Some key →
  w_ud w !! key = None →
  grab_request_key w =
  (Stop (Return "aborted"),
   with_event (Log Error (RequestKeyNotInUserdata key (keys (w_ud w)))) w).
Proof.
  intros Hk Hud. unfold grab_request_key. munfold. rewrite Hk, Hud.
  reflexivity.
Qed.

Lemma grab_request_key_base w base :
  request_base w = Some base →
  grab_request_key w = (Next tt, with_self (set_request base) w).
Proof.
  unfold request_base, grab_request_key. munfold.
  destruct (_request_key (w_self w)) as [key|].
  - intros ->. reflexivity.
  - intros [= <-]. by destruct w as [[] ? ? ? ?].
Qed.

Lemma grab_request_key_stops w r w' :
  grab_request_key w = (Stop r, w') → r = Return "aborted".
Proof.
  unfold grab_request_key. munfold.
  destruct (_request_key (w_self w)) as [key|]; [|discriminate].
  destruct (w_ud w !! key); [discriminate|]. by intros [= <- _].
Qed.

Lemma takes_insert target ud slots k v :
  takes target ud slots → takes (<[k := v]> target) ud slots.
Proof. intros H key v' Hin Hud. by apply (H key v'). Qed.

Lemma takes_cons target ud k slots :
  takes target ud (k :: slots) →
  (∀ v, ud !! k = Some v → refuses target k v = None) ∧ takes target ud slots.
Proof.
  intros H. split.
  - intros v Hv. apply (H k v); [apply elem_of_cons; by left | exact Hv].
  - intros key v Hin Hv. apply (H key v); [apply elem_of_cons; by right | done].
Qed.

Lemma write_request_slots_absent slots w l target missing :
  _request (w_self w) = VRef l →
  w_heap w !! l = Some target →
  first_absent (w_ud w) slots = Some missing →
  takes target (w_ud w) (copied_first (w_ud w) slots) →
  ∃ w', write_request_slots slots w = (Stop (Return "aborted"), w') ∧
        Log Error (RequestSlotNotInUserdata missing (keys (w_ud w)))
          ∈ w_log w'.
Proof.
  revert w target.
  induction slots as [|k slots IH]; intros w target Hreq Hobj Habs Htakes;
    [discriminate|].
  simpl in *. rewrite bind_get.
  destruct (w_ud w !! k) as [v|] eqn:Hk.
  - apply takes_cons in Htakes as [Hv Htakes].
    unfold setattr. munfold. rewrite Hreq, Hobj, (Hv v Hk).
    destruct (IH (with_heap (<[l:=<[k:=v]> target]> (w_heap w)) w)
                (<[k:=v]> target) Hreq ltac:(apply lookup_insert_eq) Habs
                (takes_insert _ _ _ k v Htakes)) as (w' & Hrun & Hlog).
    by exists w'.
  - injection Habs as <-. munfold. eexists. split; [reflexivity|].
    simpl. apply elem_of_snoc.
Qed.

Lemma write_request_slots_never_next slots w missing :
  first_absent (w_ud w) slots = Some missing →
  ∃ r w', write_request_slots slots w = (Stop r, w') ∧
          (r = Return "aborted" ∨ ∃ ex, r = Raise ex).
Proof.
  revert w. induction slots as [|k slots IH]; intros w Habs; [discriminate|].
  simpl in *. rewrite bind_get.
  destruct (w_ud w !! k) as [v|] eqn:Hk.
  - unfold setattr. munfold.
    destruct (_request (w_self w)) as [| | |l]; try (by eauto 6).
    destruct (w_heap w !! l) as [target|]; [|by eauto 6].
    destruct (refuses target k v) as [ex|]; [by eauto 6|]. simpl.
    apply (IH (with_heap (<[l:=<[k:=v]> target]> (w_heap w)) w) Habs).
  - munfold. eauto 6.
Qed.


(** ** Exceptions during call submission *)

Lemma call_service_raises sub ex w :
  sub = CallRaises ex ∨ sub = RegisterRaises ex →
  (call_service sub w).1 =
  Stop (if decide (ex = TypeError) then Return "aborted" else Raise ex).
Proof.
  intros [-> | ->]; unfold call_service, except_TypeError; munfold;
    destruct (decide (ex = TypeError)); reflexivity.
Qed.

Lemma invoke_prepared e w w1 :
  prepare e (fresh_log w) = (Next tt, w1) →
  invoke e w =
  finish ((call_service (submission e);; handle_response) w1) Return.
Proof.
  intros H. unfold invoke. fold (fresh_log w).
  by rewrite execute_prepare, H.
Qed.

Lemma invoke_dispatched e w w1 :
  dispatch e (fresh_log w) = (Next tt, w1) →
  invoke e w = finish (handle_response w1) Return.
Proof.
  intros H. unfold invoke. fold (fresh_log w).
  by rewrite execute_dispatch, H.
Qed.

(** C2, as the code has it.  When an invocation reaches call submission
    and [call_async] or [add_done_callback] raises, a [TypeError] is
    caught and [execute] returns 'aborted'; any other exception leaves
    [execute]. *)
Theorem submission_exception (e : env) (w w1 : world) (ex : exn) :
  prepare e (fresh_log w) = (Next tt, w1) →
  submission e = CallRaises ex ∨ submission e = RegisterRaises ex →
  (invoke e w).1 =
  if decide (ex = TypeError) then Return "aborted" else Raise ex.
Proof.
  intros Hprep Hsub. rewrite (invoke_prepared e w w1 Hprep).
  pose proof (call_service_raises (submission e) ex w1 Hsub) as Hcall.
  unfold bind. destruct (call_service (submission e) w1) as [[[]|r] w2];
    simpl in *; [discriminate|].
  by injection Hcall as ->.
Qed.

(** ** The label of the response callback *)

Lemma call_response_cb_unregistered w cb response label ud h :
  _response_cb (w_self w) = Some cb →
  _response (w_self w) = Some response →
  cb (w_ud w) (w_heap w) response = CbReturn label ud h →
  label ≠ VNone →
  (∀ s, label = VStr s → s ∉ _outcomes (w_self w)) →
  ∃ w', call_response_cb w = (Stop (Return "aborted"), w') ∧
        Log Error (OutcomeNotRegistered (_service_name (w_self w)) label
                     (elements (_outcomes (w_self w)))) ∈ w_log w'.
Proof.
  intros Hcb Hresp Hret Hnone Hout.
  unfold call_response_cb. munfold. rewrite Hcb, Hresp, Hret.
  destruct label as [|s|z|l]; [done| | |];
    try (eexists; split; [reflexivity | apply elem_of_snoc]).
  destruct (decide (s ∈ _outcomes (w_self w))) as [Hin|Hin].
  - by destruct (Hout s eq_refl).
  - eexists; split; [reflexivity | apply elem_of_snoc].
Qed.

(** C6.  When the call has completed and the response callback returns a
    label that is not in the registered outcome set, [execute] logs the
    error and returns 'aborted', not the label. *)
Theorem unregistered_outcome_aborts (e : env) (w w1 : world)
    (cb : callback) (response label : value) (ud : userdata) (h : heap) :
  "aborted" ∈ _outcomes (w_self w) →
  dispatch e (fresh_log w) = (Next tt, w1) →
  _response_cb (w_self w) = Some cb →
  _response (w_self w1) = Some response →
  cb (w_ud w1) (w_heap w1) response = CbReturn label ud h →
  label ≠ VNone →
  (∀ s, label = VStr s → s ∉ _outcomes (w_self w)) →
  (invoke e w).1 = Return "aborted" ∧
  (∀ s, label = VStr s → (invoke e w).1 ≠ Return s) ∧
  Log Error (OutcomeNotRegistered (_service_name (w_self w)) label
               (elements (_outcomes (w_self w)))) ∈ w_log (invoke e w).2.
Proof.
  intros Hbase Hdisp Hcb Hresp Hret Hnone Hout.
  pose proof (frame_dispatch e (fresh_log w)) as [Hcfg _].
  rewrite Hdisp in Hcfg. simpl in Hcfg.
  destruct Hcfg as (Hname & _ & _ & _ & Hrcb & _ & _ & Houtc & _).
  destruct (call_response_cb_unregistered w1 cb response label ud h)
    as (w' & Hrun & Hlog); try done; try congruence.
  { intros s Hs. rewrite Houtc. by apply Hout. }
  rewrite (invoke_dispatched e w w1 Hdisp).
  unfold handle_response, bind. rewrite Hrun. simpl.
  rewrite Hname, Houtc in Hlog.
  split; [reflexivity|]. split; [|exact Hlog].
  intros s -> [= <-]. by apply (Hout "aborted").
Qed.

(** ** Response slots *)

Lemma write_response_slots_missing slots w l attrs key :
  _response (w_self w) = Some (VRef l) →
  w_heap w !! l = Some attrs →
  key ∈ slots →
  attrs !! key = None →
  (write_response_slots slots w).1 = Stop (Raise AttributeError).
Proof.
  revert w. induction slots as [|k slots IH]; intros w Hresp Hobj Hin Hkey.
  - by apply elem_of_nil in Hin.
  - simpl. unfold getattr. munfold. rewrite Hresp, Hobj.
    destruct (attrs !! k) as [v|] eqn:Hk; [|reflexivity].
    apply IH; simpl; try done.
    apply elem_of_cons in Hin as [->|Hin]; [congruence | exact Hin].
Qed.

Lemma write_response_key_next w response :
  _response (w_self w) = Some response →
  ∃ w', write_response_key w = (Next tt, w') ∧
        w_self w' = w_self w ∧ w_heap w' = w_heap w.
Proof.
  intros Hresp. unfold write_response_key. munfold. rewrite Hresp.
  destruct (_response_key (w_self w)); eexists; (split; [reflexivity|done]).
Qed.

(** C10, as the code has it.  When the call has completed and the
    response callback, if any, has handed over (it returned None or a
    registered label), a declared response slot that the response object
    has no attribute for makes [execute] raise [AttributeError] from the
    slot copy: no outcome label is returned. *)
Theorem missing_response_slot_raises (e : env) (w w1 w2 : world)
    (o : option string) (l : loc) (attrs : obj) (key : string) :
  dispatch e (fresh_log w) = (Next tt, w1) →
  call_response_cb w1 = (Next o, w2) →
  _response (w_self w2) = Some (VRef l) →
  w_heap w2 !! l = Some attrs →
  key ∈ _response_slots (w_self w) →
  attrs !! key = None →
  (invoke e w).1 = Raise AttributeError ∧
  ∀ label, (invoke e w).1 ≠ Return label.
Proof.
  intros Hdisp Hcb Hresp Hobj Hin Hkey.
  pose proof (frame_dispatch e (fresh_log w)) as [Hcfg1 _].
  pose proof (frame_call_response_cb w1) as [Hcfg2 _].
  rewrite Hdisp in Hcfg1. rewrite Hcb in Hcfg2. simpl in Hcfg1, Hcfg2.
  destruct Hcfg1 as (_ & _ & _ & _ & _ & _ & Hs1 & _).
  destruct Hcfg2 as (_ & _ & _ & _ & _ & _ & Hs2 & _).
  destruct (write_response_key_next w2 (VRef l) Hresp)
    as (w3 & Hkeyrun & Hself & Hheap).
  assert ((invoke e w).1 = Raise AttributeError) as Hraise.
  { rewrite (invoke_dispatched e w w1 Hdisp).
    unfold handle_response, bind. rewrite Hcb, Hkeyrun. unfold get.
    pose proof (write_response_slots_missing
                  (_response_slots (w_self w3)) w3 l attrs key) as Hslots.
    rewrite Hself, Hheap in Hslots.
    specialize (Hslots Hresp Hobj).
    rewrite Hs2, Hs1 in Hslots. specialize (Hslots Hin Hkey).
    rewrite Hself, Hs2, Hs1.
    destruct (write_response_slots (_response_slots (w_self w)) w3)
      as [[[]|r] w4]; simpl in *; [discriminate|].
    by injection Hslots as ->. }
  split; [exact Hraise|]. intros label. rewrite Hraise. discriminate.
Qed.

(** ** The log of one invocation *)

Ltac elem_cases H :=
  simpl in H;
  repeat (apply elem_of_cons in H as [H|H]);
  try (apply elem_of_nil in H; destruct H);
  try discriminate H.

Lemma call_service_log sub w :
  ∃ evs,
    w_log (call_service sub w).2 = (w_log w ++ evs)%list ∧
    (∀ c, CondWait c ∈ evs → c = _done_cond (w_self w)) ∧
    (∀ r p, CallAsync r p ∈ evs → r = _request (w_self w)) ∧
    _request (w_self (call_service sub w).2) = _request (w_self w).
Proof.
  unfold call_service, submit_call, register, wait, except_TypeError,
    deliver, _done_cb, store_result, notify. munfold.
  destruct sub as [ex|ex|fields|fields|]; try destruct (decide (ex = TypeError));
    simpl; rewrite <- ?app_assoc; eexists;
    (split; [reflexivity|]);
    (split; [intros c Hc; elem_cases Hc; by injection Hc as ->|]);
    (split; [intros r p Hc; elem_cases Hc; by injection Hc as -> _|]);
    reflexivity.
Qed.

Lemma no_wait evs c : dispatch_events evs = [] → CondWait c ∉ evs.
Proof. intros H. by apply dispatch_events_nil_not_elem. Qed.

Lemma no_call evs r p : dispatch_events evs = [] → CallAsync r p ∉ evs.
Proof. intros H. by apply dispatch_events_nil_not_elem. Qed.

Lemma execute_log e w :
  ∃ evs,
    w_log (execute e w).2 = (w_log w ++ evs)%list ∧
    (∀ c, CondWait c ∈ evs → c = _done_cond (w_self w)) ∧
    (∀ r p, CallAsync r p ∈ evs → _request (w_self (execute e w).2) = r).
Proof.
  rewrite execute_prepare.
  destruct (quiet_prepare e w) as (evs1 & Hlog1 & Hq1).
  pose proof (frame_prepare e w) as [Hcfg1 _].
  destruct (prepare e w) as [[[]|r1] w1]; simpl in *.
  2:{ exists evs1. split; [exact Hlog1|]. split.
      - intros c Hc. by destruct (no_wait _ _ Hq1 Hc).
      - intros r p Hc. by destruct (no_call _ _ _ Hq1 Hc). }
  destruct (call_service_log (submission e) w1)
    as (evs2 & Hlog2 & Hwait2 & Hcall2 & Hreq2).
  unfold bind.
  destruct (call_service (submission e) w1) as [[[]|r2] w2]; simpl in *.
  - destruct (quiet_handle_response w2) as (evs3 & Hlog3 & Hq3).
    pose proof (keeps_handle_response w2) as Hreq3. unfold keeps_request in Hreq3.
    exists (evs1 ++ evs2 ++ evs3)%list.
    split; [by rewrite Hlog3, Hlog2, Hlog1, <- !app_assoc|].
    split.
    + intros c Hc. apply elem_of_app in Hc as [Hc|Hc];
        [by destruct (no_wait _ _ Hq1 Hc)|].
      apply elem_of_app in Hc as [Hc|Hc];
        [|by destruct (no_wait _ _ Hq3 Hc)].
      rewrite (Hwait2 c Hc). by destruct Hcfg1 as (_&_&_&_&_&_&_&_&->).
    + intros r p Hc. apply elem_of_app in Hc as [Hc|Hc];
        [by destruct (no_call _ _ _ Hq1 Hc)|].
      apply elem_of_app in Hc as [Hc|Hc];
        [|by destruct (no_call _ _ _ Hq3 Hc)].
      rewrite Hreq3, Hreq2. symmetry. by eapply Hcall2.
  - exists (evs1 ++ evs2)%list.
    split; [by rewrite Hlog2, Hlog1, <- !app_assoc|].
    split.
    + intros c Hc. apply elem_of_app in Hc as [Hc|Hc];
        [by destruct (no_wait _ _ Hq1 Hc)|].
      rewrite (Hwait2 c Hc). by destruct Hcfg1 as (_&_&_&_&_&_&_&_&->).
    + intros r p Hc. apply elem_of_app in Hc as [Hc|Hc];
        [by destruct (no_call _ _ _ Hq1 Hc)|].
      rewrite Hreq2. symmetry. by eapply Hcall2.
Qed.

Lemma invoke_world e w : (invoke e w).2 = (execute e (fresh_log w)).2.
Proof.
  unfold invoke. fold (fresh_log w).
  by destruct (execute e (fresh_log w)) as [[?|?] ?].
Qed.

(** ** The condition variable *)

Lemma init_builds_one_condition a h n :
  (__init__ a h n).2 = S n ∧ _done_cond (__init__ a h n).1.1 = n.
Proof. unfold __init__. by destruct (request a). Qed.

Lemma keeps_response_refl w : keeps_response w w.
Proof. reflexivity. Qed.

Lemma keeps_response_trans a b c :
  keeps_response a b → keeps_response b c → keeps_response a c.
Proof. unfold keeps_response. congruence. Qed.

Create HintDb response discriminated.

Ltac response_tac :=
  preserve keeps_response_refl keeps_response_trans;
  try match goal with
      | |- keeps_response ?w _ => destruct w as [[] ? ? ? ?]; reflexivity
      end;
  eauto with response.

Lemma response_preempt_gate : preserves keeps_response preempt_gate.
Proof.
  unfold preempt_gate, preempt_requested, service_preempt. response_tac.
Qed.

Lemma response_wait_until_ready name script :
  preserves keeps_response (wait_until_ready name script).
Proof.
  induction script as [|p script IH]; simpl; unfold service_preempt;
    response_tac.
Qed.
#[local] Hint Resolve response_preempt_gate response_wait_until_ready
  : response.

Lemma response_connect_to_service script :
  preserves keeps_response (connect_to_service script).
Proof. unfold connect_to_service. response_tac. Qed.

Lemma response_grab_request_key : preserves keeps_response grab_request_key.
Proof. unfold grab_request_key. response_tac. Qed.

Lemma response_setattr o name v :
  preserves keeps_response (setattr o name v).
Proof. unfold setattr. response_tac. Qed.

Lemma response_getattr o name : preserves keeps_response (getattr o name).
Proof. unfold getattr. response_tac. Qed.
#[local] Hint Resolve response_connect_to_service response_grab_request_key
  response_setattr response_getattr : response.

Lemma response_write_request_slots slots :
  preserves keeps_response (write_request_slots slots).
Proof. induction slots as [|key slots IH]; simpl; response_tac. Qed.

Lemma response_call_request_cb : preserves keeps_response call_request_cb.
Proof. unfold call_request_cb. response_tac. Qed.

Lemma response_check_request : preserves keeps_response check_request.
Proof. unfold check_request. response_tac. Qed.
#[local] Hint Resolve response_write_request_slots response_call_request_cb
  response_check_request : response.

Lemma response_prepare e : preserves keeps_response (prepare e).
Proof. unfold prepare, build_request. response_tac. Qed.

Lemma response_call_response_cb : preserves keeps_response call_response_cb.
Proof. unfold call_response_cb, except_all. response_tac. Qed.

Lemma response_write_response_key :
  preserves keeps_response write_response_key.
Proof. unfold write_response_key. response_tac. Qed.
#[local] Hint Resolve response_call_response_cb response_write_response_key
  : response.

Lemma response_write_response_slots slots :
  preserves keeps_response (write_response_slots slots).
Proof. induction slots as [|key slots IH]; simpl; response_tac. Qed.
#[local] Hint Resolve response_write_response_slots : response.

Lemma response_handle_response : preserves keeps_response handle_response.
Proof. unfold handle_response, resolve. response_tac. Qed.

(** The call either leaves the stored response alone, or the done
    callback has run: it has notified the condition of the state and the
    response is the result of the future. *)
Lemma call_service_response sub w :
  (keeps_response w (call_service sub w).2 ∧
   ∀ c, CondNotify c ∉ w_log (call_service sub w).2 ∨
        CondNotify c ∈ w_log w) ∨
  (CondNotify (_done_cond (w_self w)) ∈ w_log (call_service sub w).2 ∧
   is_Some (_response (w_self (call_service sub w).2))).
Proof.
  unfold call_service, submit_call, register, wait, except_TypeError,
    deliver, _done_cb, store_result, notify. munfold.
  destruct sub as [ex|ex|fields|fields|]; try destruct (decide (ex = TypeError));
    simpl.
  all: try (right; split; [|by eauto];
            rewrite ?elem_of_app, ?elem_of_cons; tauto).
  all: left; split; [reflexivity|]; intros c;
    destruct (decide (CondNotify c ∈ w_log w)) as [Hin|Hnin]; [by right|];
    left; rewrite !elem_of_app, !elem_of_cons, !elem_of_nil;
    intros H; destruct_or!; try done.
Qed.

Lemma invoke_response e w :
  ((∀ c, CondNotify c ∉ w_log (invoke e w).2) →
   _response (w_self (invoke e w).2) = _response (w_self w)) ∧
  (∀ c, CondNotify c ∈ w_log (invoke e w).2 →
        is_Some (_response (w_self (invoke e w).2))).
Proof.
  rewrite invoke_world, execute_prepare.
  assert (_response (w_self (prepare e (fresh_log w)).2) =
          _response (w_self w)) as Hr1
    by apply (response_prepare e (fresh_log w)).
  destruct (quiet_prepare e (fresh_log w)) as (evs1 & Hlog1 & Hq1).
  destruct (prepare e (fresh_log w)) as [[[]|r1] w1]; simpl in *.
  2:{ split; [intros _; exact Hr1|]. intros c Hc. rewrite Hlog1 in Hc.
      by destruct (dispatch_events_nil_not_elem _ (CondNotify c) Hq1 eq_refl). }
  assert (∀ c, CondNotify c ∉ w_log w1) as Hnone.
  { intros c Hc. rewrite Hlog1 in Hc.
    by destruct (dispatch_events_nil_not_elem _ (CondNotify c) Hq1 eq_refl). }
  unfold bind.
  pose proof (call_service_response (submission e) w1) as Hcall.
  destruct (call_service (submission e) w1) as [[[]|r2] w2]; simpl in *.
  - pose proof (response_handle_response w2) as Hr3.
    destruct (quiet_handle_response w2) as (evs3 & Hlog3 & Hq3).
    unfold keeps_response in *.
    destruct Hcall as [[Hkeep Hno]|[Hin Hsome]].
    + split; [intros _; congruence|]. intros c Hc. exfalso.
      rewrite Hlog3 in Hc. apply elem_of_app in Hc as [Hc|Hc].
      * destruct (Hno c) as [H|H]; [by apply H | by apply (Hnone c)].
      * by destruct (dispatch_events_nil_not_elem _ (CondNotify c) Hq3 eq_refl).
    + split; [|intros c _; by rewrite Hr3].
      intros Hnever. exfalso. apply (Hnever (_done_cond (w_self w1))).
      rewrite Hlog3. apply elem_of_app. by left.
  - unfold keeps_response in *. destruct Hcall as [[Hkeep Hno]|[Hin Hsome]].
    + split; [intros _; congruence|]. intros c Hc. exfalso.
      destruct (Hno c) as [H|H]; [by apply H | by apply (Hnone c)].
    + split; [|intros c _; exact Hsome].
      intros Hnever. exfalso. by apply (Hnever (_done_cond (w_self w1))).
Qed.

(** C7, as the code has it.  The condition variable is built once, by the
    constructor; [execute] builds none and never replaces the one the
    state holds: every wait of every invocation is on that same object.
    The stored response stays likewise: an invocation in which no done
    callback notifies leaves it as it found it, and one in which the done
    callback notifies ends with a response stored. *)
Theorem condition_is_state_scoped (a : arguments) (h : heap) (n : nat)
    (e : env) (w : world) :
  ((__init__ a h n).2 = S n ∧ _done_cond (__init__ a h n).1.1 = n) ∧
  _done_cond (w_self (invoke e w).2) = _done_cond (w_self w) ∧
  w_conds (invoke e w).2 = w_conds w ∧
  (∀ c, CondWait c ∈ w_log (invoke e w).2 → c = _done_cond (w_self w)) ∧
  ((∀ c, CondNotify c ∉ w_log (invoke e w).2) →
   _response (w_self (invoke e w).2) = _response (w_self w)) ∧
  (∀ c, CondNotify c ∈ w_log (invoke e w).2 →
        is_Some (_response (w_self (invoke e w).2))).
Proof.
  split; [apply init_builds_one_condition|].
  destruct (invoke_response e w) as [Hstays Hset].
  rewrite invoke_world in *.
  pose proof (frame_execute e (fresh_log w)) as [Hcfg Hconds].
  destruct (execute_log e (fresh_log w)) as (evs & Hlog & Hwait & _).
  simpl in *. split; [by destruct Hcfg as (_&_&_&_&_&_&_&_&->)|].
  split; [exact Hconds|]. split; [|by split].
  intros c. rewrite Hlog. apply Hwait.
Qed.

(** ** The stored request *)

(** C8, as the code has it.  The request is an attribute of the state:
    the request an invocation sends is still stored when [execute] has
    ended, and is what the next invocation starts from. *)
Theorem sent_request_is_kept (e : env) (w : world) (r : value)
    (p : option obj) :
  CallAsync r p ∈ w_log (invoke e w).2 →
  _request (w_self (invoke e w).2) = r.
Proof.
  rewrite invoke_world.
  destruct (execute_log e (fresh_log w)) as (evs & Hlog & _ & Hcall).
  rewrite Hlog. simpl. apply Hcall.
Qed.

(** ** The order of the request sources *)

Lemma with_heap_id w l attrs :
  w_heap w !! l = Some attrs → with_heap (<[l:=attrs]> (w_heap w)) w = w.
Proof. intros H. unfold with_heap. rewrite (insert_id _ _ _ H). by destruct w. Qed.

Lemma obj_lookup_insert_eq (o : obj) (k : string) (v : value) :
  <[k := v]> o !! k = Some v.
Proof. unfold lookup, obj_lookup, insert, obj_insert. simpl. apply lookup_insert_eq. Qed.

Lemma obj_lookup_insert_ne (o : obj) (k key : string) (v : value) :
  k ≠ key → <[k := v]> o !! key = o !! key.
Proof.
  intros Hne. unfold lookup, obj_lookup, insert, obj_insert. simpl.
  by apply lookup_insert_ne.
Qed.

Lemma write_request_slots_all slots w l attrs :
  _request (w_self w) = VRef l →
  w_heap w !! l = Some attrs →
  Forall (λ key, is_Some (w_ud w !! key)) slots →
  takes attrs (w_ud w) slots →
  write_request_slots slots w =
  (Next tt, with_heap (<[l := copy_slots (w_ud w) slots attrs]> (w_heap w)) w).
Proof.
  revert w attrs.
  induction slots as [|k slots IH]; intros w attrs Hreq Hobj Hall Htakes.
  - simpl. by rewrite (with_heap_id w l attrs Hobj).
  - apply Forall_cons in Hall as [[v Hk] Hall].
    apply takes_cons in Htakes as [Hv Htakes].
    simpl. unfold setattr. munfold. rewrite Hk, Hreq, Hobj, (Hv v Hk).
    rewrite (IH (with_heap (<[l:=<[k:=v]> attrs]> (w_heap w)) w)
               (<[k:=v]> attrs) Hreq ltac:(apply lookup_insert_eq) Hall
               (takes_insert _ _ _ k v Htakes)).
    unfold with_heap. simpl. by rewrite insert_insert_eq.
Qed.

Lemma copy_slots_stable ud slots (attrs : obj) key v :
  ud !! key = Some v → attrs !! key = Some v →
  copy_slots ud slots attrs !! key = Some v.
Proof.
  revert attrs. induction slots as [|k slots IH]; intros attrs Hud Hattr.
  - exact Hattr.
  - simpl. apply IH; [exact Hud|].
    destruct (ud !! k) as [vk|] eqn:Hk; [|exact Hattr].
    destruct (decide (k = key)) as [->|Hne].
    + rewrite obj_lookup_insert_eq. congruence.
    + by rewrite obj_lookup_insert_ne.
Qed.

Lemma copy_slots_lookup ud slots (attrs : obj) key v :
  key ∈ slots → ud !! key = Some v →
  copy_slots ud slots attrs !! key = Some v.
Proof.
  revert attrs. induction slots as [|k slots IH]; intros attrs Hin Hud.
  - by apply elem_of_nil in Hin.
  - apply elem_of_cons in Hin as [->|Hin].
    + simpl. rewrite Hud. apply copy_slots_stable; [exact Hud|].
      apply obj_lookup_insert_eq.
    + apply (IH _ Hin Hud).
Qed.

(** C3, as the code has it.  The request sources are applied in the
    order: default, full replacement by the request key, slot copies (into
    the replacing object, which takes them), callback.  The callback is
    called with the replaced request carrying the slot values, and a
    value it returns replaces the request. *)
Theorem request_sources_order (w : world) (l : loc) (attrs : obj) :
  request_base w = Some (VRef l) →
  w_heap w !! l = Some attrs →
  Forall (λ key, is_Some (w_ud w !! key)) (_request_slots (w_self w)) →
  takes attrs (w_ud w) (_request_slots (w_self w)) →
  let copied := copy_slots (w_ud w) (_request_slots (w_self w)) attrs in
  let filled :=
    with_heap (<[l := copied]> (w_heap w)) (with_self (set_request (VRef l)) w)
  in
  build_request w = call_request_cb filled ∧
  (∀ key v, key ∈ _request_slots (w_self w) → w_ud w !! key = Some v →
            copied !! key = Some v) ∧
  (∀ cb update ud h,
     _request_cb (w_self w) = Some cb →
     cb (w_ud w) (w_heap filled) (VRef l) = CbReturn update ud h →
     update ≠ VNone →
     (build_request w).1 = Next tt ∧
     _request (w_self (build_request w).2) = update) ∧
  (_request_cb (w_self w) = None →
   (build_request w).1 = Next tt ∧
   _request (w_self (build_request w).2) = VRef l).
Proof.
  intros Hbase Hobj Hall Htakes copied filled.
  assert (build_request w = call_request_cb filled) as Hbuild.
  { unfold build_request, bind. rewrite (grab_request_key_base w _ Hbase).
    unfold get. cbn [w_self with_self _request_slots set_request].
    by rewrite (write_request_slots_all _ (with_self (set_request (VRef l)) w)
                  l attrs eq_refl Hobj Hall Htakes). }
  split; [exact Hbuild|]. split.
  { intros key v Hin Hud. by apply copy_slots_lookup. }
  rewrite Hbuild. unfold call_request_cb. munfold. split.
  - intros cb update ud h -> Hret Hupd. rewrite Hret.
    by destruct (decide (update = VNone)).
  - by intros ->.
Qed.

(** ** How [execute] can end *)

Lemma wait_until_ready_stops name script w r w' :
  wait_until_ready name script w = (Stop r, w') →
  r = Return "aborted" ∨ r = Return "preempted" ∨
  (r = Hang ∧ still_waiting script = true).
Proof.
  revert w. induction script as [|p script IH]; intros w; simpl.
  - munfold. intros [= <- _]. right. right. by split.
  - unfold service_preempt. munfold.
    destruct p as [| |[] [] [[]|]]; simpl;
      try (intros [= <- _]; tauto); try discriminate;
      intros H; apply IH in H; exact H.
Qed.

Lemma wait_until_ready_next name script w w' :
  wait_until_ready name script w = (Next tt, w') →
  becomes_ready script = true.
Proof.
  revert w. induction script as [|p script IH]; intros w; simpl.
  - discriminate.
  - unfold service_preempt. munfold.
    destruct p as [| |[] [] [[]|]]; simpl; try discriminate; try done;
      apply IH.
Qed.

Lemma setattr_raises_insert h l (target : obj) k v o name v' :
  h !! l = Some target →
  setattr_raises (<[l := <[k := v]> target]> h) o name v' =
  setattr_raises h o name v'.
Proof.
  intros Hl. destruct o as [| | |l']; try reflexivity. simpl.
  destruct (decide (l = l')) as [<-|Hne].
  - by rewrite lookup_insert_eq, Hl.
  - by rewrite lookup_insert_ne.
Qed.

Lemma write_request_slots_stops slots w r w' :
  write_request_slots slots w = (Stop r, w') →
  r = Return "aborted" ∨
  ∃ ex key v,
    r = Raise ex ∧ key ∈ slots ∧ w_ud w !! key = Some v ∧
    setattr_raises (w_heap w) (_request (w_self w)) key v = Some ex.
Proof.
  revert w. induction slots as [|k slots IH]; intros w; simpl.
  - discriminate.
  - rewrite bind_get. destruct (w_ud w !! k) as [v|] eqn:Hk.
    + assert (∀ ex, setattr_raises (w_heap w) (_request (w_self w)) k v
                    = Some ex →
                    ∃ ex' key v',
                      Raise ex = Raise ex' ∧ key ∈ k :: slots ∧
                      w_ud w !! key = Some v' ∧
                      setattr_raises (w_heap w) (_request (w_self w)) key v'
                      = Some ex') as Hhere.
      { intros ex Hex. exists ex, k, v. split; [done|].
        split; [apply elem_of_cons; by left | by split]. }
      unfold setattr. munfold.
      destruct (_request (w_self w)) as [| | |l] eqn:Hreq;
        try (intros [= <- _]; right; by apply Hhere).
      destruct (w_heap w !! l) as [target|] eqn:Hl;
        [|intros [= <- _]; right; apply Hhere; simpl; by rewrite Hl].
      destruct (refuses target k v) as [ex|] eqn:Href; simpl.
      * intros [= <- _]. right. apply Hhere. simpl. by rewrite Hl.
      * intros Hrun. apply IH in Hrun as [->|(ex & key & v' & -> & Hin & Hv & Hex)];
          [by left|]. right. exists ex, key, v'. simpl in *.
        split; [done|]. split; [apply elem_of_cons; by right|].
        split; [done|]. rewrite Hreq in Hex.
        by rewrite (setattr_raises_insert _ _ _ _ _ _ _ _ Hl) in Hex.
    + munfold. intros [= <- _]. by left.
Qed.

Lemma call_request_cb_stops w r w' :
  call_request_cb w = (Stop r, w') →
  ∃ ex cb ud h,
    r = Raise ex ∧ _request_cb (w_self w) = Some cb ∧
    cb (w_ud w) (w_heap w) (_request (w_self w)) = CbRaise ex ud h.
Proof.
  unfold call_request_cb. munfold.
  destruct (_request_cb (w_self w)) as [cb|]; [|discriminate].
  destruct (cb (w_ud w) (w_heap w) (_request (w_self w)))
    as [update ud h|ex ud h] eqn:Hcb; simpl.
  - destruct (decide (update = VNone)); discriminate.
  - intros [= <- _]. by exists ex, cb, ud, h.
Qed.

Lemma check_request_stops w r w' :
  check_request w = (Stop r, w') → r = Return "aborted".
Proof.
  unfold check_request. munfold.
  destruct (decide (_request (w_self w) = VNone)); [|discriminate].
  by intros [= <- _].
Qed.

Lemma grab_request_key_next w w' :
  grab_request_key w = (Next tt, w') →
  ∃ base, request_base w = Some base ∧ w' = with_self (set_request base) w.
Proof.
  unfold grab_request_key, request_base. munfold.
  destruct (_request_key (w_self w)) as [key|].
  - destruct (w_ud w !! key) as [v|]; [|discriminate].
    intros [= <-]. by exists v.
  - intros [= <-]. exists (_request (w_self w)). split; [done|].
    by destruct w as [[] ? ? ? ?].
Qed.

Lemma prepare_before e w :
  prepare e w =
  match before_request_cb e w with
  | (Next _, w1) => (call_request_cb;; check_request) w1
  | (Stop r, w1) => (Stop r, w1)
  end.
Proof.
  unfold prepare, before_request_cb, build_request, bind.
  destruct (preempt_gate w) as [[[]|r] w1]; [|reflexivity].
  destruct (connect_to_service (readiness e) w1) as [[[]|r] w2]; [|reflexivity].
  destruct (grab_request_key w2) as [[[]|r] w3]; [|reflexivity].
  destruct (get w3) as [[w4|r] w5]; [|reflexivity].
  destruct (write_request_slots (_request_slots (w_self w4)) w5)
    as [[[]|r] w6]; reflexivity.
Qed.

(** How the statements before the request callback can end the
    invocation. *)
Lemma before_request_cb_stops e w r w' :
  before_request_cb e (fresh_log w) = (Stop r, w') →
  r = Return "aborted" ∨ r = Return "preempted" ∨
  (r = Hang ∧ still_waiting (readiness e) = true) ∨
  (∃ ex, r = Raise ex ∧ request_copy_refused w ex).
Proof.
  unfold before_request_cb, bind.
  destruct (_preempt_requested (w_self w)) eqn:Hflag.
  { rewrite (preempt_gate_set (fresh_log w) Hflag). intros [= <- _]. tauto. }
  rewrite (preempt_gate_clear (fresh_log w) Hflag).
  destruct (connect_to_service (readiness e) (fresh_log w))
    as [[[]|r1] w1] eqn:H1.
  2:{ intros [= <- _]. unfold connect_to_service, bind, get in H1.
      destruct (wait_until_ready_stops _ _ _ _ _ H1) as [?|[?|?]]; tauto. }
  assert (w_self w1 = w_self w ∧ w_ud w1 = w_ud w ∧ w_heap w1 = w_heap w)
    as (Hs & Hu & Hh).
  { unfold connect_to_service, bind, get in H1.
    pose proof (wait_until_ready_next _ _ _ _ H1) as Hready.
    destruct (wait_until_ready_ready (_service_name (w_self (fresh_log w)))
                (readiness e) (fresh_log w) Hready) as (w1' & Hrun & Hfacts).
    rewrite H1 in Hrun. injection Hrun as <-. exact Hfacts. }
  destruct (grab_request_key w1) as [[[]|r2] w2] eqn:H2.
  2:{ intros [= <- _]. left. by eapply grab_request_key_stops. }
  apply grab_request_key_next in H2 as (base & Hbase & ->).
  unfold get. cbn [w_self with_self _request_slots set_request].
  destruct (write_request_slots (_request_slots (w_self w1))
              (with_self (set_request base) w1)) as [[[]|r3] w3] eqn:H3;
    [discriminate|].
  intros [= <- _].
  apply write_request_slots_stops in H3
    as [->|(ex & key & v & -> & Hin & Hv & Hex)]; [by left|].
  do 3 right. exists ex. split; [done|]. exists base, key, v.
  simpl in Hv, Hex. unfold request_base in *.
  rewrite Hs, Hu in Hbase. rewrite Hs in Hin. rewrite Hu in Hv.
  rewrite Hh in Hex. done.
Qed.

Lemma before_request_cb_frame e : preserves frame (before_request_cb e).
Proof. unfold before_request_cb. frame_tac. Qed.

Lemma prepare_stops e w r w' :
  prepare e (fresh_log w) = (Stop r, w') →
  r = Return "aborted" ∨ r = Return "preempted" ∨
  (r = Hang ∧ still_waiting (readiness e) = true) ∨
  (∃ ex, r = Raise ex ∧
         (request_copy_refused w ex ∨ request_cb_raises e w ex)).
Proof.
  rewrite prepare_before.
  pose proof (before_request_cb_frame e (fresh_log w)) as [Hcfg _].
  destruct (before_request_cb e (fresh_log w)) as [[[]|r1] w1] eqn:H1;
    simpl in Hcfg.
  2:{ intros [= <- _].
      destruct (before_request_cb_stops _ _ _ _ H1)
        as [?|[?|[?|(ex & -> & Hex)]]]; try tauto.
      do 3 right. exists ex. by split; [|left]. }
  unfold bind.
  destruct (call_request_cb w1) as [[[]|r2] w2] eqn:H2.
  2:{ intros [= <- _].
      apply call_request_cb_stops in H2 as (ex & cb & ud & h & -> & Hcb & Hr).
      do 3 right. exists ex. split; [done|]. right.
      exists w1, cb, ud, h. split; [done|]. split; [|done].
      destruct Hcfg as (_ & Hrcb & _). congruence. }
  intros H3. left. by eapply check_request_stops.
Qed.

Lemma call_service_stops sub w r w' :
  call_service sub w = (Stop r, w') →
  r = Return "aborted" ∨
  (∃ ex, r = Raise ex ∧ ex ≠ TypeError ∧
         (sub = CallRaises ex ∨ sub = RegisterRaises ex)) ∨
  (r = Hang ∧
   (sub = NeverCompletes ∨ ∃ fields, sub = CompletesInline fields)).
Proof.
  unfold call_service, submit_call, register, wait, except_TypeError,
    deliver, _done_cb, store_result, notify. munfold.
  destruct sub as [ex|ex|fields|fields|]; try destruct (decide (ex = TypeError));
    simpl; try discriminate; intros [= <- _]; try tauto; eauto 7.
Qed.

Lemma call_service_next sub w w' :
  call_service sub w = (Next tt, w') → is_Some (_response (w_self w')).
Proof.
  unfold call_service, submit_call, register, wait, except_TypeError,
    deliver, _done_cb, store_result, notify. munfold.
  destruct sub as [ex|ex|fields|fields|]; try destruct (decide (ex = TypeError));
    simpl; try discriminate; intros [= <-]; simpl; eauto.
Qed.

Lemma call_response_cb_cases w response :
  _response (w_self w) = Some response →
  (∀ cb, _response_cb (w_self w) = Some cb →
         ∃ label ud h, cb (w_ud w) (w_heap w) response = CbReturn label ud h) →
  (∃ o w', call_response_cb w = (Next o, w') ∧
           (∀ label, o = Some label → label ∈ _outcomes (w_self w)) ∧
           w_self w' = w_self w) ∨
  (∃ w', call_response_cb w = (Stop (Return "aborted"), w')).
Proof.
  intros Hresp Hret. unfold call_response_cb. munfold.
  destruct (_response_cb (w_self w)) as [cb|] eqn:Hcb.
  2:{ left. do 2 eexists. split; [reflexivity|]. by split. }
  rewrite Hresp.
  destruct (Hret cb eq_refl) as (v & ud & h & ->).
  simpl. destruct v as [|label|z|l]; simpl; try (right; eauto; fail).
  - left. do 2 eexists. split; [reflexivity|]. by split.
  - destruct (decide (label ∈ _outcomes (w_self w))) as [Hin|Hin]; simpl.
    + left. do 2 eexists. split; [reflexivity|]. split; [|done].
      by intros ? [= <-].
    + right. eauto.
Qed.

Lemma write_response_slots_stops slots w r w' :
  write_response_slots slots w = (Stop r, w') → r = Raise AttributeError.
Proof.
  revert w. induction slots as [|k slots IH]; intros w; simpl.
  - discriminate.
  - unfold getattr. munfold.
    destruct (_response (w_self w)) as [[| | |l]|];
      try (by intros [= <- _]).
    destruct (w_heap w !! l) as [attrs|]; [|by intros [= <- _]].
    destruct (attrs !! k); simpl; [apply IH | by intros [= <- _]].
Qed.

Lemma write_response_slots_lacks slots w r w' response :
  write_response_slots slots w = (Stop r, w') →
  _response (w_self w) = Some response →
  ∃ key, key ∈ slots ∧ lacks (w_heap w) response key.
Proof.
  revert w. induction slots as [|k slots IH]; intros w; simpl.
  - discriminate.
  - intros Hrun Hresp. revert Hrun. unfold getattr. munfold. rewrite Hresp.
    destruct response as [| | |l];
      try (intros _; exists k; split; [apply elem_of_cons; by left | done]).
    destruct (w_heap w !! l) as [attrs|] eqn:Hl.
    2:{ intros _. exists k. split; [apply elem_of_cons; by left|].
        simpl. by rewrite Hl. }
    destruct (attrs !! k) as [v|] eqn:Hk; simpl.
    + intros Hrun. destruct (IH _ Hrun Hresp) as (key & Hin & Hlack).
      exists key. split; [apply elem_of_cons; by right | exact Hlack].
    + intros _. exists k. split; [apply elem_of_cons; by left|].
      simpl. by rewrite Hl.
Qed.

(** ** Reported failures end with 'aborted' *)

Lemma failures_app l1 l2 :
  failures (l1 ++ l2) = (failures l1 ++ failures l2)%list.
Proof. apply List.filter_app. Qed.

Lemma aborts_ret {A} (a : A) : aborts_on_failure (ret a).
Proof. intros w. exists []. split; [by rewrite app_nil_r | by left]. Qed.

Lemma aborts_stop {A} (r : result) : aborts_on_failure (@stop A r).
Proof. intros w. exists []. split; [by rewrite app_nil_r | by left]. Qed.

Lemma aborts_get : aborts_on_failure get.
Proof. intros w. exists []. split; [by rewrite app_nil_r | by left]. Qed.

Lemma aborts_modify (f : world → world) :
  (∀ w, ∃ evs, w_log (f w) = (w_log w ++ evs)%list ∧ failures evs = []) →
  aborts_on_failure (modify f).
Proof. intros Hf w. destruct (Hf w) as (evs & Hlog & Hev). exists evs. eauto. Qed.

Lemma aborts_report {A} (lvl : level) (d : diagnostic) :
  aborts_on_failure (A:=A) (log lvl d;; aborted).
Proof. intros w. exists [Log lvl d]. split; [reflexivity | by right]. Qed.

Lemma aborts_bind {A B} (m : M A) (k : A → M B) :
  aborts_on_failure m → (∀ a, aborts_on_failure (k a)) →
  aborts_on_failure (bind m k).
Proof.
  intros Hm Hk w. unfold bind.
  destruct (Hm w) as (evs1 & Hlog1 & Hf1).
  destruct (m w) as [[a|r] w1]; simpl in *.
  - destruct Hf1 as [Hf1|]; [|discriminate].
    destruct (Hk a w1) as (evs2 & Hlog2 & Hf2).
    exists (evs1 ++ evs2)%list. split.
    + by rewrite Hlog2, Hlog1, app_assoc.
    + destruct Hf2 as [Hf2|Hf2]; [left | by right].
      by rewrite failures_app, Hf1, Hf2.
  - exists evs1. split; [exact Hlog1|].
    destruct Hf1 as [Hf1|[= ->]]; [by left | by right].
Qed.

Create HintDb aborts discriminated.

Ltac aborts_tac :=
  repeat first
    [ match goal with |- ∀ _, _ => intro end
    | match goal with
      | |- aborts_on_failure (bind (log _ _) (λ _, aborted)) =>
          apply aborts_report
      | |- aborts_on_failure (ret _) => apply aborts_ret
      | |- aborts_on_failure (stop _) => apply aborts_stop
      | |- aborts_on_failure aborted => apply aborts_stop
      | |- aborts_on_failure preempted => apply aborts_stop
      | |- aborts_on_failure get => apply aborts_get
      | |- aborts_on_failure (bind _ _) => apply aborts_bind
      | |- aborts_on_failure (match ?x with _ => _ end) => destruct x
      | |- aborts_on_failure (if ?b then _ else _) => destruct b
      | |- aborts_on_failure (modify _) => apply aborts_modify
      | |- aborts_on_failure (emit _) => apply aborts_modify
      | |- aborts_on_failure (log _ _) => apply aborts_modify
      end ];
  try match goal with
      | |- ∃ evs, w_log (with_event ?ev ?w) = _ ∧ _ =>
          exists [ev]; split; reflexivity
      | |- ∃ evs, w_log _ = (w_log ?w ++ evs)%list ∧ _ =>
          exists []; destruct w; split;
          [simpl; by rewrite app_nil_r | reflexivity]
      end;
  eauto with aborts.

Lemma aborts_preempt_gate : aborts_on_failure preempt_gate.
Proof.
  unfold preempt_gate, preempt_requested, service_preempt. aborts_tac.
Qed.

Lemma aborts_wait_until_ready name script :
  aborts_on_failure (wait_until_ready name script).
Proof.
  induction script as [|p script IH]; simpl; unfold service_preempt;
    aborts_tac.
Qed.
#[local] Hint Resolve aborts_preempt_gate aborts_wait_until_ready : aborts.

Lemma aborts_connect_to_service script :
  aborts_on_failure (connect_to_service script).
Proof. unfold connect_to_service. aborts_tac. Qed.

Lemma aborts_grab_request_key : aborts_on_failure grab_request_key.
Proof. unfold grab_request_key. aborts_tac. Qed.

Lemma aborts_setattr o name v : aborts_on_failure (setattr o name v).
Proof. unfold setattr. aborts_tac. Qed.

Lemma aborts_getattr o name : aborts_on_failure (getattr o name).
Proof. unfold getattr. aborts_tac. Qed.
#[local] Hint Resolve aborts_connect_to_service aborts_grab_request_key
  aborts_setattr aborts_getattr : aborts.

Lemma aborts_write_request_slots slots :
  aborts_on_failure (write_request_slots slots).
Proof. induction slots as [|key slots IH]; simpl; aborts_tac. Qed.

Lemma aborts_call_request_cb : aborts_on_failure call_request_cb.
Proof. unfold call_request_cb. aborts_tac. Qed.
#[local] Hint Resolve aborts_write_request_slots aborts_call_request_cb
  : aborts.

Lemma aborts_build_request : aborts_on_failure build_request.
Proof. unfold build_request. aborts_tac. Qed.

Lemma aborts_check_request : aborts_on_failure check_request.
Proof. unfold check_request. aborts_tac. Qed.

Lemma aborts_call_service sub : aborts_on_failure (call_service sub).
Proof.
  unfold call_service, submit_call, register, wait, except_TypeError,
    deliver, _done_cb, store_result, notify. aborts_tac.
Qed.
#[local] Hint Resolve aborts_build_request aborts_check_request
  aborts_call_service : aborts.

Lemma aborts_call_response_cb : aborts_on_failure call_response_cb.
Proof. unfold call_response_cb, except_all. aborts_tac. Qed.

Lemma aborts_write_response_key : aborts_on_failure write_response_key.
Proof. unfold write_response_key. aborts_tac. Qed.
#[local] Hint Resolve aborts_call_response_cb aborts_write_response_key
  : aborts.

Lemma aborts_write_response_slots slots :
  aborts_on_failure (write_response_slots slots).
Proof. induction slots as [|key slots IH]; simpl; aborts_tac. Qed.
#[local] Hint Resolve aborts_write_response_slots : aborts.

Lemma aborts_handle_response : aborts_on_failure handle_response.
Proof. unfold handle_response, resolve. aborts_tac. Qed.
#[local] Hint Resolve aborts_handle_response : aborts.

Lemma aborts_execute e : aborts_on_failure (execute e).
Proof. unfold execute. aborts_tac. Qed.

Lemma reported_failure_aborts e w ev :
  ev ∈ w_log (invoke e w).2 → reports_failure ev = true →
  (invoke e w).1 = Return "aborted".
Proof.
  unfold invoke. fold (fresh_log w).
  destruct (aborts_execute e (fresh_log w)) as (evs & Hlog & Hf).
  destruct (execute e (fresh_log w)) as [[label|r] w1]; simpl in *.
  - destruct Hf as [Hf|]; [|discriminate].
    intros Hin Hev. rewrite Hlog in Hin. apply list_elem_of_In in Hin.
    assert (In ev (failures evs)) as Hc
      by (apply List.filter_In; by split).
    rewrite Hf in Hc. destruct Hc.
  - destruct Hf as [Hf|[= ->]]; [|done].
    intros Hin Hev. rewrite Hlog in Hin. apply list_elem_of_In in Hin.
    assert (In ev (failures evs)) as Hc
      by (apply List.filter_In; by split).
    rewrite Hf in Hc. destruct Hc.
Qed.

(** C1, as the code has it.  Every failure that [execute] reports (an
    error, or the end of the wait for the service by shutdown or fault)
    ends the invocation with 'aborted'.  And when the response callback,
    if this invocation calls it, returns, [execute] ends in one of three
    ways: it returns a label of the registered outcome set; or it lets
    through the exception the request callback raised, the exception
    with which a slot copy failed, or what call submission raised other
    than [TypeError]; or it does not return, being held in the readiness
    loop or in [wait()]. *)
Theorem execute_outcome_or_escape (e : env) (w : world) :
  (∀ ev, ev ∈ w_log (invoke e w).2 → reports_failure ev = true →
         (invoke e w).1 = Return "aborted") ∧
  (base_outcomes ⊆ _outcomes (w_self w) →
   response_cb_returns e w →
   match (invoke e w).1 with
   | Return label => label ∈ _outcomes (w_self w)
   | Raise ex => escapes e w ex
   | Hang => never_released e
   end).
Proof.
  split; [apply reported_failure_aborts|].
  intros Hbase Hret.
  assert ("aborted" ∈ _outcomes (w_self w)) as Ha
    by (apply Hbase; unfold base_outcomes; set_solver).
  assert ("preempted" ∈ _outcomes (w_self w)) as Hp
    by (apply Hbase; unfold base_outcomes; set_solver).
  assert ("succeeded" ∈ _outcomes (w_self w)) as Hs
    by (apply Hbase; unfold base_outcomes; set_solver).
  unfold invoke. fold (fresh_log w). rewrite execute_prepare.
  pose proof (frame_prepare e (fresh_log w)) as [Hc1 _].
  destruct (prepare e (fresh_log w)) as [[[]|r1] w1] eqn:H1; simpl in Hc1.
  2:{ simpl.
      destruct (prepare_stops _ _ _ _ H1)
        as [->|[->|[[-> Hw]|(ex & -> & [Hex|Hex])]]]; try done.
      - by left.
      - right. by left.
      - by left. }
  unfold bind.
  pose proof (frame_call_service (submission e) w1) as [Hc2 _].
  destruct (call_service (submission e) w1) as [[[]|r2] w2] eqn:H2;
    simpl in Hc2.
  2:{ simpl.
      destruct (call_service_stops _ _ _ _ H2)
        as [->|[(ex & -> & Hne & Hsub)|[-> Hsub]]]; try done.
      - do 3 right. by split.
      - by right. }
  assert (dispatch e (fresh_log w) = (Next tt, w2)) as Hd
    by (unfold dispatch, bind; by rewrite H1, H2).
  assert (same_config (w_self w) (w_self w2)) as Hc
    by (destruct Hc1, Hc2; destruct_and!; repeat split; congruence).
  destruct Hc as (_&_&_&_&Hrcb&_&Hslots&Hout&_).
  destruct (call_service_next _ _ _ H2) as [response Hresp].
  unfold handle_response, bind.
  assert (∀ cb, _response_cb (w_self w2) = Some cb →
                ∃ label ud h,
                  cb (w_ud w2) (w_heap w2) response = CbReturn label ud h)
    as Hret2.
  { intros cb Hcb. apply (Hret w2 cb response Hd); congruence. }
  destruct (call_response_cb_cases w2 response Hresp Hret2)
    as [(o & w3 & Hcb & Ho & Hself3)|(w3 & ->)]; [|done].
  rewrite Hcb.
  destruct (write_response_key_next w3 response) as (w4 & -> & Hself4 & Hheap4);
    [by rewrite Hself3|].
  unfold get. rewrite Hself4, Hself3.
  destruct (write_response_slots (_response_slots (w_self w2)) w4)
    as [[[]|r] w5] eqn:Hsl; simpl.
  - unfold resolve, ret. destruct o as [label|]; simpl; [|done].
    rewrite <- Hout. by apply Ho.
  - rewrite (write_response_slots_stops _ _ _ _ Hsl).
    destruct (write_response_slots_lacks _ _ _ _ response Hsl)
      as (key & Hin & Hlack); [by rewrite Hself4, Hself3|].
    right. right. left. split; [done|].
    exists w2, o, w3, response, key. rewrite Hheap4 in Hlack.
    repeat split; try done; congruence.
Qed.

(** ** What the constructor establishes *)

Lemma init_registers_base a h n :
  base_outcomes ⊆ _outcomes (__init__ a h n).1.1.
Proof.
  intros label Hlabel. unfold __init__.
  destruct (request a); simpl; apply elem_of_union; left;
    apply elem_of_union; by left.
Qed.

Lemma init_clears_preempt a h n :
  _preempt_requested (__init__ a h n).1.1 = false.
Proof. unfold __init__. by destruct (request a). Qed.

(** * Sample runs *)

Ltac by_computation :=
  match goal with
  | |- ?P => apply (bool_decide_unpack P); vm_compute; exact I
  end.

Lemma preemption_seen_means_preempted_witness :
  (invoke answered preempt_pending).1 = Return "preempted" ∧
  contacts (w_log (invoke answered preempt_pending).2) = [].
Proof.
  destruct (proj1 (preemption_seen_means_preempted answered preempt_pending))
    as (Hr & _ & _ & _ & Hc); [reflexivity|].
  split; [exact Hr | apply Hc; reflexivity].
Defined.


Lemma submission_exception_witness :
  (invoke (call_fails TypeError) plain).1 = Return "aborted".
Proof.
  apply (submission_exception (call_fails TypeError) plain
           (prepare (call_fails TypeError) (fresh_log plain)).2 TypeError).
  - vm_compute. reflexivity.
  - left. reflexivity.
Defined.

Lemma unregistered_outcome_aborts_witness :
  (invoke answered labelled).1 = Return "aborted".
Proof.
  pose (w1 := (dispatch answered (fresh_log labelled)).2).
  apply (unregistered_outcome_aborts answered labelled w1 retry_cb (VRef 1)
           (VStr "retry") (w_ud w1) (w_heap w1)).
  - by_computation.
  - vm_compute. reflexivity.
  - reflexivity.
  - vm_compute. reflexivity.
  - reflexivity.
  - discriminate.
  - intros s [= <-]. by_computation.
Defined.

Lemma missing_response_slot_raises_witness :
  (invoke answered slotted).1 = Raise AttributeError.
Proof.
  pose (w1 := (dispatch answered (fresh_log slotted)).2).
  apply (missing_response_slot_raises answered slotted w1
           (call_response_cb w1).2 None 1 sum_response "total").
  - vm_compute. reflexivity.
  - vm_compute. reflexivity.
  - vm_compute. reflexivity.
  - vm_compute. reflexivity.
  - by_computation.
  - vm_compute. reflexivity.
Defined.

Lemma request_sources_order_witness :
  (build_request ordered).1 = Next tt ∧
  _request (w_self (build_request ordered).2) = VRef 1 ∧
  request_attr (build_request ordered).2 "a" = Some (VInt 5).
Proof.
  destruct (request_sources_order ordered 1 goal_request)
    as (_ & _ & _ & Hnone).
  - vm_compute. reflexivity.
  - vm_compute. reflexivity.
  - constructor; [|constructor].
    exists (VInt 5). vm_compute. reflexivity.
  - intros key v Hin Hv.
    apply elem_of_cons in Hin as [->|Hin]; [|by apply elem_of_nil in Hin].
    injection Hv as <-. vm_compute. reflexivity.
  - destruct Hnone as [H1 H2]; [reflexivity|].
    split; [exact H1|]. split; [exact H2|]. vm_compute. reflexivity.
Defined.

Lemma sent_request_is_kept_witness :
  _request (w_self (invoke answered with_goal).2) = VRef 1.
Proof.
  apply (sent_request_is_kept answered with_goal (VRef 1) (Some goal_request)).
  by_computation.
Defined.

Lemma execute_outcome_or_escape_witness :
  (invoke answered keyed).1 = Return "aborted" ∧
  (invoke answered reporting).1 = Return "done" ∧
  match (invoke answered reporting).1 with
  | Return label => label ∈ _outcomes (w_self reporting)
  | Raise ex => escapes answered reporting ex
  | Hang => never_released answered
  end.
Proof.
  split; [|split; [vm_compute; reflexivity|]].
  - apply (proj1 (execute_outcome_or_escape answered keyed)
             (Log Error (RequestKeyNotInUserdata "goal" ∅))).
    + by_computation.
    + reflexivity.
  - apply (proj2 (execute_outcome_or_escape answered reporting)).
    + apply (init_registers_base reporting_args ∅ 0).
    + intros w1 cb response _ Hcb _. injection Hcb as <-.
      by exists (VStr "done"), (w_ud w1), (w_heap w1).
Defined.

(** The request callback raises: the exception leaves [execute]. *)
Lemma request_cb_exception_escapes :
  (invoke answered failing).1 = Raise (UserError "ValueError") ∧
  ∀ label, (invoke answered failing).1 ≠ Return label.
Proof.
  assert ((invoke answered failing).1 = Raise (UserError "ValueError")) as H
    by (vm_compute; reflexivity).
  split; [exact H|]. intros label. rewrite H. discriminate.
Qed.

(** The response callback raises: the handler of line 216 fails on the
    name [traceback], and [NameError] leaves [execute]. *)
Lemma response_cb_exception_raises_NameError :
  (invoke answered failing_response).1 = Raise NameError.
Proof. vm_compute. reflexivity. Qed.

(** [call_async] raises something other than [TypeError]: it leaves
    [execute]. *)
Lemma submission_exception_escapes :
  (invoke (call_fails (UserError "RuntimeError")) plain).1 =
  Raise (UserError "RuntimeError") ∧
  (invoke (call_fails (UserError "RuntimeError")) plain).1 ≠ Return "aborted".
Proof. split; [vm_compute; reflexivity | vm_compute; discriminate]. Qed.

(** With a request key and a slot, the request sent is the userdata's
    object carrying the slot value; in the order of the specification's
    words the replacement would come last and the slot value be lost. *)
Lemma slot_copies_follow_replacement :
  request_attr (build_request ordered).2 "a" = Some (VInt 5) ∧
  request_attr (build_request_spec_order ordered).2 "a" = Some (VInt 1) ∧
  calls (w_log (invoke answered ordered).2) =
  [CallAsync (VRef 1) (Some (<["a" := VInt 5]> goal_request))].
Proof. repeat split; vm_compute; reflexivity. Qed.

(** Preemption is requested when the readiness loop has just been left,
    before the request is built and the call dispatched: the call is
    issued all the same, [execute] returns 'succeeded', and the request
    is neither acknowledged nor cleared. *)
Lemma late_preemption_is_dispatched :
  (invoke_preempted_late answered plain).1 = Return "succeeded" ∧
  length (calls (w_log (invoke_preempted_late answered plain).2)) = 1%nat ∧
  (ServicePreempt ∉ w_log (invoke_preempted_late answered plain).2) ∧
  _preempt_requested (w_self (invoke_preempted_late answered plain).2) = true.
Proof.
  split; [vm_compute; reflexivity|]. split; [vm_compute; reflexivity|].
  split; [by_computation | vm_compute; reflexivity].
Qed.


(** The response has no attribute for the response slot 'total', but the
    response callback returns an unregistered label: [execute] returns
    'aborted' before it comes to the slot copies. *)
Lemma unregistered_label_precedes_slot_copy :
  (dispatch answered (fresh_log labelled_slotted)).1 = Next tt ∧
  lacks (w_heap (dispatch answered (fresh_log labelled_slotted)).2)
    (VRef 1) "total" ∧
  _response (w_self (dispatch answered (fresh_log labelled_slotted)).2)
  = Some (VRef 1) ∧
  (invoke answered labelled_slotted).1 = Return "aborted".
Proof. repeat split; vm_compute; reflexivity. Qed.

(** Two invocations of one state: one condition variable exists, both
    waits are on it, and the response of the first invocation is still
    stored when the second begins. *)
Lemma one_condition_for_two_invocations :
  let w1 := (invoke answered plain).2 in
  let w2 := again answered ∅ w1 in
  w_conds plain = 1 ∧ w_conds w2 = 1 ∧
  CondWait 0 ∈ w_log w1 ∧ CondWait 0 ∈ w_log w2 ∧
  _done_cond (w_self w2) = _done_cond (w_self plain) ∧
  _response (w_self w1) = Some (VRef 1).
Proof.
  repeat split; try (vm_compute; reflexivity); by_computation.
Qed.

(** The request a callback put in place during one invocation is the
    request the next invocation starts from, and sends. *)
Lemma request_survives_invocation :
  let w1 := (invoke answered with_goal).2 in
  _request (w_self with_goal) = VRef 0 ∧
  _request (w_self w1) = VRef 1 ∧
  requests_sent (w_log (again answered ∅ w1)) = [VRef 1].
Proof. repeat split; vm_compute; reflexivity. Qed.

(** * The hand-over between the two threads *)

Lemma call_service_completes fields w :
  ∃ w', call_service (Completes fields) w = (Next tt, w') ∧
        w_self w' =
        set_response (VRef (fresh (dom (w_heap w)))) (w_self w) ∧
        w_ud w' = w_ud w ∧
        w_heap w' = <[fresh (dom (w_heap w)) := fields]> (w_heap w).
Proof.
  unfold call_service, submit_call, register, wait, deliver, _done_cb,
    store_result, notify. munfold.
  eexists. split; [reflexivity|]. done.
Qed.

Lemma bridge_inv_init inline fields w :
  bridge_inv inline fields w (bridge_init w).
Proof. destruct w, inline; reflexivity. Qed.

Ltac bridge_cases Hinv b w inline :=
  unfold bridge_inv in Hinv;
  destruct b as [?wb ?wpc ?dpc ?lock ?st ?fut];
  destruct w as [?s0 ?ud0 ?h0 ?c0 ?lg0];
  simpl in Hinv;
  destruct inline, wpc, dpc; try discriminate Hinv;
  injection Hinv as <- <- <- <-.

Lemma bridge_inv_step inline fields w t b b' :
  bridge_inv inline fields w b →
  bridge_step inline fields t b = Some b' →
  bridge_inv inline fields w b'.
Proof.
  intros Hinv Hstep. bridge_cases Hinv b w inline.
  all: destruct t; try discriminate Hstep.
  all: simpl in Hstep.
  all: injection Hstep as <-; unfold bridge_inv; simpl;
    rewrite ?Nat.eqb_refl; reflexivity.
Qed.

Lemma bridge_rank_step inline fields w t b b' :
  bridge_inv inline fields w b →
  bridge_step inline fields t b = Some b' →
  bridge_rank inline b' = S (bridge_rank inline b).
Proof.
  intros Hinv Hstep. bridge_cases Hinv b w inline.
  all: destruct t; try discriminate Hstep.
  all: simpl in Hstep.
  all: injection Hstep as <-; reflexivity.
Qed.

Lemma bridge_run_inv inline fields w schedule b b' :
  bridge_inv inline fields w b →
  bridge_run inline fields schedule b = Some b' →
  bridge_inv inline fields w b' ∧
  bridge_rank inline b' = (length schedule + bridge_rank inline b)%nat.
Proof.
  revert b. induction schedule as [|t schedule IH]; intros b Hinv; simpl.
  - by intros [= <-].
  - destruct (bridge_step inline fields t b) as [b1|] eqn:Hstep;
      [|discriminate].
    intros Hrun.
    destruct (IH b1 (bridge_inv_step _ _ _ _ _ _ Hinv Hstep) Hrun)
      as [Hinv' Hr].
    split; [exact Hinv'|].
    rewrite Hr, (bridge_rank_step _ _ _ _ _ _ Hinv Hstep). lia.
Qed.

Lemma bridge_rank_bound inline fields w b :
  bridge_inv inline fields w b →
  (bridge_rank inline b ≤ if inline then 7 else 11)%nat.
Proof.
  intros Hinv. bridge_cases Hinv b w inline.
  all: unfold bridge_rank; simpl; lia.
Qed.

Lemma bridge_progress fields w b :
  bridge_inv false fields w b →
  b_waiter b ≠ WLeft →
  ∃ t b', bridge_step false fields t b = Some b'.
Proof.
  intros Hinv Hleft. set (inline := false) in Hinv.
  bridge_cases Hinv b w inline.
  all: try (by destruct Hleft).
  all: first [ by exists Waiter; eexists
             | by exists Dispatcher; eexists ].
Qed.

Lemma bridge_released fields w b :
  bridge_inv false fields w b →
  resumed (b_waiter b) = true →
  b_dispatcher b = DLeft ∧
  call_service (Completes fields) w = (Next tt, b_world b).
Proof.
  intros Hinv Hres. set (inline := false) in Hinv.
  bridge_cases Hinv b w inline.
  all: try discriminate Hres.
  all: split; reflexivity.
Qed.

Lemma bridge_notify_finds_waiter fields w b :
  bridge_inv false fields w b →
  (dispatcher_inside (b_dispatcher b) = true →
   b_waiter b = WWaiting ∧ holder (b_lock b) = Some Dispatcher) ∧
  (b_dispatcher b = DStored →
   b_waiting b = InWaitSet (_done_cond (w_self w)) 1).
Proof.
  intros Hinv. set (inline := false) in Hinv.
  bridge_cases Hinv b w inline.
  all: split; intros H; try discriminate H; try done.
Qed.

(** C9, as the code has it.  When the done callback is run by the
    executor's thread, then in every interleaving of that thread with
    the waiter, whenever the future gets its result after [call_async]:
    the callback is inside its [with] block only while the waiter is
    inside [wait()]; its [notify()] finds the waiter in the wait set;
    while the waiter has not left, some thread can take a step, and no
    interleaving is longer than eleven steps; and the waiter that has
    resumed is in the world that [call_service] gives, the response
    stored. *)
Theorem completion_is_not_lost (fields : obj) (w : world)
    (schedule : list thread) (b : bridge) :
  bridge_run false fields schedule (bridge_init w) = Some b →
  (dispatcher_inside (b_dispatcher b) = true →
   b_waiter b = WWaiting ∧ holder (b_lock b) = Some Dispatcher) ∧
  (b_dispatcher b = DStored →
   b_waiting b = InWaitSet (_done_cond (w_self w)) 1) ∧
  (b_waiter b ≠ WLeft → ∃ t b', bridge_step false fields t b = Some b') ∧
  (length schedule ≤ 11)%nat ∧
  (resumed (b_waiter b) = true →
   b_dispatcher b = DLeft ∧
   call_service (Completes fields) w = (Next tt, b_world b) ∧
   _response (w_self (b_world b)) = Some (VRef (fresh (dom (w_heap w))))).
Proof.
  intros Hrun.
  destruct (bridge_run_inv false fields w schedule (bridge_init w) b
              (bridge_inv_init false fields w) Hrun) as [Hinv Hrank].
  pose proof (bridge_rank_bound false fields w b Hinv) as Hbound.
  change (bridge_rank false (bridge_init w)) with 0 in Hrank.
  destruct (bridge_notify_finds_waiter fields w b Hinv) as [Hin Hset].
  split; [exact Hin|]. split; [exact Hset|].
  split; [by apply (bridge_progress fields w)|]. split; [simpl in *; lia|].
  intros Hres.
  destruct (bridge_released fields w b Hinv Hres) as [Hd Hcall].
  split; [exact Hd|]. split; [exact Hcall|].
  destruct (call_service_completes fields w) as (w' & Hcall' & Hself & _).
  rewrite Hcall in Hcall'. injection Hcall' as <-. by rewrite Hself.
Qed.

Lemma completion_is_not_lost_witness :
  (length early_completion ≤ 11)%nat ∧
  ∃ b, bridge_run false sum_response early_completion
         (bridge_init (at_call answered plain)) = Some b ∧
       b_waiter b = WLeft ∧
       _response (w_self (b_world b)) = Some (VRef 1).
Proof.
  destruct (bridge_run false sum_response early_completion
              (bridge_init (at_call answered plain))) as [b|] eqn:Hrun;
    [|by vm_compute in Hrun].
  destruct (completion_is_not_lost sum_response (at_call answered plain)
              early_completion b Hrun) as (_ & _ & _ & Hlen & Hres).
  split; [exact Hlen|]. exists b. split; [reflexivity|].
  assert (b_waiter b = WLeft) as Hleft.
  { revert Hrun. vm_compute. by intros [= <-]. }
  split; [exact Hleft|].
  destruct Hres as (_ & _ & ->); [by rewrite Hleft|].
  vm_compute. reflexivity.
Defined.

(** The future has its result at once and [add_done_callback] runs the
    done callback on the waiter's thread: it enters the lock its thread
    holds, stores the response and notifies a wait set that is empty.
    The waiter then calls [wait()]; nobody is left to notify it, no
    thread can take a step, and [execute] does not return. *)
Lemma inline_completion_is_lost :
  (∃ b, bridge_run true sum_response inline_completion
          (bridge_init (at_call answered_inline plain)) = Some b ∧
        b_waiter b = WWaiting ∧
        b_waiting b = InWaitSet 0 1 ∧
        _response (w_self (b_world b)) = Some (VRef 1) ∧
        CondNotify 0 ∈ w_log (b_world b) ∧
        ∀ t, bridge_step true sum_response t b = None) ∧
  (invoke answered_inline plain).1 = Hang.
Proof.
  split; [|vm_compute; reflexivity].
  eexists. split; [vm_compute; reflexivity|].
  split; [reflexivity|]. split; [reflexivity|]. split; [reflexivity|].
  split; [by_computation|]. by intros [].
Qed.

(** * Further properties of [execute] *)

(** ** The end of the wait for the service *)

Lemma wait_until_ready_gives_up name script w :
  gives_up script = true →
  ∃ w', wait_until_ready name script w = (Stop (Return "aborted"), w') ∧
        w_self w' = w_self w ∧ w_ud w' = w_ud w ∧ w_heap w' = w_heap w.
Proof.
  revert w. induction script as [|p script IH]; intros w H; [discriminate|].
  destruct p as [| |preempt ok wait]; try discriminate.
  - simpl. munfold. eexists. split; [reflexivity|]. by destruct w.
  - destruct preempt; [discriminate|]. destruct ok.
    + destruct wait as [b|].
      * simpl in H.
        destruct (IH (with_event
                        (Log (if b then Debug else Warn)
                           (if b then ConnectedToService name
                            else StillWaitingForService name))
                        (with_event WaitForService
                           (with_event ServiceIsReady w))) H)
          as (w' & Hrun & Hs & Hu & Hh).
        exists w'. split; [|by destruct w].
        simpl. munfold. destruct b; exact Hrun.
      * simpl. munfold. eexists. split; [reflexivity|]. by destruct w.
    + simpl. munfold. eexists. split; [reflexivity|]. by destruct w.
Qed.

(** X1.  Shutdown, or a fault of the client, while [execute] waits for
    the service ends the invocation with 'aborted': no call is issued, and
    the state, the userdata and the heap are as they were. *)
Theorem giving_up_while_waiting (e : env) (w : world) :
  _preempt_requested (w_self w) = false →
  gives_up (readiness e) = true →
  (invoke e w).1 = Return "aborted" ∧
  calls (w_log (invoke e w).2) = [] ∧
  w_self (invoke e w).2 = w_self w ∧
  w_ud (invoke e w).2 = w_ud w ∧
  w_heap (invoke e w).2 = w_heap w.
Proof.
  intros Hflag Hgive.
  destruct (wait_until_ready_gives_up (_service_name (w_self w))
              (readiness e) (fresh_log w) Hgive)
    as (w' & Hrun & Hs & Hu & Hh).
  pose proof (quiet_prepare e (fresh_log w)) as Hq.
  assert (prepare e (fresh_log w) = (Stop (Return "aborted"), w')) as Hprep.
  { unfold prepare, bind. rewrite (preempt_gate_clear (fresh_log w) Hflag).
    unfold connect_to_service, bind, get. simpl. by rewrite Hrun. }
  unfold invoke. fold (fresh_log w). rewrite execute_prepare, Hprep.
  rewrite Hprep in Hq. simpl in *.
  split; [reflexivity|]. split; [by apply quiet_fresh_log in Hq|]. done.
Qed.

Lemma giving_up_while_waiting_witness :
  (invoke (mkEnv [Pending false true (Some false); Pending false false None]
             NeverCompletes) plain).1 = Return "aborted".
Proof.
  apply (giving_up_while_waiting
           (mkEnv [Pending false true (Some false); Pending false false None]
              NeverCompletes) plain); reflexivity.
Defined.

(** ** When a call is issued *)

Lemma prepare_next e w w1 :
  prepare e w = (Next tt, w1) →
  _preempt_requested (w_self w) = false ∧
  becomes_ready (readiness e) = true ∧
  _request (w_self w1) ≠ VNone.
Proof.
  unfold prepare, bind.
  destruct (_preempt_requested (w_self w)) eqn:Hflag.
  { rewrite (preempt_gate_set w Hflag). discriminate. }
  rewrite (preempt_gate_clear w Hflag).
  destruct (connect_to_service (readiness e) w) as [[[]|r1] w2] eqn:H1;
    [|discriminate].
  unfold connect_to_service, bind, get in H1.
  apply wait_until_ready_next in H1.
  destruct (build_request w2) as [[[]|r2] w3]; [|discriminate].
  unfold check_request. munfold.
  destruct (decide (_request (w_self w3) = VNone)); [discriminate|].
  by intros [= <-].
Qed.

Lemma call_service_calls sub w :
  ∃ evs,
    w_log (call_service sub w).2 = (w_log w ++ evs)%list ∧
    calls evs = [CallAsync (_request (w_self w)) (payload w (_request (w_self w)))].
Proof.
  unfold call_service, submit_call, register, wait, except_TypeError,
    deliver, _done_cb, store_result, notify. munfold.
  destruct sub as [ex|ex|fields|fields|]; try destruct (decide (ex = TypeError));
    simpl; rewrite <- ?app_assoc; eexists; (split; reflexivity).
Qed.

Lemma execute_calls e w :
  ∃ evs,
    w_log (execute e w).2 = (w_log w ++ evs)%list ∧
    (calls evs = [] ∨
     ∃ w1, prepare e w = (Next tt, w1) ∧
           calls evs = [CallAsync (_request (w_self w1))
                          (payload w1 (_request (w_self w1)))]).
Proof.
  rewrite execute_prepare.
  destruct (quiet_prepare e w) as (evs1 & Hlog1 & Hq1).
  apply dispatch_events_nil_calls in Hq1.
  destruct (prepare e w) as [[[]|r1] w1]; simpl in *.
  2:{ exists evs1. split; [exact Hlog1 | by left]. }
  destruct (call_service_calls (submission e) w1) as (evs2 & Hlog2 & Hc2).
  unfold bind.
  destruct (call_service (submission e) w1) as [[[]|r2] w2]; simpl in *.
  - destruct (quiet_handle_response w2) as (evs3 & Hlog3 & Hq3).
    apply dispatch_events_nil_calls in Hq3.
    exists (evs1 ++ evs2 ++ evs3)%list.
    split; [by rewrite Hlog3, Hlog2, Hlog1, <- !app_assoc|].
    right. exists w1. split; [reflexivity|].
    unfold calls in *. rewrite !List.filter_app, Hq1, Hc2, Hq3. reflexivity.
  - exists (evs1 ++ evs2)%list.
    split; [by rewrite Hlog2, Hlog1, <- !app_assoc|].
    right. exists w1. split; [reflexivity|].
    unfold calls in *. rewrite !List.filter_app, Hq1, Hc2. reflexivity.
Qed.

(** X2.  One invocation issues at most one remote call. *)
Theorem at_most_one_call (e : env) (w : world) :
  (length (calls (w_log (invoke e w).2)) ≤ 1)%nat.
Proof.
  rewrite invoke_world.
  destruct (execute_calls e (fresh_log w)) as (evs & Hlog & [Hc|(w1 & _ & Hc)]);
    rewrite Hlog; simpl; rewrite Hc; simpl; lia.
Qed.

(** X3.  A call is issued only when no preemption was pending on entry
    and the service was seen ready, and never with a null request. *)
Theorem call_only_when_ready (e : env) (w : world) (r : value)
    (p : option obj) :
  CallAsync r p ∈ w_log (invoke e w).2 →
  _preempt_requested (w_self w) = false ∧
  becomes_ready (readiness e) = true ∧
  r ≠ VNone.
Proof.
  rewrite invoke_world.
  destruct (execute_calls e (fresh_log w)) as (evs & Hlog & Hc).
  rewrite Hlog. simpl. intros Hin.
  assert (In (CallAsync r p) (calls evs)) as Hcall.
  { apply List.filter_In. split; [by apply list_elem_of_In | reflexivity]. }
  destruct Hc as [Hc|(w1 & Hprep & Hc)]; rewrite Hc in Hcall.
  - destruct Hcall.
  - destruct Hcall as [[= <- _]|[]].
    apply prepare_next in Hprep. exact Hprep.
Qed.

Lemma call_only_when_ready_witness :
  becomes_ready (readiness answered) = true ∧ VRef 0 ≠ VNone.
Proof.
  apply (call_only_when_ready answered plain (VRef 0) (Some sum_request)).
  by_computation.
Defined.

(** ** An acknowledged preemption *)

(** X4.  A preemption pending on entry is consumed by that invocation:
    the next invocation of the state runs as if none had been
    requested. *)
Theorem preemption_is_consumed (e1 e2 : env) (w : world) :
  _preempt_requested (w_self w) = true →
  invoke e2 (invoke e1 w).2 =
  invoke e2 (with_self (set_preempt_requested false) w).
Proof.
  intros Hflag.
  assert ((invoke e1 w).2 =
          with_self (set_preempt_requested false)
            (with_event ServicePreempt
               (with_event
                  (Log Info
                     (PreemptingBeforeRequest (_service_name (w_self w))))
                  (fresh_log w)))) as ->.
  { unfold invoke. fold (fresh_log w). rewrite execute_prepare.
    unfold prepare, bind. by rewrite (preempt_gate_set (fresh_log w) Hflag). }
  reflexivity.
Qed.

Lemma preemption_is_consumed_witness :
  (invoke answered (invoke answered preempt_pending).2).1 = Return "succeeded".
Proof.
  rewrite (preemption_is_consumed answered answered preempt_pending);
    [|reflexivity].
  vm_compute. reflexivity.
Defined.

(** ** The response in the userdata *)

Lemma write_response_slots_all slots w l attrs :
  _response (w_self w) = Some (VRef l) →
  w_heap w !! l = Some attrs →
  Forall (λ key, is_Some (attrs !! key)) slots →
  write_response_slots slots w =
  (Next tt, with_ud (copy_response attrs slots (w_ud w)) w).
Proof.
  revert w. induction slots as [|k slots IH]; intros w Hresp Hobj Hall.
  - simpl. by destruct w.
  - apply Forall_cons in Hall as [[v Hk] Hall].
    simpl. unfold getattr. munfold. rewrite Hresp, Hobj, Hk. simpl.
    rewrite (IH (with_ud (<[k:=v]> (w_ud w)) w)); try done.
Qed.

Lemma copy_response_other attrs slots ud key :
  key ∉ slots → copy_response attrs slots ud !! key = ud !! key.
Proof.
  revert ud. induction slots as [|k slots IH]; intros ud Hnin; [done|].
  apply not_elem_of_cons in Hnin as [Hne Hnin]. simpl.
  rewrite (IH _ Hnin). destruct (attrs !! k); [|done].
  by rewrite lookup_insert_ne.
Qed.

Lemma copy_response_stable attrs slots ud key :
  is_Some (attrs !! key) → ud !! key = attrs !! key →
  copy_response attrs slots ud !! key = attrs !! key.
Proof.
  revert ud. induction slots as [|k slots IH]; intros ud Hsome Hud; [done|].
  simpl. apply IH; [done|].
  destruct (attrs !! k) as [vk|] eqn:Hk; [|done].
  destruct (decide (k = key)) as [->|Hne].
  - by rewrite lookup_insert_eq.
  - by rewrite lookup_insert_ne.
Qed.

Lemma copy_response_lookup attrs slots ud key :
  Forall (λ key, is_Some (attrs !! key)) slots →
  key ∈ slots → copy_response attrs slots ud !! key = attrs !! key.
Proof.
  revert ud. induction slots as [|k slots IH]; intros ud Hall Hin.
  - by apply elem_of_nil in Hin.
  - apply Forall_cons in Hall as [[v Hk] Hall].
    apply elem_of_cons in Hin as [->|Hin].
    + simpl. rewrite Hk. rewrite <- Hk. apply copy_response_stable.
      * by rewrite Hk.
      * by rewrite lookup_insert_eq.
    + simpl. by apply IH.
Qed.

Lemma handle_response_passes w1 o w2 l attrs :
  call_response_cb w1 = (Next o, w2) →
  _response (w_self w2) = Some (VRef l) →
  w_heap w2 !! l = Some attrs →
  Forall (λ key, is_Some (attrs !! key)) (_response_slots (w_self w2)) →
  handle_response w1 =
  (Next (default "succeeded" o),
   with_ud (copy_response attrs (_response_slots (w_self w2))
              (store_response (_response_key (w_self w2)) (VRef l)
                 (w_ud w2))) w2).
Proof.
  intros Hcb Hresp Hobj Hall. unfold handle_response, bind. rewrite Hcb.
  unfold write_response_key. munfold. rewrite Hresp.
  destruct (_response_key (w_self w2)) as [key|]; simpl.
  - rewrite (write_response_slots_all _ _ l attrs); try done.
    unfold resolve, ret. by destruct o.
  - rewrite (write_response_slots_all _ _ l attrs); try done.
    unfold resolve, ret. by destruct o.
Qed.

(** X5.  When the call has completed, the response callback (if any) has
    handed over and the response has every declared slot, [execute]
    returns the callback's label, or 'succeeded' when there is none; the
    userdata then holds the response under the response key and each
    slot's attribute under the slot's key, and is otherwise as the
    callback left it. *)
Theorem response_reaches_userdata (e : env) (w w1 w2 : world)
    (o : option string) (l : loc) (attrs : obj) :
  dispatch e (fresh_log w) = (Next tt, w1) →
  call_response_cb w1 = (Next o, w2) →
  _response (w_self w2) = Some (VRef l) →
  w_heap w2 !! l = Some attrs →
  Forall (λ key, is_Some (attrs !! key)) (_response_slots (w_self w)) →
  (invoke e w).1 = Return (default "succeeded" o) ∧
  (∀ key, _response_key (w_self w) = Some key →
          key ∉ _response_slots (w_self w) →
          w_ud (invoke e w).2 !! key = Some (VRef l)) ∧
  (∀ key, key ∈ _response_slots (w_self w) →
          w_ud (invoke e w).2 !! key = attrs !! key) ∧
  (∀ key, _response_key (w_self w) ≠ Some key →
          key ∉ _response_slots (w_self w) →
          w_ud (invoke e w).2 !! key = w_ud w2 !! key).
Proof.
  intros Hdisp Hcb Hresp Hobj Hall.
  pose proof (frame_dispatch e (fresh_log w)) as [Hcfg1 _].
  pose proof (frame_call_response_cb w1) as [Hcfg2 _].
  rewrite Hdisp in Hcfg1. rewrite Hcb in Hcfg2. simpl in Hcfg1, Hcfg2.
  destruct Hcfg1 as (_ & _ & _ & _ & _ & Hk1 & Hs1 & _).
  destruct Hcfg2 as (_ & _ & _ & _ & _ & Hk2 & Hs2 & _).
  assert (_response_slots (w_self w2) = _response_slots (w_self w)) as Hs
    by congruence.
  assert (_response_key (w_self w2) = _response_key (w_self w)) as Hk
    by congruence.
  rewrite (invoke_dispatched e w w1 Hdisp).
  rewrite (handle_response_passes w1 o w2 l attrs Hcb Hresp Hobj)
    by (by rewrite Hs).
  rewrite Hs, Hk. simpl. split; [reflexivity|]. split; [|split].
  - intros key Hkey Hnin. rewrite copy_response_other by done.
    rewrite Hkey. simpl. apply lookup_insert_eq.
  - intros key Hin. by apply copy_response_lookup.
  - intros key Hkey Hnin. rewrite copy_response_other by done.
    destruct (_response_key (w_self w)) as [k|]; simpl; [|done].
    rewrite lookup_insert_ne; [done|]. congruence.
Qed.

Lemma response_reaches_userdata_witness :
  (invoke answered reporting).1 = Return "done" ∧
  w_ud (invoke answered reporting).2 !! "result" = Some (VRef 1) ∧
  w_ud (invoke answered reporting).2 !! "sum" = Some (VInt 3).
Proof.
  pose (w1 := (dispatch answered (fresh_log reporting)).2).
  destruct (response_reaches_userdata answered reporting w1
              (call_response_cb w1).2 (Some "done") 1 sum_response)
    as (Hr & Hkey & Hslot & _).
  - vm_compute. reflexivity.
  - vm_compute. reflexivity.
  - vm_compute. reflexivity.
  - vm_compute. reflexivity.
  - constructor; [|constructor]. exists (VInt 3). vm_compute. reflexivity.
  - split; [exact Hr|]. split.
    + apply Hkey; [reflexivity|]. by_computation.
    + rewrite (Hslot "sum"); [vm_compute; reflexivity | by_computation].
Defined.

(** ** A null request *)

(** X6.  When the request to send is None once the sources are applied
    (the userdata holds None under the request key, or the state holds
    no request, there is no slot, and the request callback, if any,
    returns None), [execute] logs the error and returns 'aborted'
    without issuing a call. *)
Theorem null_request_aborts (e : env) (w : world) :
  _preempt_requested (w_self w) = false →
  becomes_ready (readiness e) = true →
  request_base w = Some VNone →
  _request_slots (w_self w) = [] →
  (∀ cb, _request_cb (w_self w) = Some cb →
         ∃ ud h, cb (w_ud w) (w_heap w) VNone = CbReturn VNone ud h) →
  (invoke e w).1 = Return "aborted" ∧
  calls (w_log (invoke e w).2) = [] ∧
  Log Error (NoRequest (_service_name (w_self w))) ∈ w_log (invoke e w).2.
Proof.
  intros Hflag Hready Hbase Hslots Hcb.
  destruct (reaches_build_request e (fresh_log w) Hflag Hready)
    as (w1 & Hrun1 & Hs & Hu & Hh).
  simpl in Hs, Hu, Hh.
  pose proof (quiet_prepare e (fresh_log w)) as Hq.
  assert (∃ w', prepare e (fresh_log w) = (Stop (Return "aborted"), w') ∧
                Log Error (NoRequest (_service_name (w_self w))) ∈ w_log w')
    as (w' & Hprep & Hlog).
  { unfold prepare. unfold bind in Hrun1 |- *.
    destruct (preempt_gate (fresh_log w)) as [[[]|r0] w0]; [|discriminate].
    rewrite Hrun1. unfold build_request, bind.
    rewrite (grab_request_key_base w1 VNone)
      by (unfold request_base in *; by rewrite Hs, Hu).
    unfold get. cbn [w_self with_self _request_slots set_request].
    rewrite Hs, Hslots. simpl.
    unfold call_request_cb, check_request. munfold. rewrite Hs.
    destruct (_request_cb (w_self w)) as [cb|] eqn:Hrcb; simpl.
    - rewrite Hu, Hh. destruct (Hcb cb eq_refl) as (ud & h & ->). simpl.
      eexists. split; [reflexivity|]. simpl. rewrite Hs. apply elem_of_snoc.
    - eexists. split; [reflexivity|]. simpl. rewrite Hs. apply elem_of_snoc. }
  unfold invoke. fold (fresh_log w).
  rewrite execute_prepare, Hprep. rewrite Hprep in Hq. simpl in *.
  split; [reflexivity|]. split; [by apply quiet_fresh_log in Hq | done].
Qed.

Lemma null_request_aborts_witness :
  (invoke answered null_goal).1 = Return "aborted" ∧
  calls (w_log (invoke answered null_goal).2) = [].
Proof.
  destruct (null_request_aborts answered null_goal) as (Hr & Hc & _).
  - reflexivity.
  - reflexivity.
  - vm_compute. reflexivity.
  - reflexivity.
  - intros cb Hcb. discriminate Hcb.
  - by split.
Defined.

(** ** A call with nothing configured *)

Lemma build_request_nothing w :
  _request_key (w_self w) = None →
  _request_slots (w_self w) = [] →
  _request_cb (w_self w) = None →
  build_request w = (Next tt, w).
Proof.
  intros Hkey Hslots Hcb.
  unfold build_request, grab_request_key, call_request_cb. munfold.
  rewrite Hkey. simpl. rewrite Hslots. simpl. by rewrite Hcb.
Qed.

Lemma check_request_next w :
  _request (w_self w) ≠ VNone → check_request w = (Next tt, w).
Proof.
  intros Hreq. unfold check_request. munfold.
  by destruct (decide (_request (w_self w) = VNone)).
Qed.

Lemma handle_response_nothing w :
  _response_cb (w_self w) = None →
  _response_key (w_self w) = None →
  _response_slots (w_self w) = [] →
  handle_response w = (Next "succeeded", w).
Proof.
  intros Hcb Hkey Hslots.
  unfold handle_response, call_response_cb, write_response_key, resolve.
  munfold. rewrite Hcb. simpl. rewrite Hkey. simpl. by rewrite Hslots.
Qed.

(** X7.  With a request and nothing else configured (no request key,
    slot or callback, no response callback, key or slot), an invocation
    that finds the service ready and gets an answer returns 'succeeded';
    the userdata and the stored request are as before, the response is
    a new object holding the answer, and no other object changes. *)
Theorem plain_call_succeeds (e : env) (w : world) (fields : obj) :
  _preempt_requested (w_self w) = false →
  becomes_ready (readiness e) = true →
  submission e = Completes fields →
  _request_key (w_self w) = None →
  _request_slots (w_self w) = [] →
  _request_cb (w_self w) = None →
  _request (w_self w) ≠ VNone →
  _response_cb (w_self w) = None →
  _response_key (w_self w) = None →
  _response_slots (w_self w) = [] →
  let l := fresh (dom (w_heap w)) in
  (invoke e w).1 = Return "succeeded" ∧
  w_ud (invoke e w).2 = w_ud w ∧
  _request (w_self (invoke e w).2) = _request (w_self w) ∧
  _response (w_self (invoke e w).2) = Some (VRef l) ∧
  w_heap (invoke e w).2 = <[l := fields]> (w_heap w) ∧
  w_heap w !! l = None.
Proof.
  intros Hflag Hready Hsub Hkey Hslots Hrcb Hreq Hpcb Hpkey Hpslots l.
  destruct (reaches_build_request e (fresh_log w) Hflag Hready)
    as (w1 & Hrun1 & Hs & Hu & Hh).
  simpl in Hs, Hu, Hh.
  destruct (call_service_completes fields w1) as (w2 & Hcall & Hs2 & Hu2 & Hh2).
  unfold invoke. fold (fresh_log w). unfold execute.
  unfold bind in Hrun1 |- *.
  destruct (preempt_gate (fresh_log w)) as [[[]|r0] w0]; [|discriminate].
  rewrite Hrun1.
  rewrite (build_request_nothing w1) by (by rewrite Hs).
  rewrite (check_request_next w1) by (by rewrite Hs).
  rewrite Hsub, Hcall.
  rewrite (handle_response_nothing w2) by (by rewrite Hs2, Hs).
  simpl. rewrite Hs2, Hu2, Hh2, Hs, Hu, Hh. repeat split.
  apply not_elem_of_dom. apply is_fresh.
Qed.

Lemma plain_call_succeeds_witness :
  (invoke answered plain).1 = Return "succeeded" ∧
  w_ud (invoke answered plain).2 = w_ud plain.
Proof.
  destruct (plain_call_succeeds answered plain sum_response)
    as (Hr & Hu & _); try reflexivity; [discriminate|].
  by split.
Defined.

(** ** What [execute] writes to the userdata *)

Lemma callbacks_keep_userdata_config s s' :
  same_config s s' → callbacks_keep_userdata s → callbacks_keep_userdata s'.
Proof.
  intros (_ & Hr & _ & _ & Hp & _) [H1 H2]. split; intros cb Hcb.
  - apply H1. congruence.
  - apply H2. congruence.
Qed.

Lemma leaves_userdata_refl w : leaves_userdata w w.
Proof. intros _. split; [apply frame_refl | reflexivity]. Qed.

Lemma leaves_userdata_trans a b c :
  leaves_userdata a b → leaves_userdata b c → leaves_userdata a c.
Proof.
  intros Hab Hbc Hcb. destruct (Hab Hcb) as [Hf1 Hu1].
  destruct Hbc as [Hf2 Hu2].
  { eapply callbacks_keep_userdata_config; [apply Hf1 | exact Hcb]. }
  split; [by eapply frame_trans | congruence].
Qed.

Create HintDb leaves discriminated.

Ltac leaves_tac :=
  preserve leaves_userdata_refl leaves_userdata_trans;
  try match goal with
      | |- leaves_userdata ?w _ =>
          intros _; destruct w; split; [split; [repeat split | reflexivity]|];
          reflexivity
      end;
  eauto with leaves.

Lemma leaves_preempt_gate : preserves leaves_userdata preempt_gate.
Proof.
  unfold preempt_gate, preempt_requested, service_preempt. leaves_tac.
Qed.

Lemma leaves_wait_until_ready name script :
  preserves leaves_userdata (wait_until_ready name script).
Proof.
  induction script as [|p script IH]; simpl; unfold service_preempt;
    leaves_tac.
Qed.
#[local] Hint Resolve leaves_preempt_gate leaves_wait_until_ready : leaves.

Lemma leaves_connect_to_service script :
  preserves leaves_userdata (connect_to_service script).
Proof. unfold connect_to_service. leaves_tac. Qed.

Lemma leaves_grab_request_key : preserves leaves_userdata grab_request_key.
Proof. unfold grab_request_key. leaves_tac. Qed.

Lemma leaves_setattr o name v : preserves leaves_userdata (setattr o name v).
Proof. unfold setattr. leaves_tac. Qed.
#[local] Hint Resolve leaves_connect_to_service leaves_grab_request_key
  leaves_setattr : leaves.

Lemma leaves_write_request_slots slots :
  preserves leaves_userdata (write_request_slots slots).
Proof. induction slots as [|key slots IH]; simpl; leaves_tac. Qed.

Lemma leaves_call_request_cb : preserves leaves_userdata call_request_cb.
Proof.
  intros w [Hcb _]. unfold call_request_cb. munfold.
  destruct (_request_cb (w_self w)) as [cb|] eqn:Hrcb;
    [|split; [apply frame_refl | reflexivity]].
  specialize (Hcb cb eq_refl (w_ud w) (w_heap w) (_request (w_self w))).
  destruct (cb (w_ud w) (w_heap w) (_request (w_self w)))
    as [update ud h|ex ud h]; subst ud; simpl.
  - destruct (decide (update = VNone)); destruct w as [[] ? ? ? ?];
      simpl; (split; [split; [repeat split | reflexivity] | reflexivity]).
  - destruct w; simpl.
    split; [split; [repeat split | reflexivity] | reflexivity].
Qed.
#[local] Hint Resolve leaves_write_request_slots leaves_call_request_cb
  : leaves.

Lemma leaves_build_request : preserves leaves_userdata build_request.
Proof. unfold build_request. leaves_tac. Qed.

Lemma leaves_check_request : preserves leaves_userdata check_request.
Proof. unfold check_request. leaves_tac. Qed.
#[local] Hint Resolve leaves_build_request leaves_check_request : leaves.

Lemma leaves_prepare e : preserves leaves_userdata (prepare e).
Proof. unfold prepare. leaves_tac. Qed.

Lemma leaves_call_service sub : preserves leaves_userdata (call_service sub).
Proof.
  intros w _. pose proof (frame_call_service sub w) as Hf.
  split; [exact Hf|].
  unfold call_service, submit_call, register, wait, except_TypeError,
    deliver, _done_cb, store_result, notify. munfold.
  destruct sub as [ex|ex|fields|fields|]; try destruct (decide (ex = TypeError));
    reflexivity.
Qed.
#[local] Hint Resolve leaves_prepare leaves_call_service : leaves.

Lemma leaves_dispatch e : preserves leaves_userdata (dispatch e).
Proof. unfold dispatch. leaves_tac. Qed.

Lemma leaves_call_response_cb : preserves leaves_userdata call_response_cb.
Proof.
  intros w [_ Hcb]. pose proof (frame_call_response_cb w) as Hf.
  split; [exact Hf|].
  unfold call_response_cb, except_all. munfold.
  destruct (_response_cb (w_self w)) as [cb|] eqn:Hrcb; [|reflexivity].
  destruct (_response (w_self w)) as [response|]; [|reflexivity].
  specialize (Hcb cb eq_refl (w_ud w) (w_heap w) response).
  destruct (cb (w_ud w) (w_heap w) response) as [label ud h|ex ud h];
    subst ud; simpl; [|reflexivity].
  destruct label as [|label|z|l]; simpl; try reflexivity.
  by destruct (decide (label ∈ _outcomes (w_self w))).
Qed.

Lemma write_response_key_other w key :
  _response_key (w_self w) ≠ Some key →
  w_ud (write_response_key w).2 !! key = w_ud w !! key.
Proof.
  intros Hkey. unfold write_response_key. munfold.
  destruct (_response_key (w_self w)) as [k|]; [|reflexivity].
  destruct (_response (w_self w)); simpl; [|reflexivity].
  rewrite lookup_insert_ne; [done|]. congruence.
Qed.

Lemma write_response_slots_other slots w key :
  key ∉ slots →
  w_ud (write_response_slots slots w).2 !! key = w_ud w !! key.
Proof.
  revert w. induction slots as [|k slots IH]; intros w Hnin; [done|].
  apply not_elem_of_cons in Hnin as [Hne Hnin].
  simpl. unfold getattr. munfold.
  destruct (_response (w_self w)) as [[| | |l]|]; try reflexivity.
  destruct (w_heap w !! l) as [attrs|]; [|reflexivity].
  destruct (attrs !! k) as [v|]; simpl; [|reflexivity].
  rewrite (IH _ Hnin). simpl. by rewrite lookup_insert_ne.
Qed.

Lemma handle_response_other w key :
  callbacks_keep_userdata (w_self w) →
  ¬ is_output_key (w_self w) key →
  w_ud (handle_response w).2 !! key = w_ud w !! key.
Proof.
  intros Hcb Hkey.
  destruct (leaves_call_response_cb w Hcb) as [[Hcfg _] Hud].
  unfold handle_response, bind.
  destruct (call_response_cb w) as [[o|r] w1]; simpl in *; [|by rewrite Hud].
  destruct Hcfg as (_ & _ & _ & _ & _ & Hk & Hs & _).
  pose proof (write_response_key_other w1 key) as Hkeep.
  pose proof (frame_write_response_key w1) as [Hcfg2 _].
  destruct (write_response_key w1) as [[[]|r] w2]; simpl in *.
  - destruct Hcfg2 as (_ & _ & _ & _ & _ & _ & Hs2 & _).
    unfold get.
    pose proof (write_response_slots_other (_response_slots (w_self w2))
                  w2 key) as Hslots.
    destruct (write_response_slots (_response_slots (w_self w2)) w2)
      as [[[]|r] w3]; simpl in *.
    + unfold resolve, ret. destruct o; simpl; rewrite Hslots, Hkeep, Hud;
        try done; try (rewrite Hk; intros ?; apply Hkey; by left);
        rewrite Hs2, Hs; intros ?; apply Hkey; by right.
    + rewrite Hslots, Hkeep, Hud; try done;
        try (rewrite Hk; intros ?; apply Hkey; by left);
        rewrite Hs2, Hs; intros ?; apply Hkey; by right.
  - rewrite Hkeep, Hud; [done|].
    rewrite Hk. intros ?. apply Hkey. by left.
Qed.

Lemma invoke_other_keys e w key :
  callbacks_keep_userdata (w_self w) →
  ¬ is_output_key (w_self w) key →
  w_ud (invoke e w).2 !! key = w_ud w !! key.
Proof.
  intros Hcb Hkey. rewrite invoke_world, execute_dispatch.
  destruct (leaves_dispatch e (fresh_log w) Hcb) as [[Hcfg _] Hud].
  destruct (dispatch e (fresh_log w)) as [[[]|r] w1]; simpl in *;
    [|by rewrite Hud].
  rewrite handle_response_other.
  - by rewrite Hud.
  - by eapply callbacks_keep_userdata_config.
  - destruct Hcfg as (_ & _ & _ & _ & _ & Hk & Hs & _).
    unfold is_output_key. by rewrite Hk, Hs.
Qed.

(** X8.  When the callbacks do not write the userdata, [execute] changes
    it at the response key and at the response slots only, whatever the
    way the invocation ends. *)
Theorem userdata_written_at_outputs_only (e : env) (w : world)
    (key : string) :
  callbacks_keep_userdata (w_self w) →
  ¬ is_output_key (w_self w) key →
  w_ud (invoke e w).2 !! key = w_ud w !! key.
Proof. apply invoke_other_keys. Qed.

Lemma userdata_written_at_outputs_only_witness :
  w_ud (invoke answered (with_ud {[ "note" := VInt 7 ]} reporting)).2
    !! "note" = Some (VInt 7).
Proof.
  rewrite (userdata_written_at_outputs_only answered
             (with_ud {[ "note" := VInt 7 ]} reporting) "note").
  - vm_compute. reflexivity.
  - split; intros cb Hcb; [discriminate Hcb|].
    injection Hcb as <-. intros ud h v. reflexivity.
  - intros [Hkey|Hslot]; [discriminate Hkey|].
    revert Hslot. by_computation.
Defined.

Lemma call_service_next_notifies sub w w' :
  call_service sub w = (Next tt, w') →
  CondNotify (_done_cond (w_self w)) ∈ w_log w'.
Proof.
  unfold call_service, submit_call, register, wait, except_TypeError,
    deliver, _done_cb, store_result, notify. munfold.
  destruct sub as [ex|ex|fields|fields|]; try destruct (decide (ex = TypeError));
    simpl; try discriminate; intros [= <-]; simpl; apply elem_of_snoc.
Qed.

(** X9.  When the callbacks do not write the userdata, an invocation
    whose call did not complete (the done callback never notified)
    leaves the userdata exactly as it was. *)
Theorem userdata_kept_until_completion (e : env) (w : world) :
  callbacks_keep_userdata (w_self w) →
  (∀ c, CondNotify c ∉ w_log (invoke e w).2) →
  w_ud (invoke e w).2 = w_ud w.
Proof.
  intros Hcb. rewrite invoke_world, execute_prepare.
  destruct (leaves_prepare e (fresh_log w) Hcb) as [[Hcfg _] Hud].
  destruct (prepare e (fresh_log w)) as [[[]|r] w1]; simpl in *; [|done].
  unfold bind.
  assert (callbacks_keep_userdata (w_self w1)) as Hcb1
    by (by eapply callbacks_keep_userdata_config).
  destruct (leaves_call_service (submission e) w1 Hcb1) as [_ Hud2].
  pose proof (call_service_next_notifies (submission e) w1) as Hnote.
  destruct (call_service (submission e) w1) as [[[]|r] w2]; simpl in *;
    [|intros _; congruence].
  intros Hnever. exfalso.
  destruct (quiet_handle_response w2) as (evs & Hlog & _).
  apply (Hnever (_done_cond (w_self w1))). rewrite Hlog.
  apply elem_of_app. left. by apply Hnote.
Qed.

Lemma userdata_kept_until_completion_witness :
  w_ud (invoke (call_fails TypeError)
          (with_ud {[ "note" := VInt 7 ]} reporting)).2 =
  {[ "note" := VInt 7 ]}.
Proof.
  rewrite (userdata_kept_until_completion (call_fails TypeError)
             (with_ud {[ "note" := VInt 7 ]} reporting)).
  - reflexivity.
  - split; intros cb Hcb; [discriminate Hcb|].
    injection Hcb as <-. intros ud h v. reflexivity.
  - intros c. by_computation.
Defined.

(** ** Slot copies and the object they are written to *)

Lemma keeps_heap_refl w : keeps_heap w w.
Proof. reflexivity. Qed.

Lemma keeps_heap_trans a b c :
  keeps_heap a b → keeps_heap b c → keeps_heap a c.
Proof. unfold keeps_heap. congruence. Qed.

Create HintDb heap discriminated.

Ltac heap_tac :=
  preserve keeps_heap_refl keeps_heap_trans;
  try match goal with
      | |- keeps_heap ?w _ => destruct w; reflexivity
      end;
  eauto with heap.

Lemma heap_getattr o name : preserves keeps_heap (getattr o name).
Proof. unfold getattr. heap_tac. Qed.

Lemma heap_write_response_key : preserves keeps_heap write_response_key.
Proof. unfold write_response_key. heap_tac. Qed.
#[local] Hint Resolve heap_getattr heap_write_response_key : heap.

Lemma heap_write_response_slots slots :
  preserves keeps_heap (write_response_slots slots).
Proof. induction slots as [|key slots IH]; simpl; heap_tac. Qed.

Lemma heap_handle_response w :
  _response_cb (w_self w) = None → keeps_heap w (handle_response w).2.
Proof.
  intros Hcb. unfold handle_response, bind.
  assert (call_response_cb w = (Next None, w)) as ->
    by (unfold call_response_cb; munfold; by rewrite Hcb).
  pose proof (heap_write_response_key w) as H1.
  destruct (write_response_key w) as [[[]|r] w1]; simpl in *; [|done].
  unfold get.
  pose proof (heap_write_response_slots (_response_slots (w_self w1)) w1)
    as H2.
  destruct (write_response_slots (_response_slots (w_self w1)) w1)
    as [[[]|r] w2]; simpl in *; unfold keeps_heap in *; congruence.
Qed.

Lemma call_service_heap sub w l :
  is_Some (w_heap w !! l) →
  w_heap (call_service sub w).2 !! l = w_heap w !! l.
Proof.
  intros Hl. unfold call_service, submit_call, register, wait, except_TypeError,
    deliver, _done_cb, store_result, notify.
  munfold.
  destruct sub as [ex|ex|fields|fields|]; try destruct (decide (ex = TypeError));
    simpl; try reflexivity;
    apply lookup_insert_ne; intros Heq;
    apply (is_fresh (dom (w_heap w))); rewrite Heq; by apply elem_of_dom.
Qed.

(** X10.  Slot copies are written into the request object itself: when
    the request comes from the userdata (or is the one the state holds),
    the object takes the copies and no callback is configured, the
    object carries the slot values after [execute], however the
    invocation ends once the service is ready. *)
Theorem slot_copies_mutate_request_object (e : env) (w : world) (l : loc)
    (attrs : obj) :
  _preempt_requested (w_self w) = false →
  becomes_ready (readiness e) = true →
  request_base w = Some (VRef l) →
  w_heap w !! l = Some attrs →
  Forall (λ key, is_Some (w_ud w !! key)) (_request_slots (w_self w)) →
  takes attrs (w_ud w) (_request_slots (w_self w)) →
  _request_cb (w_self w) = None →
  _response_cb (w_self w) = None →
  w_heap (invoke e w).2 !! l =
  Some (copy_slots (w_ud w) (_request_slots (w_self w)) attrs).
Proof.
  intros Hflag Hready Hbase Hobj Hall Htakes Hrcb Hpcb.
  destruct (reaches_build_request e (fresh_log w) Hflag Hready)
    as (w1 & Hrun1 & Hs & Hu & Hh).
  simpl in Hs, Hu, Hh.
  set (copied := copy_slots (w_ud w) (_request_slots (w_self w)) attrs).
  set (w2 := with_heap (<[l := copied]> (w_heap w1))
               (with_self (set_request (VRef l)) w1)).
  assert (prepare e (fresh_log w) = (Next tt, w2)) as Hprep.
  { unfold prepare. unfold bind in Hrun1 |- *.
    destruct (preempt_gate (fresh_log w)) as [[[]|r0] w0]; [|discriminate].
    rewrite Hrun1. unfold build_request, bind.
    rewrite (grab_request_key_base w1 (VRef l))
      by (unfold request_base in *; by rewrite Hs, Hu).
    unfold get. cbn [w_self with_self _request_slots set_request].
    rewrite (write_request_slots_all _ (with_self (set_request (VRef l)) w1)
               l attrs eq_refl);
      [|simpl; by rewrite Hh|simpl; by rewrite Hs, Hu
       |simpl; by rewrite Hs, Hu].
    simpl. rewrite Hs, Hu. fold copied. fold w2.
    unfold call_request_cb. munfold. rewrite Hs, Hrcb.
    unfold check_request. munfold. reflexivity. }
  rewrite invoke_world, execute_prepare, Hprep. unfold bind.
  assert (w_heap w2 !! l = Some copied) as Hw2
    by (simpl; apply lookup_insert_eq).
  assert (w_heap (call_service (submission e) w2).2 !! l = Some copied)
    as Hcall
    by (rewrite call_service_heap; [exact Hw2 | by rewrite Hw2]).
  assert (_response_cb (w_self (call_service (submission e) w2).2) = None)
    as Hcb3.
  { destruct (frame_call_service (submission e) w2)
      as [(_ & _ & _ & _ & -> & _) _]. simpl. by rewrite Hs. }
  destruct (call_service (submission e) w2) as [[[]|r] w3];
    cbn [fst snd] in Hcall, Hcb3 |- *; [|exact Hcall].
  pose proof (heap_handle_response w3 Hcb3) as Hkeep.
  destruct (handle_response w3) as [x w4]. cbn [fst snd] in Hkeep |- *.
  unfold keeps_heap in Hkeep.
  replace (w_heap (finish (x, w4) Return).2) with (w_heap w4)
    by (by destruct x).
  by rewrite Hkeep.
Qed.

Lemma slot_copies_mutate_request_object_witness :
  w_heap (invoke answered ordered).2 !! 1 =
  Some (<["a" := VInt 5]> goal_request).
Proof.
  etrans;
    [apply (slot_copies_mutate_request_object answered ordered 1
              goal_request)|].
  - reflexivity.
  - reflexivity.
  - vm_compute. reflexivity.
  - vm_compute. reflexivity.
  - constructor; [|constructor]. exists (VInt 5). vm_compute. reflexivity.
  - intros key v Hin Hv.
    apply elem_of_cons in Hin as [->|Hin]; [|by apply elem_of_nil in Hin].
    injection Hv as <-. vm_compute. reflexivity.
  - reflexivity.
  - reflexivity.
  - vm_compute. reflexivity.
Defined.

(** ** The labels [execute] returns *)

Lemma call_response_cb_flow w :
  match (call_response_cb w).1 with
  | Next (Some label) => label ∈ _outcomes (w_self w)
  | Next None => True
  | Stop (Return x) => x = "aborted"
  | Stop _ => True
  end.
Proof.
  unfold call_response_cb, except_all. munfold.
  destruct (_response_cb (w_self w)) as [cb|]; [|done].
  destruct (_response (w_self w)) as [response|]; [|done].
  destruct (cb (w_ud w) (w_heap w) response) as [[|label|z|l] ud h|ex ud h];
    simpl; try done.
  by destruct (decide (label ∈ _outcomes (w_self w))).
Qed.

Lemma write_response_key_flow w :
  match (write_response_key w).1 with
  | Stop (Return _) => False
  | _ => True
  end.
Proof.
  unfold write_response_key. munfold.
  by destruct (_response_key (w_self w)), (_response (w_self w)).
Qed.

Lemma handle_response_flow w :
  match (handle_response w).1 with
  | Next label => label ∈ _outcomes (w_self w) ∨ label = "succeeded"
  | Stop (Return x) => x = "aborted"
  | Stop _ => True
  end.
Proof.
  unfold handle_response, bind.
  pose proof (call_response_cb_flow w) as Hcb.
  destruct (call_response_cb w) as [[o|r] w1]; simpl in *; [|exact Hcb].
  pose proof (write_response_key_flow w1) as Hkey.
  destruct (write_response_key w1) as [[[]|r] w2]; simpl in *;
    [|by destruct r].
  unfold get.
  destruct (write_response_slots (_response_slots (w_self w2)) w2)
    as [[[]|r] w3] eqn:Hslots; simpl.
  - unfold resolve, ret. destruct o; simpl; [by left | by right].
  - by rewrite (write_response_slots_stops _ _ _ _ Hslots).
Qed.

Lemma returned_label_registered e w label :
  base_outcomes ⊆ _outcomes (w_self w) →
  (invoke e w).1 = Return label →
  label ∈ _outcomes (w_self w).
Proof.
  intros Hbase.
  assert ("aborted" ∈ _outcomes (w_self w)) as Ha
    by (apply Hbase; unfold base_outcomes; set_solver).
  assert ("preempted" ∈ _outcomes (w_self w)) as Hp
    by (apply Hbase; unfold base_outcomes; set_solver).
  assert ("succeeded" ∈ _outcomes (w_self w)) as Hs
    by (apply Hbase; unfold base_outcomes; set_solver).
  unfold invoke. fold (fresh_log w). rewrite execute_prepare.
  destruct (prepare e (fresh_log w)) as [[[]|r1] w1] eqn:H1.
  2:{ simpl. intros ->.
      destruct (prepare_stops _ _ _ _ H1)
        as [[= ->]|[[= ->]|[[? _]|(? & ? & _)]]];
        done. }
  pose proof (frame_prepare e (fresh_log w)) as [Hc1 _].
  rewrite H1 in Hc1. simpl in Hc1. unfold bind.
  pose proof (frame_call_service (submission e) w1) as [Hc2 _].
  destruct (call_service (submission e) w1) as [[[]|r2] w2] eqn:H2;
    simpl in Hc2.
  2:{ simpl. intros ->.
      destruct (call_service_stops _ _ _ _ H2)
        as [[= ->]|[(? & ? & _)|[? _]]]; done. }
  assert (_outcomes (w_self w2) = _outcomes (w_self w)) as Hout.
  { destruct Hc1 as (_&_&_&_&_&_&_&Ho1&_).
    destruct Hc2 as (_&_&_&_&_&_&_&Ho2&_). simpl in Ho1. congruence. }
  pose proof (handle_response_flow w2) as Hh.
  destruct (handle_response w2) as [[x|r3] w3]; simpl in *.
  - intros [= <-]. destruct Hh as [Hh| ->]; [by rewrite <- Hout | done].
  - intros ->. by rewrite Hh.
Qed.

Lemma invoke_keeps_outcomes e w :
  _outcomes (w_self (invoke e w).2) = _outcomes (w_self w).
Proof.
  rewrite invoke_world.
  by destruct (frame_execute e (fresh_log w)) as [(_&_&_&_&_&_&_&->&_) _].
Qed.

Lemma invocations_return_registered todo w :
  base_outcomes ⊆ _outcomes (w_self w) →
  Forall (λ r, ∀ label, r = Return label → label ∈ _outcomes (w_self w))
         (invocations todo w).1.
Proof.
  revert w. induction todo as [|i todo IH]; intros w Hbase; simpl.
  - constructor.
  - pose proof (returned_label_registered (i_env i) (enter i w)) as Hone.
    pose proof (invoke_keeps_outcomes (i_env i) (enter i w)) as Hkeep.
    destruct (invoke (i_env i) (enter i w)) as [r w1]. simpl in *.
    specialize (IH w1). rewrite Hkeep in IH.
    destruct (invocations todo w1) as [rs w2]. simpl in *.
    constructor.
    + intros label ->. by apply Hone.
    + by apply IH.
Qed.

Lemma new_ServiceState_outcomes c h n self ins outs h' n' :
  new_ServiceState c h n = Constructed self ins outs h' n' →
  _outcomes self = declared_outcomes c ∧
  ins = declared_input_keys c ∧ outs = declared_output_keys c ∧
  _request_cb self = callable (c_request_cb c) ∧
  _response_cb self = callable (c_response_cb c) ∧
  _response_key self = c_response_key c ∧
  _response_slots self = c_response_slots c.
Proof.
  unfold new_ServiceState, __init__.
  destruct (not_callable (c_request_cb c)); [discriminate|].
  destruct (not_callable (c_response_cb c)); [discriminate|].
  simpl. destruct (c_request c); intros [= <- <- <- _ _]; done.
Qed.

(** X11.  A state the constructor delivers only ever returns declared
    labels: over any sequence of invocations, every label [execute]
    returns is 'succeeded', 'aborted' or 'preempted', a label the
    response callback registered through its interface, or one of the
    [outcomes] argument. *)
Theorem returned_labels_are_declared (c : constructor_arguments)
    (h h' : heap) (n n' : nat) (self : ServiceState)
    (ins outs : gset string) (todo : list invocation) (ud : userdata) :
  new_ServiceState c h n = Constructed self ins outs h' n' →
  Forall (λ r, ∀ label, r = Return label → label ∈ declared_outcomes c)
         (invocations todo (mkWorld self ud h' n' [])).1.
Proof.
  intros Hnew.
  destruct (new_ServiceState_outcomes _ _ _ _ _ _ _ _ Hnew) as (Hout & _).
  rewrite <- Hout.
  apply (invocations_return_registered todo (mkWorld self ud h' n' [])).
  simpl. rewrite Hout. unfold declared_outcomes.
  intros label Hlabel. apply elem_of_union. left. apply elem_of_union.
  by left.
Qed.

Lemma returned_labels_are_declared_witness :
  (invocations retrying_twice (construct (to_arguments retrying))).1 =
  [Return "retry"; Return "preempted"] ∧
  Forall (λ r, ∀ label, r = Return label → label ∈ declared_outcomes retrying)
         (invocations retrying_twice (construct (to_arguments retrying))).1.
Proof.
  split; [vm_compute; reflexivity|].
  apply (returned_labels_are_declared retrying ∅
           (w_heap (construct (to_arguments retrying))) 0
           (w_conds (construct (to_arguments retrying)))
           (w_self (construct (to_arguments retrying)))
           (declared_input_keys retrying) (declared_output_keys retrying)
           retrying_twice ∅).
  reflexivity.
Defined.

(** ** Declared output keys *)

Lemma key_set_elem key k : key = Some k → k ∈ key_set key.
Proof. intros ->. simpl. by apply elem_of_singleton. Qed.

(** X12.  A state the constructor delivers, whose callbacks do not write
    the userdata, writes declared output keys only: every other key of
    the userdata is after [execute] what it was before. *)
Theorem writes_stay_within_declared_outputs (c : constructor_arguments)
    (h h' : heap) (n n' : nat) (self : ServiceState)
    (ins outs : gset string) (e : env) (w : world) (b : bool)
    (key : string) :
  new_ServiceState c h n = Constructed self ins outs h' n' →
  w_self w = set_preempt_requested b self →
  callbacks_keep_userdata self →
  key ∉ outs →
  w_ud (invoke e w).2 !! key = w_ud w !! key.
Proof.
  intros Hnew Hself Hcb Hkey.
  destruct (new_ServiceState_outcomes _ _ _ _ _ _ _ _ Hnew)
    as (_ & _ & -> & _ & _ & Hk & Hs).
  apply invoke_other_keys; rewrite Hself.
  - destruct Hcb as [H1 H2]. split; intros cb Hc; [by apply H1 | by apply H2].
  - intros [Hrk|Hslot]; apply Hkey; simpl in *; unfold declared_output_keys.
    + apply elem_of_union. left. apply elem_of_union. right.
      apply key_set_elem. congruence.
    + apply elem_of_union. right. apply elem_of_list_to_set. congruence.
Qed.

Lemma writes_stay_within_declared_outputs_witness :
  w_ud (invoke answered
          (with_ud {[ "a" := VInt 7 ]} (construct (to_arguments declaring)))).2
    !! "a" = Some (VInt 7).
Proof.
  etrans;
    [apply (writes_stay_within_declared_outputs declaring ∅
              (w_heap (construct (to_arguments declaring))) 0
              (w_conds (construct (to_arguments declaring)))
              (w_self (construct (to_arguments declaring)))
              (declared_input_keys declaring) (declared_output_keys declaring)
              answered _ false "a")|].
  - reflexivity.
  - reflexivity.
  - split; intros cb Hcb; [discriminate Hcb|].
    injection Hcb as <-. intros ud hp v. reflexivity.
  - by_computation.
  - vm_compute. reflexivity.
Defined.

(** * Further properties of the hand-over *)

Lemma bridge_exclusion inline fields w b :
  bridge_inv inline fields w b →
  (waiter_holds_lock b && dispatcher_inside (b_dispatcher b) = false) ∧
  (dispatcher_inside (b_dispatcher b) = true → b_waiter b = WWaiting) ∧
  (resumed (b_waiter b) = true → inline = false ∧ b_dispatcher b = DLeft).
Proof.
  intros Hinv. bridge_cases Hinv b w inline.
  all: split; [reflexivity|]; split; intros H; try discriminate H; done.
Qed.

(** X13.  In every interleaving the waiter does not hold the lock of the
    condition while the done callback run by the executor's thread is
    inside its [with self._done_cond:] block: that callback is inside
    only while the waiter is inside [wait()], and [wait()] does not
    return before the callback has left its block.  When
    [add_done_callback] runs the callback itself, [wait()] does not
    return at all. *)
Theorem done_callback_excludes_waiter (inline : bool) (fields : obj)
    (w : world) (schedule : list thread) (b : bridge) :
  bridge_run inline fields schedule (bridge_init w) = Some b →
  (waiter_holds_lock b && dispatcher_inside (b_dispatcher b) = false) ∧
  (dispatcher_inside (b_dispatcher b) = true → b_waiter b = WWaiting) ∧
  (resumed (b_waiter b) = true → inline = false ∧ b_dispatcher b = DLeft).
Proof.
  intros Hrun. apply (bridge_exclusion inline fields w).
  by destruct (bridge_run_inv inline fields w schedule (bridge_init w) b
                 (bridge_inv_init inline fields w) Hrun).
Qed.

Lemma done_callback_excludes_waiter_witness :
  ∃ b, bridge_run false sum_response
         [Waiter; Waiter; Dispatcher; Waiter; Waiter; Dispatcher]
         (bridge_init (at_call answered plain)) = Some b ∧
       b_dispatcher b = DLocked ∧
       b_waiter b = WWaiting ∧
       waiter_holds_lock b = false.
Proof.
  destruct (bridge_run false sum_response
              [Waiter; Waiter; Dispatcher; Waiter; Waiter; Dispatcher]
              (bridge_init (at_call answered plain))) as [b|] eqn:Hrun;
    [|by vm_compute in Hrun].
  destruct (done_callback_excludes_waiter false sum_response
              (at_call answered plain) _ b Hrun) as (Hex & Hin & _).
  assert (b_dispatcher b = DLocked) as Hd.
  { revert Hrun. vm_compute. by intros [= <-]. }
  exists b. split; [reflexivity|]. split; [exact Hd|].
  split; [apply Hin; by rewrite Hd|].
  rewrite Hd in Hex. simpl in Hex. by rewrite andb_true_r in Hex.
Defined.

Lemma stored_at_step inline fields w t b b' :
  bridge_inv inline fields w b →
  bridge_step inline fields t b = Some b' →
  stored_at inline (b_waiter b) (b_dispatcher b) = true →
  stored_at inline (b_waiter b') (b_dispatcher b') = true.
Proof.
  intros Hinv Hstep. bridge_cases Hinv b w inline.
  all: destruct t; try discriminate Hstep.
  all: simpl in Hstep.
  all: injection Hstep as <-; simpl; done.
Qed.

Lemma stored_at_run inline fields w schedule b b' :
  bridge_inv inline fields w b →
  bridge_run inline fields schedule b = Some b' →
  stored_at inline (b_waiter b) (b_dispatcher b) = true →
  stored_at inline (b_waiter b') (b_dispatcher b') = true.
Proof.
  revert b. induction schedule as [|t schedule IH]; intros b Hinv; simpl.
  - by intros [= <-].
  - destruct (bridge_step inline fields t b) as [b1|] eqn:Hstep;
      [|discriminate].
    intros Hrun Hst.
    apply (IH b1 (bridge_inv_step _ _ _ _ _ _ Hinv Hstep) Hrun).
    by eapply stored_at_step.
Qed.

Lemma bridge_response inline fields w b :
  bridge_inv inline fields w b →
  _response (w_self (b_world b)) =
  if stored_at inline (b_waiter b) (b_dispatcher b)
  then Some (VRef (fresh (dom (w_heap w))))
  else _response (w_self w).
Proof.
  intros Hinv. bridge_cases Hinv b w inline.
  all: reflexivity.
Qed.

(** X14.  The done callback is the only writer of the stored response:
    in every interleaving [self._response] is what the invocation found
    (the response of an earlier invocation, or nothing) until line 240
    has run, and the result of the future from then on, whatever steps
    follow. *)
Theorem response_is_written_once (inline : bool) (fields : obj) (w : world)
    (before after : list thread) (b1 b2 : bridge) :
  bridge_run inline fields before (bridge_init w) = Some b1 →
  bridge_run inline fields after b1 = Some b2 →
  _response (w_self (b_world b1)) =
  (if stored_at inline (b_waiter b1) (b_dispatcher b1)
   then Some (VRef (fresh (dom (w_heap w))))
   else _response (w_self w)) ∧
  (stored_at inline (b_waiter b1) (b_dispatcher b1) = true →
   _response (w_self (b_world b2)) = Some (VRef (fresh (dom (w_heap w))))).
Proof.
  intros Hrun1 Hrun2.
  destruct (bridge_run_inv inline fields w before (bridge_init w) b1
              (bridge_inv_init inline fields w) Hrun1) as [Hinv1 _].
  destruct (bridge_run_inv inline fields w after b1 b2 Hinv1 Hrun2)
    as [Hinv2 _].
  split; [exact (bridge_response inline fields w b1 Hinv1)|].
  intros Hst. rewrite (bridge_response inline fields w b2 Hinv2).
  by rewrite (stored_at_run inline fields w after b1 b2 Hinv1 Hrun2 Hst).
Qed.

Lemma response_is_written_once_witness :
  ∃ b1 b2,
    bridge_run false sum_response
      [Waiter; Waiter; Dispatcher; Waiter; Waiter; Dispatcher]
      (bridge_init (at_call answered (invoke answered plain).2)) = Some b1 ∧
    bridge_run false sum_response [Dispatcher; Dispatcher] b1 = Some b2 ∧
    _response (w_self (b_world b1)) = Some (VRef 1) ∧
    _response (w_self (b_world b2)) = Some (VRef 2).
Proof.
  pose (w := at_call answered (invoke answered plain).2).
  pose (b1 := default (bridge_init w)
                (bridge_run false sum_response
                   [Waiter; Waiter; Dispatcher; Waiter; Waiter; Dispatcher]
                   (bridge_init w))).
  pose (b2 := default b1
                (bridge_run false sum_response [Dispatcher; Dispatcher] b1)).
  assert (bridge_run false sum_response
            [Waiter; Waiter; Dispatcher; Waiter; Waiter; Dispatcher]
            (bridge_init w) = Some b1) as H1 by (vm_compute; reflexivity).
  assert (bridge_run false sum_response [Dispatcher; Dispatcher] b1
          = Some b2) as H2 by (vm_compute; reflexivity).
  assert (bridge_run false sum_response [] b2 = Some b2) as H3
    by reflexivity.
  destruct (response_is_written_once false sum_response w _ _ b1 b2 H1 H2)
    as [Hfound Hthen].
  exists b1, b2. split; [exact H1|]. split; [exact H2|]. split.
  - rewrite Hfound. vm_compute. reflexivity.
  - assert (bridge_run false sum_response
              ([Waiter; Waiter; Dispatcher; Waiter; Waiter; Dispatcher] ++
               [Dispatcher; Dispatcher]) (bridge_init w) = Some b2) as H12
      by (vm_compute; reflexivity).
    destruct (response_is_written_once false sum_response w _ _ b2 b2 H12 H3)
      as [_ Hstays].
    rewrite Hstays; vm_compute; reflexivity.
Defined.

(** * What the outcome depends on *)

Lemma uniform_bind {A B} (m : M A) (k : A → M B) :
  uniform m → (∀ a, uniform (k a)) → uniform (bind m k).
Proof.
  intros Hm Hk w1 w2 Hag. unfold bind.
  destruct (Hm w1 w2 Hag) as [Hflow Hag'].
  destruct (m w1) as [[a1|r1] w1'], (m w2) as [[a2|r2] w2']; simpl in *;
    try discriminate.
  - injection Hflow as <-. by apply Hk.
  - injection Hflow as <-. by split.
Qed.

Ltac same_worlds w1 w2 H :=
  destruct w1 as [?s1 ?u1 ?h1 ?c1 ?l1], w2 as [?s2 ?u2 ?h2 ?c2 ?l2];
  destruct H as (?Hs & ?Hh & ?Hc & ?Hrcb & ?Hpcb & ?Hk);
  simpl in *; subst.

Ltac agreed := repeat split; simpl; try done.

Lemma uniform_preempt_gate : uniform preempt_gate.
Proof.
  intros w1 w2 Hag. same_worlds w1 w2 Hag.
  unfold preempt_gate, preempt_requested, service_preempt. munfold.
  destruct (_preempt_requested s2); simpl; agreed.
Qed.

Lemma uniform_wait_until_ready name script :
  uniform (wait_until_ready name script).
Proof.
  induction script as [|p script IH]; intros w1 w2 Hag.
  - same_worlds w1 w2 Hag. simpl. munfold. agreed.
  - destruct p as [| |[] [] [[]|]]; simpl; unfold service_preempt; munfold;
      try (same_worlds w1 w2 Hag; agreed; fail);
      apply IH; same_worlds w1 w2 Hag; agreed.
Qed.

Lemma uniform_connect_to_service script :
  uniform (connect_to_service script).
Proof.
  intros w1 w2 Hag. unfold connect_to_service, bind, get.
  destruct Hag as (Hs & Hrest). rewrite Hs.
  apply uniform_wait_until_ready. by split.
Qed.

Lemma uniform_grab_request_key : uniform grab_request_key.
Proof.
  intros w1 w2 Hag. same_worlds w1 w2 Hag.
  unfold grab_request_key. munfold.
  destruct (_request_key s2) as [key|] eqn:Hkey; [|agreed].
  rewrite (Hk key) by (by left).
  destruct (u2 !! key); simpl; agreed.
Qed.

Lemma uniform_write_request_slots slots :
  ∀ w1 w2, agree w1 w2 →
    (∀ key, key ∈ slots → key ∈ _request_slots (w_self w1)) →
    (write_request_slots slots w1).1 = (write_request_slots slots w2).1 ∧
    agree (write_request_slots slots w1).2 (write_request_slots slots w2).2.
Proof.
  induction slots as [|k slots IH]; intros w1 w2 Hag Hsub.
  - simpl. by split.
  - simpl. unfold setattr. munfold.
    destruct Hag as (Hs & Hh & Hc & Hrcb & Hpcb & Hk).
    rewrite (Hk k) by (right; apply Hsub; apply elem_of_cons; by left).
    rewrite <- Hs.
    destruct (w_ud w2 !! k) as [v|]; simpl.
    + destruct (_request (w_self w1)) as [| | |l]; simpl;
        try (split; [reflexivity | by repeat split]).
      rewrite <- Hh.
      destruct (w_heap w1 !! l) as [attrs|]; simpl;
        [|split; [reflexivity | by repeat split]].
      destruct (refuses attrs k v) as [ex|]; simpl;
        [split; [reflexivity | by repeat split]|].
      apply IH.
      * repeat split; simpl; try done; by rewrite Hh.
      * intros key Hin. simpl. apply Hsub. apply elem_of_cons. by right.
    + split; [reflexivity | by repeat split].
Qed.

Lemma uniform_build_request : uniform build_request.
Proof.
  unfold build_request. apply uniform_bind; [apply uniform_grab_request_key|].
  intros _. apply uniform_bind.
  - intros w1 w2 Hag. unfold bind, get.
    destruct Hag as (Hs & Hrest). rewrite <- Hs.
    apply uniform_write_request_slots; [by split | done].
  - intros _ w1 w2 Hag. same_worlds w1 w2 Hag.
    unfold call_request_cb. munfold. rewrite Hrcb. agreed.
Qed.

Lemma uniform_check_request : uniform check_request.
Proof.
  intros w1 w2 Hag. same_worlds w1 w2 Hag. unfold check_request. munfold.
  destruct (decide (_request s2 = VNone)); simpl; agreed.
Qed.

Lemma uniform_call_service sub : uniform (call_service sub).
Proof.
  intros w1 w2 Hag. same_worlds w1 w2 Hag.
  unfold call_service, submit_call, register, wait, except_TypeError,
    deliver, _done_cb, store_result, notify. munfold.
  destruct sub as [ex|ex|fields|fields|]; try destruct (decide (ex = TypeError));
    simpl; agreed; intros k Hin; apply Hk; destruct s2; exact Hin.
Qed.

Lemma uniform_call_response_cb : uniform call_response_cb.
Proof.
  intros w1 w2 Hag. same_worlds w1 w2 Hag.
  unfold call_response_cb. munfold. rewrite Hpcb. agreed.
Qed.

Lemma uniform_write_response_key : uniform write_response_key.
Proof.
  intros w1 w2 Hag. same_worlds w1 w2 Hag.
  unfold write_response_key. munfold.
  destruct (_response_key s2) as [key|], (_response s2) as [response|];
    simpl; agreed.
  intros k Hin. destruct (decide (key = k)) as [->|Hne].
  - by rewrite !lookup_insert_eq.
  - rewrite !lookup_insert_ne by done. by apply Hk.
Qed.

Lemma uniform_write_response_slots slots :
  uniform (write_response_slots slots).
Proof.
  induction slots as [|k slots IH]; intros w1 w2 Hag.
  - simpl. by split.
  - same_worlds w1 w2 Hag. unfold getattr. munfold.
    destruct (_response s2) as [[| | |l]|]; simpl;
      try (split; [reflexivity | by repeat split]).
    destruct (h2 !! l) as [attrs|]; simpl;
      [|split; [reflexivity | by repeat split]].
    destruct (attrs !! k) as [v|]; simpl;
      [|split; [reflexivity | by repeat split]].
    apply IH. repeat split; simpl; try done.
    intros key Hin. destruct (decide (k = key)) as [->|Hne].
    + by rewrite !lookup_insert_eq.
    + rewrite !lookup_insert_ne by done. by apply Hk.
Qed.

Lemma uniform_handle_response : uniform handle_response.
Proof.
  unfold handle_response.
  apply uniform_bind; [apply uniform_call_response_cb|]. intros o.
  apply uniform_bind; [apply uniform_write_response_key|]. intros _.
  apply uniform_bind.
  - intros w1 w2 Hag. unfold bind, get.
    pose proof Hag as (Hs & _). rewrite <- Hs.
    by apply uniform_write_response_slots.
  - intros _ w1 w2 Hag. unfold resolve, ret. by destruct o.
Qed.

Lemma uniform_execute e : uniform (execute e).
Proof.
  unfold execute.
  apply uniform_bind; [apply uniform_preempt_gate|]. intros _.
  apply uniform_bind; [apply uniform_connect_to_service|]. intros _.
  apply uniform_bind; [apply uniform_build_request|]. intros _.
  apply uniform_bind; [apply uniform_check_request|]. intros _.
  apply uniform_bind; [apply uniform_call_service|]. intros _.
  apply uniform_handle_response.
Qed.

Lemma invoke_uniform e w ud1 ud2 :
  _request_cb (w_self w) = None →
  _response_cb (w_self w) = None →
  (∀ key, is_input_key (w_self w) key → ud1 !! key = ud2 !! key) →
  (invoke e (with_ud ud1 w)).1 = (invoke e (with_ud ud2 w)).1 ∧
  w_self (invoke e (with_ud ud1 w)).2 = w_self (invoke e (with_ud ud2 w)).2 ∧
  w_heap (invoke e (with_ud ud1 w)).2 = w_heap (invoke e (with_ud ud2 w)).2.
Proof.
  intros Hrcb Hpcb Hkeys.
  destruct (uniform_execute e (fresh_log (with_ud ud1 w))
              (fresh_log (with_ud ud2 w))) as [Hflow (Hs & Hh & _)].
  { by repeat split. }
  unfold invoke. fold (fresh_log (with_ud ud1 w)) (fresh_log (with_ud ud2 w)).
  destruct (execute e (fresh_log (with_ud ud1 w))) as [[x1|r1] w1'],
           (execute e (fresh_log (with_ud ud2 w))) as [[x2|r2] w2'];
    simpl in *; try discriminate; injection Hflow as <-; done.
Qed.

(** X15.  Without callbacks, what [execute] does depends on the userdata
    only through the request key and the request slots: on two userdata
    that agree on these keys it ends the same way, with the same state
    and the same heap. *)
Theorem outcome_depends_on_inputs_only (e : env) (w : world)
    (ud1 ud2 : userdata) :
  _request_cb (w_self w) = None →
  _response_cb (w_self w) = None →
  (∀ key, is_input_key (w_self w) key → ud1 !! key = ud2 !! key) →
  (invoke e (with_ud ud1 w)).1 = (invoke e (with_ud ud2 w)).1 ∧
  w_self (invoke e (with_ud ud1 w)).2 = w_self (invoke e (with_ud ud2 w)).2 ∧
  w_heap (invoke e (with_ud ud1 w)).2 = w_heap (invoke e (with_ud ud2 w)).2.
Proof. apply invoke_uniform. Qed.

Lemma outcome_depends_on_inputs_only_witness :
  (invoke answered (with_ud {[ "goal" := VRef 1; "a" := VInt 5 ]} ordered)).1 =
  (invoke answered
     (with_ud {[ "goal" := VRef 1; "a" := VInt 5; "note" := VInt 7 ]}
        ordered)).1.
Proof.
  apply (outcome_depends_on_inputs_only answered ordered
           {[ "goal" := VRef 1; "a" := VInt 5 ]}
           {[ "goal" := VRef 1; "a" := VInt 5; "note" := VInt 7 ]}).
  - reflexivity.
  - reflexivity.
  - intros key [Hkey|Hslot].
    + injection Hkey as <-. vm_compute. reflexivity.
    + apply elem_of_cons in Hslot as [->|Hslot];
        [vm_compute; reflexivity | by apply elem_of_nil in Hslot].
Defined.

Lemma new_ServiceState_inputs c h n self ins outs h' n' :
  new_ServiceState c h n = Constructed self ins outs h' n' →
  _request_key self = c_request_key c ∧
  _request_slots self = c_request_slots c.
Proof.
  unfold new_ServiceState, __init__.
  destruct (not_callable (c_request_cb c)); [discriminate|].
  destruct (not_callable (c_response_cb c)); [discriminate|].
  simpl. destruct (c_request c); intros [= <- _ _ _ _]; done.
Qed.

(** X16.  For a state constructed without callbacks the declared input
    keys say all that [execute] reads: two invocations on userdata that
    agree on the declared input keys end the same way. *)
Theorem declared_inputs_decide_the_outcome (c : constructor_arguments)
    (h h' : heap) (n n' : nat) (self : ServiceState)
    (ins outs : gset string) (e : env) (w : world) (b : bool)
    (ud1 ud2 : userdata) :
  new_ServiceState c h n = Constructed self ins outs h' n' →
  c_request_cb c = NoCallback →
  c_response_cb c = NoCallback →
  w_self w = set_preempt_requested b self →
  (∀ key, key ∈ ins → ud1 !! key = ud2 !! key) →
  (invoke e (with_ud ud1 w)).1 = (invoke e (with_ud ud2 w)).1.
Proof.
  intros Hnew Hrcb Hpcb Hself Hkeys.
  destruct (new_ServiceState_outcomes _ _ _ _ _ _ _ _ Hnew)
    as (_ & -> & _ & Hr & Hp & _).
  destruct (new_ServiceState_inputs _ _ _ _ _ _ _ _ Hnew) as (Hk & Hs).
  apply invoke_uniform; rewrite Hself; simpl.
  - by rewrite Hr, Hrcb.
  - by rewrite Hp, Hpcb.
  - intros key [Hkey|Hslot]; apply Hkeys; simpl in *;
      unfold declared_input_keys.
    + do 3 (apply elem_of_union; left). apply elem_of_union. right.
      apply key_set_elem. congruence.
    + do 2 (apply elem_of_union; left). apply elem_of_union. right.
      apply elem_of_list_to_set. congruence.
Qed.

Lemma declared_inputs_decide_the_outcome_witness :
  (invoke answered
     (with_ud {[ "goal" := VNone; "a" := VInt 5 ]}
        (construct (to_arguments reading)))).1 =
  (invoke answered
     (with_ud {[ "goal" := VNone; "a" := VInt 5; "note" := VInt 7 ]}
        (construct (to_arguments reading)))).1.
Proof.
  apply (declared_inputs_decide_the_outcome reading ∅
           (w_heap (construct (to_arguments reading))) 0
           (w_conds (construct (to_arguments reading)))
           (w_self (construct (to_arguments reading)))
           (declared_input_keys reading) (declared_output_keys reading)
           answered (construct (to_arguments reading)) false).
  - reflexivity.
  - reflexivity.
  - reflexivity.
  - reflexivity.
  - intros key Hin.
    assert (key = "goal" ∨ key = "a") as [-> | ->].
    { revert Hin. unfold declared_input_keys. simpl.
      rewrite !elem_of_union, !elem_of_singleton, !elem_of_empty. tauto. }
    + vm_compute. reflexivity.
    + vm_compute. reflexivity.
Defined.

(** * The constructor *)

(** X17.  Construction fails exactly when a callback that is supplied
    cannot be called.  When it succeeds, one condition variable is built,
    no preemption is pending, no response is stored and no object that
    existed is changed; the request of the state is the one supplied,
    not a copy, or else a new object with the fields of the service's
    request type. *)
Theorem construction_contract (c : constructor_arguments) (h : heap)
    (n : nat) :
  match new_ServiceState c h n with
  | InvalidStateError _ =>
      not_callable (c_request_cb c) = true ∨
      not_callable (c_response_cb c) = true
  | Constructed self ins outs h' n' =>
      not_callable (c_request_cb c) = false ∧
      not_callable (c_response_cb c) = false ∧
      (∀ l, is_Some (h !! l) → h' !! l = h !! l) ∧
      n' = S n ∧ _done_cond self = n ∧
      _preempt_requested self = false ∧ _response self = None ∧
      match c_request c with
      | None => ∃ l, _request self = VRef l ∧ h !! l = None ∧
                     h' !! l = Some (c_service_spec c)
      | Some r => _request self = r ∧ h' = h
      end
  end.
Proof.
  unfold new_ServiceState, __init__.
  destruct (not_callable (c_request_cb c)); [by left|].
  destruct (not_callable (c_response_cb c)); [by right|].
  simpl. destruct (c_request c) as [r|]; simpl.
  - repeat split.
  - assert (h !! fresh (dom h) = None) as Hfresh
      by (apply not_elem_of_dom, is_fresh).
    repeat split.
    + intros l [attrs Hl]. apply lookup_insert_ne. congruence.
    + exists (fresh (dom h)). split; [reflexivity|]. split; [exact Hfresh|].
      apply lookup_insert_eq.
Qed.

(** * The stored request *)

Lemma keeps_preempt_gate : preserves keeps_request preempt_gate.
Proof. unfold preempt_gate, preempt_requested, service_preempt. keeps_tac. Qed.

Lemma keeps_wait_until_ready name script :
  preserves keeps_request (wait_until_ready name script).
Proof.
  induction script as [|p script IH]; simpl; unfold service_preempt;
    keeps_tac.
Qed.
#[local] Hint Resolve keeps_preempt_gate keeps_wait_until_ready : keeps.

Lemma keeps_connect_to_service script :
  preserves keeps_request (connect_to_service script).
Proof. unfold connect_to_service. keeps_tac. Qed.

Lemma keeps_setattr o name v : preserves keeps_request (setattr o name v).
Proof. unfold setattr. keeps_tac. Qed.
#[local] Hint Resolve keeps_connect_to_service keeps_setattr : keeps.

Lemma keeps_write_request_slots slots :
  preserves keeps_request (write_request_slots slots).
Proof. induction slots as [|key slots IH]; simpl; keeps_tac. Qed.

Lemma keeps_check_request : preserves keeps_request check_request.
Proof. unfold check_request. keeps_tac. Qed.

Lemma keeps_call_service sub : preserves keeps_request (call_service sub).
Proof.
  unfold call_service, submit_call, register, wait, except_TypeError,
    deliver, _done_cb, store_result, notify. keeps_tac.
Qed.

Lemma invoke_keeps_request e w :
  _request_key (w_self w) = None →
  _request_cb (w_self w) = None →
  _request (w_self (invoke e w).2) = _request (w_self w).
Proof.
  intros Hkey Hcb. rewrite invoke_world. unfold execute, bind.
  pose proof (keeps_preempt_gate (fresh_log w)) as H1.
  pose proof (frame_preempt_gate (fresh_log w)) as [F1 _].
  unfold keeps_request in H1.
  destruct (preempt_gate (fresh_log w)) as [[[]|r] w1]; simpl in *; [|done].
  pose proof (keeps_connect_to_service (readiness e) w1) as H2.
  pose proof (frame_connect_to_service (readiness e) w1) as [F2 _].
  destruct (connect_to_service (readiness e) w1) as [[[]|r] w2];
    simpl in *; unfold keeps_request in *; [|congruence].
  assert (_request_key (w_self w2) = None) as Hkey2.
  { destruct F1 as (_&_&K1&_), F2 as (_&_&K2&_). simpl in K1. congruence. }
  assert (_request_cb (w_self w2) = None) as Hcb2.
  { destruct F1 as (_&K1&_), F2 as (_&K2&_). simpl in K1. congruence. }
  assert (_request (w_self (build_request w2).2) = _request (w_self w2))
    as H3.
  { unfold build_request, grab_request_key, call_request_cb. munfold.
    rewrite Hkey2. simpl.
    pose proof (keeps_write_request_slots (_request_slots (w_self w2)) w2)
      as Hs.
    pose proof (frame_write_request_slots (_request_slots (w_self w2)) w2)
      as [(_&K3&_) _].
    destruct (write_request_slots (_request_slots (w_self w2)) w2)
      as [[[]|r] w3]; simpl in *; [|exact Hs].
    rewrite K3, Hcb2. exact Hs. }
  destruct (build_request w2) as [[[]|r] w3]; simpl in *; [|congruence].
  pose proof (keeps_check_request w3) as H4.
  destruct (check_request w3) as [[[]|r] w4]; simpl in *; [|congruence].
  pose proof (keeps_call_service (submission e) w4) as H5.
  destruct (call_service (submission e) w4) as [[[]|r] w5]; simpl in *;
    [|congruence].
  pose proof (keeps_handle_response w5) as H6. unfold keeps_request in H6.
  congruence.
Qed.

(** X18.  The stored request is replaced by the request key and by the
    request callback only: with neither configured, the state holds
    after [execute] the request it held before, however the invocation
    ends. *)
Theorem request_replaced_by_key_or_callback_only (e : env) (w : world) :
  _request_key (w_self w) = None →
  _request_cb (w_self w) = None →
  _request (w_self (invoke e w).2) = _request (w_self w).
Proof. apply invoke_keeps_request. Qed.

Lemma request_replaced_by_key_or_callback_only_witness :
  _request (w_self (invoke answered slotted).2) = VRef 0.
Proof.
  etrans;
    [apply (request_replaced_by_key_or_callback_only answered slotted)|];
    reflexivity.
Defined.

(** * The response callback and the end of the call *)

(** X19.  When the call has completed and the response callback raises,
    whatever it raises, [execute] does not return 'aborted': the handler
    of the callback's exception fails itself, [NameError] leaves
    [execute], and neither the response key nor a response slot is
    written. *)
Theorem response_callback_exception_becomes_NameError (e : env)
    (w w1 : world) (cb : callback) (response : value) (ex : exn)
    (ud : userdata) (h : heap) :
  dispatch e (fresh_log w) = (Next tt, w1) →
  _response_cb (w_self w) = Some cb →
  _response (w_self w1) = Some response →
  cb (w_ud w1) (w_heap w1) response = CbRaise ex ud h →
  (invoke e w).1 = Raise NameError ∧
  w_ud (invoke e w).2 = ud.
Proof.
  intros Hdisp Hcb Hresp Hraise.
  pose proof (frame_dispatch e (fresh_log w)) as [Hcfg _].
  rewrite Hdisp in Hcfg. simpl in Hcfg.
  destruct Hcfg as (_ & _ & _ & _ & Hrcb & _).
  rewrite (invoke_dispatched e w w1 Hdisp).
  unfold handle_response, call_response_cb, except_all. munfold.
  rewrite Hrcb, Hcb, Hresp, Hraise. simpl. by split.
Qed.

Lemma response_callback_exception_becomes_NameError_witness :
  (invoke answered failing_response).1 = Raise NameError.
Proof.
  pose (w1 := (dispatch answered (fresh_log failing_response)).2).
  apply (response_callback_exception_becomes_NameError answered
           failing_response w1 failing_cb (VRef 1) (UserError "ValueError")
           (w_ud w1) (w_heap w1)).
  - vm_compute. reflexivity.
  - reflexivity.
  - vm_compute. reflexivity.
  - reflexivity.
Defined.

Lemma call_service_next_completes sub w w' :
  call_service sub w = (Next tt, w') → ∃ fields, sub = Completes fields.
Proof.
  unfold call_service, submit_call, register, wait, except_TypeError,
    deliver, _done_cb, store_result, notify. munfold.
  destruct sub as [ex|ex|fields|fields|]; try destruct (decide (ex = TypeError));
    simpl; try discriminate. intros _. by exists fields.
Qed.

(** X20.  [execute] returns a label other than 'aborted' and 'preempted'
    only after the call has completed: the client gave the future its
    result and the done callback has notified the state's condition. *)
Theorem success_requires_completion (e : env) (w : world) (label : string) :
  (invoke e w).1 = Return label →
  label ≠ "aborted" → label ≠ "preempted" →
  (∃ fields, submission e = Completes fields) ∧
  CondNotify (_done_cond (w_self w)) ∈ w_log (invoke e w).2.
Proof.
  unfold invoke. fold (fresh_log w). rewrite execute_prepare.
  pose proof (frame_prepare e (fresh_log w)) as [Hcfg _].
  destruct (prepare e (fresh_log w)) as [[[]|r1] w1] eqn:H1; simpl in Hcfg.
  2:{ simpl. intros -> Ha Hp.
      destruct (prepare_stops _ _ _ _ H1)
        as [[= ->]|[[= ->]|[[? _]|(? & ? & _)]]];
        done. }
  unfold bind.
  destruct (call_service (submission e) w1) as [[[]|r2] w2] eqn:H2.
  2:{ simpl. intros -> Ha Hp.
      destruct (call_service_stops _ _ _ _ H2)
        as [[= ->]|[(? & ? & _)|[? _]]]; done. }
  intros Hret Ha Hp. split; [by eapply call_service_next_completes|].
  destruct (quiet_handle_response w2) as (evs & Hlog & _).
  pose proof (call_service_next_notifies _ _ _ H2) as Hnote.
  destruct (handle_response w2) as [[x|r] w3]; simpl in *;
    rewrite Hlog; apply elem_of_app; left;
    by destruct Hcfg as (_&_&_&_&_&_&_&_&<-).
Qed.

Lemma success_requires_completion_witness :
  CondNotify 0 ∈ w_log (invoke answered plain).2.
Proof.
  apply (success_requires_completion answered plain "succeeded").
  - vm_compute. reflexivity.
  - discriminate.
  - discriminate.
Defined.
